(** * serp-it: aggregation, pooling, rendering and extraction-merge layer

    A shallow embedding of the TypeScript sources of serp-it
    (SearchAggregator.ts, BrowserPool.ts, PageRenderer.ts, PdfParser.ts,
    index.ts, EngineUtils.ts, engines/Startpage.ts, engines/DuckDuckGo.ts)
    together with the properties stated about them.

    Conventions.
    - A JavaScript string is modelled as a [string] of 8-bit code units,
      i.e. the code points U+0000 .. U+00FF.  The character classes
      ([\s], [toLowerCase], [trim]) are the JavaScript ones restricted to
      that range.
    - JavaScript numbers that hold lengths, counts and milliseconds are
      integers in [Z].
    - [async] functions are embedded by their sequential meaning; where the
      interleaving at an [await] matters (the browser pool) the suspension
      points are explicit events of a step function. *)

From Stdlib Require Import String Ascii List ZArith Lia Bool Arith.
From Stdlib Require DecimalString Permutation Sorted.
Import ListNotations.

Local Open Scope string_scope.
Local Open Scope Z_scope.

(* ================================================================== *)
(** * JavaScript string primitives                                     *)
(* ================================================================== *)

Module Js.

(** Code unit of a character. *)
Definition code (c : ascii) : Z := Z.of_N (N_of_ascii c).

Definition chr (n : Z) : ascii := ascii_of_N (Z.to_N n).

(** [s.length] *)
Definition strlen (s : string) : Z := Z.of_nat (String.length s).

(** WhiteSpace and LineTerminator code points below U+0100: what [\s]
    matches and what [trim] removes. *)
Definition isSpace (c : ascii) : bool :=
  let n := code c in
  ((9 <=? n) && (n <=? 13)) || (n =? 32) || (n =? 160).

(** One character of [toLowerCase]: A-Z, and the Latin-1 capitals
    U+00C0 .. U+00DE except the multiplication sign U+00D7. *)
Definition lowerChar (c : ascii) : ascii :=
  let n := code c in
  if ((65 <=? n) && (n <=? 90))
     || ((192 <=? n) && (n <=? 222) && negb (n =? 215))
  then chr (n + 32) else c.

Fixpoint toLowerCase (s : string) : string :=
  match s with
  | EmptyString => EmptyString
  | String c r => String (lowerChar c) (toLowerCase r)
  end.

Definition isEmpty (s : string) : bool :=
  match s with EmptyString => true | _ => false end.

(** Truthiness of a string: [if (s)] holds for the non-empty ones. *)
Definition truthy (s : string) : bool := negb (isEmpty s).

Fixpoint trimStart (s : string) : string :=
  match s with
  | EmptyString => EmptyString
  | String c r => if isSpace c then trimStart r else s
  end.

Fixpoint trimEnd (s : string) : string :=
  match s with
  | EmptyString => EmptyString
  | String c r =>
      let t := trimEnd r in
      if isSpace c && isEmpty t then EmptyString else String c t
  end.

(** [s.trim()] *)
Definition trim (s : string) : string := trimEnd (trimStart s).

(** [s.startsWith(p)] *)
Definition startsWith (p s : string) : bool := String.prefix p s.

(** [s.slice(b, e)] for integer arguments, negative ones counting from
    the end. *)
Definition slice (s : string) (b e : Z) : string :=
  let len := strlen s in
  let from := if b <? 0 then Z.max (len + b) 0 else Z.min b len in
  let to := if e <? 0 then Z.max (len + e) 0 else Z.min e len in
  substring (Z.to_nat from) (Z.to_nat (Z.max (to - from) 0)) s.

(** [parts.join(sep)] *)
Definition join (sep : string) (parts : list string) : string :=
  String.concat sep parts.

(** [s.replace(/[^a-z0-9]/g, '')]: keep the characters a-z and 0-9. *)
Definition isAlnumLower (c : ascii) : bool :=
  let n := code c in
  ((97 <=? n) && (n <=? 122)) || ((48 <=? n) && (n <=? 57)).

Fixpoint keepChars (p : ascii -> bool) (s : string) : string :=
  match s with
  | EmptyString => EmptyString
  | String c r => if p c then String c (keepChars p r) else keepChars p r
  end.

(** Number of pieces of [s.split(/\s+/)]: one more than the number of
    maximal runs of white space.  [inRun] tells whether the previous
    character was white space. *)
Fixpoint spaceRuns (inRun : bool) (s : string) : Z :=
  match s with
  | EmptyString => 0
  | String c r =>
      if isSpace c
      then (if inRun then 0 else 1) + spaceRuns true r
      else spaceRuns false r
  end.

Definition splitSpaceCount (s : string) : Z := 1 + spaceRuns false s.

(** [s.split(/\n\n+/)]: the separators are the maximal runs of two or
    more line feeds; a single line feed stays inside its piece.  [cur] is
    the piece being read (reversed), [nl] the number of line feeds just
    seen and not yet attributed. *)
Definition LF : ascii := "010"%char.

Fixpoint revApp (r : list ascii) (s : string) : string :=
  match r with
  | [] => s
  | c :: r' => revApp r' (String c s)
  end.

Fixpoint splitBlank (cur : list ascii) (nl : nat) (s : string) : list string :=
  match s with
  | EmptyString =>
      match nl with
      | O => [revApp cur EmptyString]
      | S O => [revApp (LF :: cur) EmptyString]
      | _ => [revApp cur EmptyString; EmptyString]
      end
  | String c r =>
      if Ascii.eqb c LF then splitBlank cur (S nl) r
      else
        match nl with
        | O => splitBlank (c :: cur) O r
        | S O => splitBlank (c :: LF :: cur) O r
        | _ => revApp cur EmptyString :: splitBlank [c] O r
        end
  end.

Definition splitBlankLines (s : string) : list string := splitBlank [] 0 s.





(** [s.repeat(n)] *)
Fixpoint repeat (n : nat) (s : string) : string :=
  match n with
  | O => EmptyString
  | S k => s ++ repeat k s
  end.


(** ** Exceptions *)

(** A thrown value: an [Error] instance with its message, or any other
    value, kept by its [String(value)] rendering. *)
Inductive Thrown : Type :=
| ErrorObj (message : string)
| NonError (shown : string).

(** How a call (or an awaited promise) completes. *)
Inductive Completion (A : Type) : Type :=
| Return (a : A)
| Throw (e : Thrown).
Arguments Return {A} a.
Arguments Throw {A} e.

(** [error instanceof Error ? error.message : String(error)] *)
Definition messageOf (e : Thrown) : string :=
  match e with ErrorObj m => m | NonError s => s end.

(** Sequencing: [const x = await first; next(x)], an exception of
    [first] ending the whole. *)
Definition bind {A B : Type} (first : Completion A)
    (next : A -> Completion B) : Completion B :=
  match first with
  | Return a => next a
  | Throw e => Throw e
  end.

(** [try { body } catch (error) { handler(error) }] *)
Definition tryCatch {A : Type} (body : Completion A)
    (handler : Thrown -> Completion A) : Completion A :=
  match body with
  | Return a => Return a
  | Throw e => handler e
  end.

End Js.

Notation "x <- first ;; next" := (Js.bind first (fun x => next))
  (at level 61, first at next level, right associativity).


(* ================================================================== *)
(** * index.ts: output budget                                          *)
(* ================================================================== *)

Module Index.

Definition TRUNCATION_MARKER : string :=
  String Js.LF (String Js.LF "... (truncated)").

Definition DEFAULT_LIMIT : Z := 40000.

(** [truncateMarkdown(markdown, limit = 40_000)] *)
Definition truncateMarkdown (markdown : string) (limit : Z) : string :=
  if Js.strlen markdown <=? limit then markdown
  else Js.slice markdown 0 limit ++ TRUNCATION_MARKER.

End Index.


(* ================================================================== *)
(** * PdfParser.ts: smart merge of the two extractions                 *)
(* ================================================================== *)

Module PdfParser.

Definition NL2 : string := String Js.LF (String Js.LF "").

(** The literal
    ['\n\n---\n*Additional content extracted from images:*\n\n']. *)
Definition ADDITIONAL_HEADER : string :=
  NL2 ++ "---" ++ String Js.LF "*Additional content extracted from images:*"
      ++ NL2.

Definition NO_CONTENT : string :=
  "*No content could be extracted from this PDF.*".

(** [text.toLowerCase().replace(/[^a-z0-9]/g, '').slice(0, 100)] *)
Definition normalizeForComparison (text : string) : string :=
  Js.slice (Js.keepChars Js.isAlnumLower (Js.toLowerCase text)) 0 100.

(** [content.split(/\n\n+/).filter((p) => p.trim())] *)
Definition paragraphs (content : string) : list string :=
  filter (fun p => Js.truthy (Js.trim p)) (Js.splitBlankLines content).

(** [seen.has(x)] for the [Set] built from a list of strings. *)
Definition setHas (seen : list string) (x : string) : bool :=
  existsb (String.eqb x) seen.

(** The [uniqueOcr] array of [deduplicateContent]. *)
Definition uniqueOcr (textContent ocrContent : string) : list string :=
  let paragraphs1 := paragraphs textContent in
  let paragraphs2 := paragraphs ocrContent in
  let seen := map normalizeForComparison paragraphs1 in
  filter (fun p =>
            let normalized := normalizeForComparison p in
            (20 <? Js.strlen normalized) && negb (setHas seen normalized))
         paragraphs2.

Definition deduplicateContent (textContent ocrContent : string) : string :=
  let unique := uniqueOcr textContent ocrContent in
  if 0 <? Z.of_nat (List.length unique)
  then textContent ++ ADDITIONAL_HEADER ++ Js.join NL2 unique
  else textContent.

(** In the test [ocrWords > textWords * 1.5] the word counts are
    integers, so the comparison with the product by 1.5 is the integer
    comparison [3 * textWords < 2 * ocrWords]. *)
Definition mergeExtractions (textContent ocrContent : string) : string :=
  let textLength := Js.strlen (Js.trim textContent) in
  let ocrLength := Js.strlen (Js.trim ocrContent) in
  if 500 <? textLength then
    let textWords := Js.splitSpaceCount textContent in
    let ocrWords := Js.splitSpaceCount ocrContent in
    if (3 * textWords <? 2 * ocrWords) && (200 <? ocrLength)
    then deduplicateContent textContent ocrContent
    else textContent
  else if (0 <? textLength) && (0 <? ocrLength) then
    if textLength * 2 <? ocrLength
    then deduplicateContent ocrContent textContent
    else deduplicateContent textContent ocrContent
  else if 0 <? ocrLength then ocrContent
  else if 0 <? textLength then textContent
  else NO_CONTENT.

(** ** The statements about the merge, in the words of the specification *)


(** "[primary] followed by the additional-content section holding the
    unique paragraphs of [secondary]". *)
Definition withAdditional (primary secondary : string) : string :=
  primary ++ ADDITIONAL_HEADER ++ Js.join NL2 (uniqueOcr primary secondary).

(** The length that [mergeExtractions] measures: that of the trimmed
    text. *)
Definition textLength (s : string) : Z := Js.strlen (Js.trim s).

(** "The recognized word count exceeds 1.5 times the structured word
    count and the recognized length exceeds 200." *)
Definition ocrHasMore (text ocr : string) : bool :=
  (3 * Js.splitSpaceCount text <? 2 * Js.splitSpaceCount ocr)
  && (200 <? textLength ocr).

(** C2 as it is worded: above 500 characters of structured text the
    section is appended exactly when the recognition has materially
    more content, and otherwise the structured text comes back. *)
Definition mergeLong_as_stated : Prop :=
  forall text ocr, 500 < textLength text ->
    (mergeExtractions text ocr = withAdditional text ocr
       <-> ocrHasMore text ocr = true) /\
    (ocrHasMore text ocr = false -> mergeExtractions text ocr = text).

(** C5 as it is worded, for its first case: of two non-empty sources the
    one with more content is the primary body. *)
Definition mergeShort_as_stated : Prop :=
  forall text ocr,
    textLength text <= 500 -> 0 < textLength text -> 0 < textLength ocr ->
    (textLength text < textLength ocr ->
       mergeExtractions text ocr = deduplicateContent ocr text) /\
    (textLength ocr <= textLength text ->
       mergeExtractions text ocr = deduplicateContent text ocr).

(** Sample extractions: 100 words in 599 characters; twice as many
    words with a caption of its own; fewer than 1.5 times as many. *)
Definition text600 : string := Js.repeat 100 "word1 ".
Definition ocr_twice : string :=
  Js.repeat 199 "w " ++ "caption from the picture".
Definition ocr_fewer : string := Js.repeat 120 "w ".

End PdfParser.

(* ================================================================== *)
(** * PageRenderer.ts: the retrying render loop                        *)
(* ================================================================== *)

Module PageRenderer.

Import Js.

Definition MAX_ATTEMPTS : Z := 3.

Record PageRenderResult : Type := { html : string; markdown : string }.

(** What the collaborators (pool, Playwright, Turndown) do during one
    pass of the loop body.
    - [acquire]: [pool.acquire()] rejects with this value; consulted only
      when a pool is used.
    - [launch]: [chromium.launch()] rejects; consulted only without pool.
    - [page]: the steps from [browser.newContext()] to [context.close()]
      either throw or produce the html and its markdown.
    - [close]: [browser.close()] on the success path rejects; consulted
      only for a browser created by the attempt. *)
Record Attempt : Type := {
  acquire : option Thrown;
  launch : option Thrown;
  page : Thrown + PageRenderResult;
  close : option Thrown
}.

(** Observable actions of the loop. *)
Inductive Event : Type :=
| EvAttempt (attempt : Z)   (* the loop body starts *)
| EvAcquire                 (* pool.acquire() resolved *)
| EvLaunch                  (* chromium.launch() resolved *)
| EvRelease                 (* pool.release(browser) *)
| EvClose                   (* browser.close() *)
| EvDelay (ms : Z).         (* delay(ms) *)

(** Outcome of one pass of the loop body: the exception left the
    function (it was raised before the [try]), it was caught and
    recorded in [lastError], or the function returned. *)
Inductive AttemptResult : Type :=
| Propagated (e : Thrown)
| Caught (e : Thrown)
| Done (r : PageRenderResult).

(** The loop body up to and including the cleanup of the [catch] block
    (the back-off is added by the loop). *)
Definition runAttempt (usePool : bool) (a : Attempt)
  : list Event * AttemptResult :=
  if usePool then
    match acquire a with
    | Some e => ([], Propagated e)
    | None =>
        match page a with
        | inr r => ([EvAcquire; EvRelease], Done r)
        | inl e => ([EvAcquire; EvRelease], Caught e)
        end
    end
  else
    match launch a with
    | Some e => ([], Caught e)
    | None =>
        match page a with
        | inl e => ([EvLaunch; EvClose], Caught e)
        | inr r =>
            match close a with
            | None => ([EvLaunch; EvClose], Done r)
            | Some e => ([EvLaunch; EvClose; EvClose], Caught e)
            end
        end
    end.

(** The message of the error thrown after the loop. *)
Definition finalMessage (url : string) (lastError : option Thrown) : string :=
  match lastError with
  | Some (ErrorObj m) => m
  | _ => "Unknown error rendering " ++ url
  end.

(** [for (let attempt = 0; attempt < MAX_ATTEMPTS; attempt += 1)]
    followed by the final [throw]; [remaining] is
    [MAX_ATTEMPTS - attempt]. *)
Fixpoint renderLoop (usePool : bool) (url : string) (script : Z -> Attempt)
    (remaining : nat) (attempt : Z) (lastError : option Thrown)
  : list Event * Completion PageRenderResult :=
  match remaining with
  | O => ([], Throw (ErrorObj (finalMessage url lastError)))
  | S k =>
      let (evs, res) := runAttempt usePool (script attempt) in
      match res with
      | Propagated e => (EvAttempt attempt :: evs, Throw e)
      | Done r => (EvAttempt attempt :: evs, Return r)
      | Caught e =>
          let backoff :=
            if attempt <? MAX_ATTEMPTS - 1
            then [EvDelay (250 * (attempt + 1))] else [] in
          let (rest, out) :=
            renderLoop usePool url script k (attempt + 1) (Some e) in
          (EvAttempt attempt :: evs ++ backoff ++ rest, out)
      end
  end.

(** The document branch and the environment of a call. *)
Record Env : Type := {
  isPdf : bool;                      (* isPdfUrl(url) || isPdfContentType(url) *)
  parsePdf : Thrown + string;        (* parsePdfFromUrl(url) *)
  script : Z -> Attempt
}.

Definition renderPageToMarkdown (env : Env) (url : string) (usePool : bool)
  : list Event * Completion PageRenderResult :=
  if isPdf env then
    match parsePdf env with
    | inr md => ([], Return {| html := ""; markdown := md |})
    | inl e => ([], Throw (ErrorObj ("PDF rendering failed: " ++ messageOf e)))
    end
  else renderLoop usePool url (script env) (Z.to_nat MAX_ATTEMPTS) 0 None.








(** A renderer that fails on the attempts before [k] and succeeds from
    [k] on. *)
Definition flaky (k : Z) : Z -> Attempt := fun attempt =>
  {| acquire := None; launch := None; close := None;
     page := if attempt <? k
             then inl (ErrorObj "net::ERR_CONNECTION_RESET")
             else inr {| html := "<p>ok</p>"; markdown := "ok" |} |}.

Definition flakyEnv (k : Z) : Env :=
  {| isPdf := false; parsePdf := inr ""; script := flaky k |}.

End PageRenderer.

(* ================================================================== *)
(** * BrowserPool.ts: the pool of Chromium instances                   *)
(* ================================================================== *)

Module BrowserPool.

(** A launched browser, identified by the rank of the
    [chromium.launch()] call that created it. *)
Definition Browser : Type := nat.

Record PooledBrowser : Type := {
  browser : Browser;
  inUse : bool;
  lastUsed : Z
}.

(** A pending or settled [acquire()] promise.  The body of [acquire]
    runs without interruption up to its [await chromium.launch(...)],
    where it is suspended until the launch settles; a caller that found
    the pool full polls every 100 ms. *)
Inductive Caller : Type :=
| Idle                      (* acquire() not called yet *)
| Launching (b : Browser)   (* suspended at the await; [b] is being launched *)
| Polling                   (* inside the setInterval wait *)
| Resolved (b : Browser)    (* the promise resolved with [b] *)
| Rejected.                 (* the launch failed *)

Record World : Type := {
  pool : list PooledBrowser;
  maxSize : Z;
  idleTimeout : Z;
  launches : nat;             (* chromium.launch() calls made so far *)
  callers : nat -> Caller
}.

(** [new BrowserPool(maxSize, idleTimeoutMs)] *)
Definition create (maxSize idleTimeoutMs : Z) : World :=
  {| pool := []; maxSize := maxSize; idleTimeout := idleTimeoutMs;
     launches := 0; callers := fun _ => Idle |}.

(** [const available = this.pool.find(pb => !pb.inUse)] followed, when
    found, by [available.inUse = true; available.lastUsed = Date.now()]:
    the browser found and the pool after the two assignments. *)
Fixpoint takeAvailable (now : Z) (p : list PooledBrowser)
  : option (Browser * list PooledBrowser) :=
  match p with
  | [] => None
  | pb :: rest =>
      if negb (inUse pb)
      then Some (browser pb,
                 {| browser := browser pb; inUse := true; lastUsed := now |}
                   :: rest)
      else match takeAvailable now rest with
           | Some (b, rest') => Some (b, pb :: rest')
           | None => None
           end
  end.

Definition setCaller (i : nat) (c : Caller) (cs : nat -> Caller)
  : nat -> Caller :=
  fun j => if Nat.eqb j i then c else cs j.

Definition withPool (w : World) (p : list PooledBrowser) : World :=
  {| pool := p; maxSize := maxSize w; idleTimeout := idleTimeout w;
     launches := launches w; callers := callers w |}.

Definition withCaller (w : World) (i : nat) (c : Caller) : World :=
  {| pool := pool w; maxSize := maxSize w; idleTimeout := idleTimeout w;
     launches := launches w; callers := setCaller i c (callers w) |}.

(** What the event loop can run next. *)
Inductive Event : Type :=
| Call (i : nat) (now : Z)         (* caller [i] invokes acquire() *)
| Launched (i : nat) (now : Z)     (* the launch awaited by [i] resolves *)
| LaunchFailed (i : nat)           (* the launch awaited by [i] rejects *)
| Tick (i : nat) (now : Z)         (* the polling timer of [i] fires *)
| Release (b : Browser) (now : Z)  (* release(b) *)
| Sweep (now : Z).                 (* the cleanup timer fires *)

(** [acquire()] from its first statement to its first suspension. *)
Definition acquireStart (w : World) (i : nat) (now : Z) : World :=
  match takeAvailable now (pool w) with
  | Some (b, p') => withCaller (withPool w p') i (Resolved b)
  | None =>
      if Z.of_nat (List.length (pool w)) <? maxSize w then
        (* chromium.launch(...) is called; the function awaits it *)
        {| pool := pool w; maxSize := maxSize w; idleTimeout := idleTimeout w;
           launches := S (launches w);
           callers := setCaller i (Launching (launches w)) (callers w) |}
      else withCaller w i Polling
  end.

(** The rest of [acquire()] once the awaited launch has resolved. *)
Definition acquireResume (w : World) (i : nat) (now : Z) : World :=
  match callers w i with
  | Launching b =>
      let pooled := {| browser := b; inUse := true; lastUsed := now |} in
      withCaller (withPool w (pool w ++ [pooled])%list) i (Resolved b)
  | _ => w
  end.

(** The callback given to [setInterval] by a waiting caller. *)
Definition pollTick (w : World) (i : nat) (now : Z) : World :=
  match callers w i with
  | Polling =>
      match takeAvailable now (pool w) with
      | Some (b, p') => withCaller (withPool w p') i (Resolved b)
      | None => w
      end
  | _ => w
  end.

(** [release(browser)]: the entry found by [find] is marked free. *)
Fixpoint releaseIn (b : Browser) (now : Z) (p : list PooledBrowser)
  : list PooledBrowser :=
  match p with
  | [] => []
  | pb :: rest =>
      if Nat.eqb (browser pb) b
      then {| browser := browser pb; inUse := false; lastUsed := now |} :: rest
      else pb :: releaseIn b now rest
  end.

Definition release (w : World) (b : Browser) (now : Z) : World :=
  withPool w (releaseIn b now (pool w)).

(** [closeAll()]: every browser is closed and the pool emptied. *)
Definition closeAll (w : World) : World := withPool w [].

(** The callback of [startCleanup]. *)
Definition sweep (w : World) (now : Z) : World :=
  withPool w
    (filter (fun pb =>
               negb (negb (inUse pb) && (idleTimeout w <? now - lastUsed pb)))
            (pool w)).

Definition step (w : World) (ev : Event) : World :=
  match ev with
  | Call i now =>
      match callers w i with
      | Idle => acquireStart w i now
      | _ => w
      end
  | Launched i now => acquireResume w i now
  | LaunchFailed i =>
      match callers w i with
      | Launching _ => withCaller w i Rejected
      | _ => w
      end
  | Tick i now => pollTick w i now
  | Release b now => release w b now
  | Sweep now => sweep w now
  end.

Definition run (w : World) (evs : list Event) : World := fold_left step evs w.

Definition size (w : World) : Z := Z.of_nat (List.length (pool w)).

(** Schedules in which every [acquire()] is awaited before anything
    else runs: a call is immediately followed by the settlement of its
    own launch. *)
Inductive sequential : list Event -> Prop :=
| seq_nil : sequential []
| seq_acquire i t t' evs :
    sequential evs -> sequential (Call i t :: Launched i t' :: evs)
| seq_acquire_failed i t evs :
    sequential evs -> sequential (Call i t :: LaunchFailed i :: evs)
| seq_tick i t evs : sequential evs -> sequential (Tick i t :: evs)
| seq_release b t evs : sequential evs -> sequential (Release b t :: evs)
| seq_sweep t evs : sequential evs -> sequential (Sweep t :: evs).

(** No caller is suspended at the launch. *)
Definition quiescent (w : World) : Prop :=
  forall i b, callers w i <> Launching b.

(** Four [acquire()] calls made in the same turn of the event loop on a
    fresh pool of capacity 3, followed by the completion of the
    launches. *)
Definition fourCalls : list Event := [Call 0 0; Call 1 0; Call 2 0; Call 3 0].

Definition fourLaunches : list Event :=
  [Launched 0 900; Launched 1 910; Launched 2 920; Launched 3 930].

(** The same with [n] callers. *)
Definition calls (n : nat) : list Event :=
  map (fun i => Call i 0) (seq 0 n).

Definition launchesDone (n : nat) : list Event :=
  map (fun i => Launched i 0) (seq 0 n).

End BrowserPool.

(* ================================================================== *)
(** * SearchAggregator.ts: canonical URLs, merge, fan-out              *)
(* ================================================================== *)

(** The part of the platform's [URL] class that [sanitizeUrl] uses.  The
    aggregator is stated over this interface; [Whatwg.api] further down
    is an executable instance for http and https URLs. *)
Class UrlApi : Type := {
  URL : Type;
  newURL : string -> option URL;        (* new URL(s); [None] when it throws *)
  setHash : URL -> string -> URL;       (* url.hash = value *)
  pathname : URL -> string;             (* url.pathname *)
  setPathname : URL -> string -> URL;   (* url.pathname = value *)
  toString : URL -> string              (* url.toString() *)
}.

Module SearchResult.
Record t : Type := { title : string; url : string; snippet : string }.
End SearchResult.

Module AggregatedResult.
Record t : Type := {
  title : string;
  url : string;
  snippet : string;
  sources : list string
}.
End AggregatedResult.

(** [Map<string, AggregatedResult>]: the entries in insertion order, with
    pairwise distinct keys. *)
Module JsMap.

Definition t : Type := list (string * AggregatedResult.t).

Fixpoint get (m : t) (key : string) : option AggregatedResult.t :=
  match m with
  | [] => None
  | (k, v) :: rest => if String.eqb k key then Some v else get rest key
  end.

(** Assignment to the fields of the object stored under [key]. *)
Fixpoint mutate (m : t) (key : string)
    (f : AggregatedResult.t -> AggregatedResult.t) : t :=
  match m with
  | [] => []
  | (k, v) :: rest =>
      if String.eqb k key then (k, f v) :: rest
      else (k, v) :: mutate rest key f
  end.

(** [m.set(key, value)]: a present key keeps its position. *)
Definition set (m : t) (key : string) (value : AggregatedResult.t) : t :=
  match get m key with
  | Some _ => mutate m key (fun _ => value)
  | None => (m ++ [(key, value)])%list
  end.

(** [Array.from(m.values())] *)
Definition values (m : t) : list AggregatedResult.t := map snd m.

Definition keys (m : t) : list string := map fst m.

End JsMap.

Module SearchAggregator.

Record AggregatedSearch : Type := {
  results : list AggregatedResult.t;
  engineErrors : list string
}.

(** [ISearchEngine]: the one capability of a backend adapter. *)
Record ISearchEngine : Type := {
  search : string -> option string -> Js.Completion (list SearchResult.t)
}.

Record EngineEntry : Type := { name : string; engine : ISearchEngine }.

(** The adapter instances created in the [engines] table. *)
Record Adapters : Type := {
  Aol : ISearchEngine;
  Brave : ISearchEngine;
  Bing : ISearchEngine;
  DuckDuckGo : ISearchEngine;
  Yahoo : ISearchEngine;
  Startpage : ISearchEngine;
  Yandex : ISearchEngine
}.

Definition engines (ad : Adapters) : list EngineEntry :=
  [ {| name := "AOL"; engine := Aol ad |};
    {| name := "Brave"; engine := Brave ad |};
    {| name := "Bing"; engine := Bing ad |};
    {| name := "DuckDuckGo"; engine := DuckDuckGo ad |};
    {| name := "Yahoo"; engine := Yahoo ad |};
    {| name := "Startpage"; engine := Startpage ad |};
    {| name := "Yandex"; engine := Yandex ad |} ].

Record Sanitized : Type := { key : string; href : string }.

(** [/^https?:\/\//i.test(s)]: the pattern is anchored at the start
    and matched without regard to letter case. *)
Definition hasHttpPrefix (s : string) : bool :=
  let l := Js.toLowerCase s in
  Js.startsWith "http://" l || Js.startsWith "https://" l.

(** [s.replace(/\/+$/, '')]: drop every trailing slash. *)
Fixpoint stripTrailingSlashes (s : string) : string :=
  match s with
  | EmptyString => EmptyString
  | String c r =>
      let t := stripTrailingSlashes r in
      if Ascii.eqb c "/" && Js.isEmpty t then EmptyString else String c t
  end.

Section WithUrl.
Context {api : UrlApi}.

(** The body of the [try] block of [sanitizeUrl], from the parsed URL
    to its normalized form. *)
Definition normalize (parsed : URL) : URL :=
  let parsed := setHash parsed "" in
  if negb (String.eqb (pathname parsed) "/")
  then setPathname parsed (stripTrailingSlashes (pathname parsed))
  else parsed.

Definition sanitizeUrl (rawUrl : string) : option Sanitized :=
  if negb (Js.truthy rawUrl) then None
  else
    let trimmed := Js.trim rawUrl in
    if negb (Js.truthy trimmed) then None
    else
      let trimmed :=
        if Js.startsWith "//" trimmed then "https:" ++ trimmed else trimmed in
      if negb (hasHttpPrefix trimmed) then None
      else
        match newURL trimmed with
        | Some parsed =>
            let normalizedHref := toString (normalize parsed) in
            Some {| key := Js.toLowerCase normalizedHref;
                    href := normalizedHref |}
        | None => None
        end.

(** [sources.includes(source)] *)
Definition includes (l : list string) (x : string) : bool :=
  existsb (String.eqb x) l.

(** The assignments made to an [existing] record.  The fields of a
    [SearchResult] are strings, so the defaults of
    [incoming.snippet ?? ''] and [incoming.title ?? sanitized.href] are
    never taken. *)
Definition mergeInto (existing : AggregatedResult.t)
    (title snippet source : string) : AggregatedResult.t :=
  let sources :=
    if negb (includes (AggregatedResult.sources existing) source)
    then (AggregatedResult.sources existing ++ [source])%list
    else AggregatedResult.sources existing in
  let snippet' :=
    if negb (Js.truthy (AggregatedResult.snippet existing)) && Js.truthy snippet
    then snippet else AggregatedResult.snippet existing in
  let title' :=
    if negb (Js.truthy (AggregatedResult.title existing)) && Js.truthy title
    then title else AggregatedResult.title existing in
  {| AggregatedResult.title := title';
     AggregatedResult.url := AggregatedResult.url existing;
     AggregatedResult.snippet := snippet';
     AggregatedResult.sources := sources |}.

Definition mergeResult (accumulator : JsMap.t) (incoming : SearchResult.t)
    (source : string) : JsMap.t :=
  match sanitizeUrl (SearchResult.url incoming) with
  | None => accumulator
  | Some sanitized =>
      let snippet := SearchResult.snippet incoming in
      let title := SearchResult.title incoming in
      match JsMap.get accumulator (key sanitized) with
      | Some existing =>
          JsMap.mutate accumulator (key sanitized)
                       (fun existing => mergeInto existing title snippet source)
      | None =>
          JsMap.set accumulator (key sanitized)
            {| AggregatedResult.title := title;
               AggregatedResult.url := href sanitized;
               AggregatedResult.snippet := snippet;
               AggregatedResult.sources := [source] |}
      end
  end.

(** [for (const result of results) mergeResult(aggregated, result, name)] *)
Definition mergeResults (aggregated : JsMap.t) (results : list SearchResult.t)
    (name : string) : JsMap.t :=
  fold_left (fun acc result => mergeResult acc result name) results aggregated.

(** One pass of the loop over [engines]: the [try] block and its
    [catch]. *)
Definition queryEngine (query : string) (region : option string)
    (state : JsMap.t * list string) (entry : EngineEntry)
  : Js.Completion (JsMap.t * list string) :=
  let (aggregated, engineErrors) := state in
  Js.tryCatch
    (results <- search (engine entry) query region ;;
     Js.Return (mergeResults aggregated results (name entry), engineErrors))
    (fun error =>
       let message := Js.messageOf error in
       Js.Return (aggregated,
                  (engineErrors ++ [(name entry ++ ": " ++ message)%string])%list)).

(** [for (const { name, engine } of engines) { ... }] *)
Fixpoint queryEngines (query : string) (region : option string)
    (todo : list EngineEntry) (state : JsMap.t * list string)
  : Js.Completion (JsMap.t * list string) :=
  match todo with
  | [] => Js.Return state
  | entry :: rest =>
      state' <- queryEngine query region state entry ;;
      queryEngines query region rest state'
  end.

Definition searchAllEngines (ad : Adapters) (query : string)
    (region : option string) : Js.Completion AggregatedSearch :=
  final <- queryEngines query region (engines ad) ([], []) ;;
  Js.Return {| results := JsMap.values (fst final);
               engineErrors := snd final |}.

End WithUrl.

End SearchAggregator.

(* ================================================================== *)
(** * An executable instance of the URL interface                      *)
(* ================================================================== *)

(** The platform's [URL] class is not part of the repository.  This
    module follows the WHATWG URL Standard (basic URL parser, host
    parser, URL serializer, the [hash] and [pathname] setters) for what
    [sanitizeUrl] can hand to it: absolute URLs whose scheme is http or
    https.  Hosts are covered when they are plain ASCII domain names;
    an input whose host needs percent-decoding, IDNA processing or the
    IPv4 / IPv6 parsers is outside this model and is reported as [None],
    like an input the parser rejects. *)
Module Whatwg.

Record Url : Type := {
  scheme : string;
  username : string;
  password : string;
  host : string;
  port : option Z;
  path : list string;
  query : option string;
  fragment : option string
}.

(** ** Character classes *)

Definition inRange (lo hi : Z) (c : ascii) : bool :=
  (lo <=? Js.code c) && (Js.code c <=? hi).

Definition isChar (x c : ascii) : bool := Ascii.eqb c x.

(** The quotation mark, U+0022. *)
Definition quote : ascii := Js.chr 34.

Definition isC0OrSpace (c : ascii) : bool := Js.code c <=? 32.

Definition isTabOrNewline (c : ascii) : bool :=
  let n := Js.code c in (n =? 9) || (n =? 10) || (n =? 13).

Definition isDigit (c : ascii) : bool := inRange 48 57 c.

Definition isAlpha (c : ascii) : bool := inRange 65 90 c || inRange 97 122 c.

Definition isHexDigit (c : ascii) : bool :=
  isDigit c || inRange 65 70 c || inRange 97 102 c.

Definition isSchemeChar (c : ascii) : bool :=
  isAlpha c || isDigit c || isChar "+" c || isChar "-" c || isChar "." c.

(** In a special URL the backslash separates like the slash. *)
Definition isSlash (c : ascii) : bool := isChar "/" c || isChar "\" c.

Definition isAuthorityEnd (c : ascii) : bool :=
  isSlash c || isChar "?" c || isChar "#" c.

(** ** Percent-encode sets *)

Definition c0ControlSet (c : ascii) : bool :=
  (Js.code c <? 32) || (126 <? Js.code c).

Definition fragmentSet (c : ascii) : bool :=
  c0ControlSet c || isChar " " c || isChar quote c || isChar "<" c
  || isChar ">" c || isChar "`" c.

Definition querySet (c : ascii) : bool :=
  c0ControlSet c || isChar " " c || isChar quote c || isChar "#" c
  || isChar "<" c || isChar ">" c.

Definition specialQuerySet (c : ascii) : bool := querySet c || isChar "'" c.

Definition pathSet (c : ascii) : bool :=
  querySet c || isChar "?" c || isChar "^" c || isChar "`" c
  || isChar "{" c || isChar "}" c.

Definition userinfoSet (c : ascii) : bool :=
  pathSet c || isChar "/" c || isChar ":" c || isChar ";" c || isChar "=" c
  || isChar "@" c || inRange 91 93 c || isChar "|" c.

(** ** Percent-encoding *)

Definition hexDigit (n : Z) : ascii :=
  if n <? 10 then Js.chr (48 + n) else Js.chr (55 + n).

Definition percentByte (n : Z) : string :=
  String "%" (String (hexDigit (n / 16)) (String (hexDigit (n mod 16)) "")).

(** UTF-8 bytes of a code point below U+0100. *)
Definition utf8 (c : ascii) : list Z :=
  let n := Js.code c in
  if n <? 128 then [n] else [192 + n / 64; 128 + n mod 64].

Definition encodeChar (set : ascii -> bool) (c : ascii) : string :=
  if set c then String.concat "" (map percentByte (utf8 c))
  else String c "".

Fixpoint encodeString (set : ascii -> bool) (s : string) : string :=
  match s with
  | EmptyString => EmptyString
  | String c r => encodeChar set c ++ encodeString set r
  end.

(** ** Scanning *)

Fixpoint span (p : ascii -> bool) (s : string) : string * string :=
  match s with
  | EmptyString => (EmptyString, EmptyString)
  | String c r =>
      if p c then let (a, b) := span p r in (String c a, b)
      else (EmptyString, s)
  end.

Fixpoint stripStart (p : ascii -> bool) (s : string) : string :=
  match s with
  | EmptyString => EmptyString
  | String c r => if p c then stripStart p r else s
  end.

Fixpoint stripEnd (p : ascii -> bool) (s : string) : string :=
  match s with
  | EmptyString => EmptyString
  | String c r =>
      let t := stripEnd p r in
      if p c && Js.isEmpty t then EmptyString else String c t
  end.

Fixpoint forallChars (p : ascii -> bool) (s : string) : bool :=
  match s with
  | EmptyString => true
  | String c r => p c && forallChars p r
  end.

(** Split at the last, respectively the first, occurrence of [x]. *)
Fixpoint splitLast (x : ascii) (s : string) : option (string * string) :=
  match s with
  | EmptyString => None
  | String c r =>
      match splitLast x r with
      | Some (a, b) => Some (String c a, b)
      | None => if Ascii.eqb c x then Some (EmptyString, r) else None
      end
  end.

Fixpoint splitFirst (x : ascii) (s : string) : option (string * string) :=
  match s with
  | EmptyString => None
  | String c r =>
      if Ascii.eqb c x then Some (EmptyString, r)
      else match splitFirst x r with
           | Some (a, b) => Some (String c a, b)
           | None => None
           end
  end.

(** Strict split on [x]. *)
Fixpoint splitOn (x : ascii) (s : string) : list string :=
  match s with
  | EmptyString => [EmptyString]
  | String c r =>
      if Ascii.eqb c x then EmptyString :: splitOn x r
      else match splitOn x r with
           | [] => [String c EmptyString]
           | seg :: segs => String c seg :: segs
           end
  end.

(** ** Authority *)

(** Username and password from the text before the last [@]: the first
    colon separates them, everything else is percent-encoded. *)
Fixpoint credentials (seenColon : bool) (s : string) : string * string :=
  match s with
  | EmptyString => (EmptyString, EmptyString)
  | String c r =>
      if isChar ":" c && negb seenColon then credentials true r
      else
        let (u, p) := credentials seenColon r in
        let e := encodeChar userinfoSet c in
        if seenColon then (u, e ++ p) else (e ++ u, p)
  end.

Definition isForbiddenDomainChar (c : ascii) : bool :=
  isC0OrSpace c || (Js.code c =? 127)
  || isChar "#" c || isChar "%" c || isChar "/" c || isChar ":" c
  || isChar "<" c || isChar ">" c || isChar "?" c || isChar "@" c
  || inRange 91 94 c || isChar "|" c.

(** The last label, after at most one trailing dot, reads as a number:
    the IPv4 parser would take over. *)
Definition looksNumeric (label : string) : bool :=
  negb (Js.isEmpty label)
  && (forallChars isDigit label
      || (Js.startsWith "0x" label && forallChars isHexDigit (Js.slice label 2 (Js.strlen label)))).

Definition endsInNumber (h : string) : bool :=
  match rev (splitOn "." h) with
  | [] => false
  | last :: before =>
      if Js.isEmpty last then
        match before with
        | [] => false
        | last' :: _ => looksNumeric last'
        end
      else looksNumeric last
  end.

(** The host parser on the hosts of this model: ASCII, no [%], no
    bracket, no [xn--] label, not ending in a number.  There it is
    the check for forbidden code points followed by lower-casing. *)
Definition hostParse (s : string) : option string :=
  if Js.isEmpty s then None
  else if negb (forallChars (fun c => (Js.code c <? 128) && negb (isChar "%" c)) s)
          || Js.startsWith "[" s then None
  else if negb (forallChars (fun c => negb (isForbiddenDomainChar c)) s) then None
  else
    let h := Js.toLowerCase s in
    if existsb (Js.startsWith "xn--") (splitOn "." h) || endsInNumber h
    then None else Some h.

Fixpoint digitsValue (acc : Z) (s : string) : option Z :=
  match s with
  | EmptyString => Some acc
  | String c r =>
      if isDigit c then digitsValue (acc * 10 + (Js.code c - 48)) r else None
  end.

Definition defaultPort (scheme : string) : Z :=
  if String.eqb scheme "http" then 80 else 443.

Definition portParse (scheme : string) (s : string) : option (option Z) :=
  match digitsValue 0 s with
  | None => None
  | Some v =>
      if Js.isEmpty s then Some None
      else if 65535 <? v then None
      else if v =? defaultPort scheme then Some None
      else Some (Some v)
  end.

(** ** Path *)

Definition isSingleDot (buffer : string) : bool :=
  let b := Js.toLowerCase buffer in
  String.eqb b "." || String.eqb b "%2e".

Definition isDoubleDot (buffer : string) : bool :=
  let b := Js.toLowerCase buffer in
  String.eqb b ".." || String.eqb b ".%2e" || String.eqb b "%2e."
  || String.eqb b "%2e%2e".

(** The end of a segment in the path state; [last] tells that the
    character ending it is not a slash. *)
Definition endSegment (buffer : string) (path : list string) (last : bool)
  : list string :=
  if isDoubleDot buffer then
    let shortened := removelast path in
    if last then (shortened ++ [EmptyString])%list else shortened
  else if isSingleDot buffer then
    (if last then (path ++ [EmptyString])%list else path)
  else (path ++ [buffer])%list.

(** The path state.  With a state override (the [pathname] setter) the
    characters [?] and [#] do not end the path. *)
Fixpoint pathState (override : bool) (buffer : string) (path : list string)
    (s : string) : list string * string :=
  match s with
  | EmptyString => (endSegment buffer path true, EmptyString)
  | String c r =>
      if isSlash c
      then pathState override EmptyString (endSegment buffer path false) r
      else if negb override && (isChar "?" c || isChar "#" c)
      then (endSegment buffer path true, s)
      else pathState override (buffer ++ encodeChar pathSet c) path r
  end.

(** The path start state of a special URL. *)
Definition pathStart (override : bool) (s : string) : list string * string :=
  match s with
  | String c r => if isSlash c then pathState override "" [] r
                  else pathState override "" [] s
  | EmptyString => pathState override "" [] s
  end.

(** ** The parser *)

Definition removeTabNewline (s : string) : string :=
  Js.keepChars (fun c => negb (isTabOrNewline c)) s.

(** The query state and the fragment state, on what follows the
    path. *)
Definition parseQuery (rest : string) : option string * string :=
  match rest with
  | String c q =>
      if isChar "?" c then
        let (q, rest) := span (fun c => negb (isChar "#" c)) q in
        (Some (encodeString specialQuerySet q), rest)
      else (None, rest)
  | EmptyString => (None, rest)
  end.

Definition parseFragment (rest : string) : option string :=
  match rest with
  | String c f =>
      if isChar "#" c then Some (encodeString fragmentSet f) else None
  | EmptyString => None
  end.

(** The authority: what precedes the last [@] is the user
    information; the host ends at the first colon, the port follows. *)
Definition splitAuthority (authority : string) : string * string * string :=
  let (userinfo, hostport) :=
    match splitLast "@" authority with
    | Some (u, h) => (u, h)
    | None => (EmptyString, authority)
    end in
  match splitFirst ":" hostport with
  | Some (h, p) => (userinfo, h, p)
  | None => (userinfo, hostport, EmptyString)
  end.

(** From the special-authority-slashes state on. *)
Definition parseAfterScheme (scheme rest : string) : option Url :=
  let rest := stripStart isSlash rest in
  let (authority, rest) := span (fun c => negb (isAuthorityEnd c)) rest in
  let '(userinfo, hostText, portText) := splitAuthority authority in
  match hostParse hostText, portParse scheme portText with
  | Some host, Some port =>
      let (path, rest) := pathStart false rest in
      let (query, rest) := parseQuery rest in
      Some {| scheme := scheme;
              username := fst (credentials false userinfo);
              password := snd (credentials false userinfo);
              host := host; port := port; path := path;
              query := query; fragment := parseFragment rest |}
  | _, _ => None
  end.

Definition parse (input : string) : option Url :=
  let s := removeTabNewline
             (stripEnd isC0OrSpace (stripStart isC0OrSpace input)) in
  let (sch, rest) := span isSchemeChar s in
  match rest with
  | String c rest =>
      let scheme := Js.toLowerCase sch in
      if isChar ":" c
         && (String.eqb scheme "http" || String.eqb scheme "https")
      then parseAfterScheme scheme rest
      else None
  | EmptyString => None
  end.

(** ** Serializer and setters *)

Definition pathnameOf (u : Url) : string :=
  String.concat "" (map (fun seg => "/" ++ seg) (path u)).

Definition decimal (n : Z) : string :=
  DecimalString.NilZero.string_of_uint (N.to_uint (Z.to_N n)).

Definition serialize (u : Url) : string :=
  scheme u ++ "://"
  ++ (if Js.truthy (username u) || Js.truthy (password u)
      then username u
           ++ (if Js.truthy (password u) then ":" ++ password u else "")
           ++ "@"
      else "")
  ++ host u
  ++ match port u with Some p => ":" ++ decimal p | None => "" end
  ++ pathnameOf u
  ++ match query u with Some q => "?" ++ q | None => "" end
  ++ match fragment u with Some f => "#" ++ f | None => "" end.

Definition withFragment (u : Url) (f : option string) : Url :=
  {| scheme := scheme u; username := username u; password := password u;
     host := host u; port := port u; path := path u; query := query u;
     fragment := f |}.

Definition withPath (u : Url) (p : list string) : Url :=
  {| scheme := scheme u; username := username u; password := password u;
     host := host u; port := port u; path := p; query := query u;
     fragment := fragment u |}.

(** [url.hash = value] *)
Definition hashSetter (u : Url) (value : string) : Url :=
  if Js.isEmpty value then withFragment u None
  else
    let input := match value with
                 | String c r => if isChar "#" c then r else value
                 | EmptyString => value
                 end in
    withFragment u (Some (encodeString fragmentSet (removeTabNewline input))).

(** [url.pathname = value] *)
Definition pathnameSetter (u : Url) (value : string) : Url :=
  withPath u (fst (pathStart true (removeTabNewline value))).

#[export] Instance api : UrlApi := {|
  URL := Url;
  newURL := parse;
  setHash := hashSetter;
  pathname := pathnameOf;
  setPathname := pathnameSetter;
  toString := serialize
|}.

End Whatwg.

(* ================================================================== *)
(** * Vocabulary for the statements about the aggregator               *)
(* ================================================================== *)

Module Aggregation.
Import SearchAggregator.

(** A search result together with the name of the adapter it came
    from, in the order in which [mergeResult] receives them. *)
Definition Input : Type := (SearchResult.t * string)%type.

(** "The first non-empty value seen", the empty string if there is
    none. *)
Fixpoint firstTruthy (values : list string) : string :=
  match values with
  | [] => EmptyString
  | v :: rest => if Js.truthy v then v else firstTruthy rest
  end.

(** The names of [l] added to [seen] in order, each one once. *)
Definition addDistinct (seen l : list string) : list string :=
  fold_left (fun acc s => if includes acc s then acc else (acc ++ [s])%list)
            l seen.

Section WithUrl.
Context {api : UrlApi}.

(** The dedup key of a result, if its URL is accepted. *)
Definition keyOf (r : SearchResult.t) : option string :=
  option_map key (sanitizeUrl (SearchResult.url r)).

Definition hasKey (k : string) (i : Input) : bool :=
  match keyOf (fst i) with
  | Some k' => String.eqb k' k
  | None => false
  end.

(** All the calls of [mergeResult] made during one aggregation. *)
Definition mergeAll (acc : JsMap.t) (inputs : list Input) : JsMap.t :=
  fold_left (fun acc i => mergeResult acc (fst i) (snd i)) inputs acc.

(** The record created for the first result of a canonical URL. *)
Definition freshRecord (i : Input) : AggregatedResult.t :=
  {| AggregatedResult.title := SearchResult.title (fst i);
     AggregatedResult.url :=
       match sanitizeUrl (SearchResult.url (fst i)) with
       | Some c => href c
       | None => EmptyString
       end;
     AggregatedResult.snippet := SearchResult.snippet (fst i);
     AggregatedResult.sources := [snd i] |}.

(** What a record becomes after the later results of its URL. *)

Definition absorb (e : AggregatedResult.t) (later : list Input)
  : AggregatedResult.t :=
  {| AggregatedResult.title :=
       firstTruthy (AggregatedResult.title e
                      :: map (fun i => SearchResult.title (fst i)) later);
     AggregatedResult.url := AggregatedResult.url e;
     AggregatedResult.snippet :=
       firstTruthy (AggregatedResult.snippet e
                      :: map (fun i => SearchResult.snippet (fst i)) later);
     AggregatedResult.sources :=
       addDistinct (AggregatedResult.sources e) (map snd later) |}.

(** What happens to the record of key [k] when [i] is merged. *)
Definition entryStep (k : string) (e : option AggregatedResult.t) (i : Input)
  : option AggregatedResult.t :=
  if hasKey k i then
    match e with
    | Some existing =>
        Some (mergeInto existing (SearchResult.title (fst i))
                        (SearchResult.snippet (fst i)) (snd i))
    | None => Some (freshRecord i)
    end
  else e.

(** The results of the adapters that answered, tagged with the adapter
    name, in the order of the [engines] table. *)
Fixpoint answered (query : string) (region : option string)
    (todo : list EngineEntry) : list Input :=
  match todo with
  | [] => []
  | entry :: rest =>
      match search (engine entry) query region with
      | Js.Return results =>
          (map (fun r => (r, name entry)) results
             ++ answered query region rest)%list
      | Js.Throw _ => answered query region rest
      end
  end.

(** The error lines of the adapters that failed, in the same order. *)
Fixpoint failures (query : string) (region : option string)
    (todo : list EngineEntry) : list string :=
  match todo with
  | [] => []
  | entry :: rest =>
      match search (engine entry) query region with
      | Js.Return _ => failures query region rest
      | Js.Throw e =>
          (name entry ++ ": " ++ Js.messageOf e)%string
            :: failures query region rest
      end
  end.

(** ** The loop of [searchAllEngines] as a transition relation *)

Record LoopState : Type := {
  todo : list EngineEntry;
  aggregated : JsMap.t;
  errors : list string
}.

(** One iteration: the adapter at the head of [todo] is queried (the
    label), and either its results are merged or its error is
    recorded. *)
Inductive loopStep (query : string) (region : option string)
  : LoopState -> string -> LoopState -> Prop :=
| step_results entry rest acc errs rs :
    search (engine entry) query region = Js.Return rs ->
    loopStep query region
      {| todo := entry :: rest; aggregated := acc; errors := errs |}
      (name entry)
      {| todo := rest; aggregated := mergeResults acc rs (name entry);
         errors := errs |}
| step_error entry rest acc errs e :
    search (engine entry) query region = Js.Throw e ->
    loopStep query region
      {| todo := entry :: rest; aggregated := acc; errors := errs |}
      (name entry)
      {| todo := rest; aggregated := acc;
         errors := (errs ++ [(name entry ++ ": " ++ Js.messageOf e)%string])%list |}.

(** A run of the loop with the adapters queried along the way. *)
Inductive loopRun (query : string) (region : option string)
  : LoopState -> list string -> LoopState -> Prop :=
| run_done s : todo s = [] -> loopRun query region s [] s
| run_step s label s' labels s'' :
    loopStep query region s label s' ->
    loopRun query region s' labels s'' ->
    loopRun query region s (label :: labels) s''.

Definition initial (ad : Adapters) : LoopState :=
  {| todo := engines ad; aggregated := []; errors := [] |}.

Definition outcome (s : LoopState) : AggregatedSearch :=
  {| results := JsMap.values (aggregated s); engineErrors := errors s |}.

End WithUrl.

Definition registrationOrder : list string :=
  ["AOL"; "Brave"; "Bing"; "DuckDuckGo"; "Yahoo"; "Startpage"; "Yandex"].

End Aggregation.

(* ================================================================== *)
(** * Vocabulary for the statements about canonical URLs               *)
(* ================================================================== *)

Module Canonical.
Import SearchAggregator.

(** The text handed to the URL parser: the trimmed raw URL, with
    [https:] put in front of a scheme-relative one. *)
Definition resolved (rawUrl : string) : string :=
  let trimmed := Js.trim rawUrl in
  if Js.startsWith "//" trimmed then "https:" ++ trimmed else trimmed.





(** A path segment as the parser leaves it: no separator, nothing left
    to percent-encode, and not a dot segment. *)
Definition pathSafe (c : ascii) : bool :=
  negb (Whatwg.pathSet c) && negb (Whatwg.isSlash c).

Definition normalSeg (seg : string) : bool :=
  Whatwg.forallChars pathSafe seg
  && negb (Whatwg.isSingleDot seg) && negb (Whatwg.isDoubleDot seg).


Definition serializePath (segs : list string) : string :=
  String.concat "" (map (fun seg => "/" ++ seg) segs).


End Canonical.

(* ================================================================== *)
(** * Sample data                                                      *)
(* ================================================================== *)

Module Samples.
Import SearchAggregator.

(** A structured text of 600 characters and 50 words; recognized texts
    of 300 characters and 100 words, and of 60 words. *)
Definition structured600 : string :=
  Js.repeat 49 "abcdefghijk " ++ "abcdefghijkl".

Definition recognized100 : string := Js.repeat 99 "xy " ++ "xyz".

Definition recognized60 : string := Js.repeat 59 "xy " ++ "xyz".

Definition result (title url snippet : string) : SearchResult.t :=
  {| SearchResult.title := title; SearchResult.url := url;
     SearchResult.snippet := snippet |}.

Definition answers (rs : list SearchResult.t) : ISearchEngine :=
  {| search := fun _ _ => Js.Return rs |}.

Definition fails (message : string) : ISearchEngine :=
  {| search := fun _ _ => Js.Throw (Js.ErrorObj message) |}.

(** AOL times out; Brave and Bing know the same page under two
    spellings of its URL and with different titles; Yandex returns a
    link that is not http(s). *)
Definition adapters : Adapters :=
  {| Aol := fails "HTTP 429";
     Brave := answers [result "" "https://Example.com/Guide/" "from brave"];
     Bing := answers [result "The Guide" "https://example.com/guide#intro" "";
                      result "Other" "https://example.com/other" "o"];
     DuckDuckGo := answers [];
     Yahoo := fails "timeout";
     Startpage := answers [result "Guide (Startpage)" "//example.com/guide" "sp"];
     Yandex := answers [result "Mail" "mailto:someone@example.com" "m"] |}.

(** Every adapter fails. *)
Definition allDown : Adapters :=
  {| Aol := fails "down"; Brave := fails "down"; Bing := fails "down";
     DuckDuckGo := fails "down"; Yahoo := fails "down";
     Startpage := fails "down"; Yandex := fails "down" |}.

End Samples.

(* ================================================================== *)
(** * Further JavaScript primitives                                    *)
(* ================================================================== *)

Module JsExtra.

(** [s.includes(t)] *)
Fixpoint includes (t s : string) : bool :=
  String.prefix t s
  || match s with
     | EmptyString => false
     | String _ r => includes t r
     end.

(** [s.endsWith(t)] *)
Fixpoint endsWith (t s : string) : bool :=
  String.eqb s t
  || match s with
     | EmptyString => false
     | String _ r => endsWith t r
     end.

(** The first, respectively last, character is white space. *)
Definition headSpace (s : string) : bool :=
  match s with String c _ => Js.isSpace c | EmptyString => false end.

Fixpoint lastSpace (s : string) : bool :=
  match s with
  | EmptyString => false
  | String c EmptyString => Js.isSpace c
  | String _ r => lastSpace r
  end.

(** [String(n)] for an integer. *)
Definition showInt (n : Z) : string :=
  if n <? 0
  then "-" ++ DecimalString.NilZero.string_of_uint (N.to_uint (Z.to_N (- n)))
  else DecimalString.NilZero.string_of_uint (N.to_uint (Z.to_N n)).

(** [l.length] *)
Definition len {A : Type} (l : list A) : Z := Z.of_nat (List.length l).

(** [l.slice(0, e)] for an integer [e], a negative one counting from
    the end. *)
Definition sliceTo {A : Type} (l : list A) (e : Z) : list A :=
  if e <? 0 then firstn (Z.to_nat (Z.max (len l + e) 0)) l
  else firstn (Z.to_nat e) l.

(** [l.sort(compare)] for a comparator that is a consistent ordering:
    the sort is stable, so its result is fixed by the comparator; it is
    computed here by insertion from the right, an element going past the
    elements that must strictly follow it. *)
Fixpoint insertSorted {A : Type} (compare : A -> A -> Z) (x : A)
    (sorted : list A) : list A :=
  match sorted with
  | [] => [x]
  | y :: rest =>
      if compare x y <=? 0 then x :: sorted
      else y :: insertSorted compare x rest
  end.

Definition sort {A : Type} (compare : A -> A -> Z) (l : list A) : list A :=
  fold_right (insertSorted compare) [] l.

(** The quotation mark as a string. *)
Definition DQ : string := String (Js.chr 34) EmptyString.

End JsExtra.

(* ================================================================== *)
(** * EngineUtils.ts: text of titles and snippets                      *)
(* ================================================================== *)

Module EngineUtils.

(** [text.replace(/\s+/g, " ")]: every maximal run of white space
    becomes one space; [inRun] tells that the previous character was
    white space. *)
Fixpoint collapseSpaces (inRun : bool) (text : string) : string :=
  match text with
  | EmptyString => EmptyString
  | String c r =>
      if Js.isSpace c
      then (if inRun then collapseSpaces true r
            else String " " (collapseSpaces true r))
      else String c (collapseSpaces false r)
  end.

Definition normalizeWhitespace (text : string) : string :=
  Js.trim (collapseSpaces false text).

(** No white space but the space character, and never two in a row;
    [afterSpace] tells that the previous character was a space. *)
Fixpoint singleSpaced (afterSpace : bool) (s : string) : bool :=
  match s with
  | EmptyString => true
  | String c r =>
      if Js.isSpace c
      then Ascii.eqb c " " && negb afterSpace && singleSpaced true r
      else singleSpaced false r
  end.

Definition visible (s : string) : string :=
  Js.keepChars (fun c => negb (Js.isSpace c)) s.

End EngineUtils.

(* ================================================================== *)
(** * Further vocabulary for the aggregator                            *)
(* ================================================================== *)

Module AggregationMore.
Import SearchAggregator Aggregation.

Section WithUrl.
Context {api : UrlApi}.

(** The dedup keys of the inputs whose URL is accepted, in the order
    of the inputs. *)
Definition acceptedKeys (inputs : list Input) : list string :=
  flat_map (fun i => match keyOf (fst i) with
                     | Some k => [k]
                     | None => []
                     end) inputs.

(** The input [i] is a result of the canonical URL [k] reported by the
    adapter [s]. *)
Definition reports (k s : string) (i : Input) : Prop :=
  keyOf (fst i) = Some k /\ snd i = s.

End WithUrl.

End AggregationMore.

(* ================================================================== *)
(** * BrowserPool.ts: readings of the pool                             *)
(* ================================================================== *)

Module BrowserPoolMore.
Import BrowserPool.

(** The browsers of the pool, in pool order. *)
Definition ids (w : World) : list Browser := map browser (pool w).

(** Some entry of the pool holds [b] and is marked in use. *)
Definition busyIn (p : list PooledBrowser) (b : Browser) : bool :=
  existsb (fun pb => Nat.eqb (browser pb) b && inUse pb) p.

Definition busy (w : World) (b : Browser) : bool := busyIn (pool w) b.

(** Every launch creates a new browser object: the browsers of the pool
    are pairwise distinct, they and the browsers still being launched
    come from launches already made, a browser being launched is not in
    the pool yet, and no two callers await the same launch. *)
Definition wf (w : World) : Prop :=
  NoDup (ids w) /\
  (forall b, In b (ids w) -> (b < launches w)%nat) /\
  (forall i b, callers w i = Launching b ->
               (b < launches w)%nat /\ ~ In b (ids w)) /\
  (forall i j b, callers w i = Launching b -> callers w j = Launching b ->
                 i = j).

(** A pool of capacity 1 whose only browser is held by caller 0. *)
Definition heldPool : World :=
  run (create 1 60000) [Call 0 0; Launched 0 900].

End BrowserPoolMore.

(* ================================================================== *)
(** * PageRenderer.ts: browsers held by the render loop, and the
      Markdown conversion                                              *)
(* ================================================================== *)

Module PageRendererMore.
Import Js PageRenderer.

(** The discipline of a trace: [held] tells that a browser has been
    obtained ([pool.acquire()], [chromium.launch()]) and not given back
    yet.  A browser is obtained only when none is held, released only
    when one is held, and none is held when an attempt starts, during a
    back-off delay, or at the end. *)
Fixpoint leakFree (held : bool) (tr : list Event) : bool :=
  match tr with
  | [] => negb held
  | EvAcquire :: r => negb held && leakFree true r
  | EvLaunch :: r => negb held && leakFree true r
  | EvRelease :: r => held && leakFree false r
  | EvClose :: r => leakFree false r
  | EvAttempt _ :: r => negb held && leakFree false r
  | EvDelay _ :: r => negb held && leakFree false r
  end.

(** The events a call may show: those of the pool when it uses the
    pool, those of a browser of its own otherwise. *)
Definition allowed (usePool : bool) (ev : Event) : bool :=
  match ev with
  | EvAcquire | EvRelease => usePool
  | EvLaunch | EvClose => negb usePool
  | EvAttempt _ | EvDelay _ => true
  end.



(** A page whose pooled browser fails on every attempt. *)
Definition failing : Z -> Attempt := fun _ =>
  {| acquire := None; launch := None; close := None;
     page := inl (ErrorObj "net::ERR_NAME_NOT_RESOLVED") |}.

End PageRendererMore.

(* ================================================================== *)
(** * index.ts: the text of the tool answers                           *)
(* ================================================================== *)

Module Enriched.
(** [{ ...result, markdown }] *)
Record t : Type := {
  title : string;
  url : string;
  snippet : string;
  sources : list string;
  markdown : string
}.
End Enriched.

Module IndexMore.
Import Js JsExtra Index.

Definition NL : string := String LF "".

Definition ENGINES_COUNT : Z := 7.

Definition getConfidenceLevel (sourceCount : Z) : string :=
  if 3 <=? sourceCount then "High"
  else if 2 <=? sourceCount then "Medium"
  else "Low".

Record SearchMetadata : Type := {
  query : string;
  region : string;
  enginesSucceeded : Z;
  timestamp : string
}.

(** The comparator [(a, b) => b.sources.length - a.sources.length]. *)
Definition bySources (a b : AggregatedResult.t) : Z :=
  len (AggregatedResult.sources b) - len (AggregatedResult.sources a).

(** [[...results].sort(...)] *)
Definition sortedResults (results : list AggregatedResult.t)
  : list AggregatedResult.t :=
  sort bySources results.

(** [sorted.filter((r) => r.sources.length >= 3)] *)
Definition highConfidence (sorted : list AggregatedResult.t)
  : list AggregatedResult.t :=
  filter (fun r => 3 <=? len (AggregatedResult.sources r)) sorted.

(** [l.entries()], counted from [index]. *)
Fixpoint entries {A : Type} (index : Z) (l : list A) : list (Z * A) :=
  match l with
  | [] => []
  | x :: rest => (index, x) :: entries (index + 1) rest
  end.

(** The lines pushed by one pass of the loop over [sorted.entries()]. *)
Definition resultLines (entry : Z * AggregatedResult.t) : list string :=
  let (index, item) := entry in
  let count := len (AggregatedResult.sources item) in
  let confidence := getConfidenceLevel count in
  let sourceList := join ", " (AggregatedResult.sources item) in
  let heading :=
    "## Result " ++ showInt (index + 1) ++ " (" ++ confidence
      ++ " Confidence)" in
  let titleLine := "**Title:** " ++ AggregatedResult.title item in
  let urlLine := "**URL:** " ++ AggregatedResult.url item in
  let sourcesLine :=
    "**Sources:** " ++ sourceList ++ " (" ++ showInt count ++ " engine"
      ++ (if 1 <? count then "s" else "") ++ ")" in
  let snippetLine := "**Snippet:** " ++ AggregatedResult.snippet item in
  ([heading; titleLine; urlLine; sourcesLine]
   ++ (if truthy (AggregatedResult.snippet item) then [snippetLine] else [])
   ++ [""; "---"; ""])%list.

Definition metadataLines (count : Z) (metadata : SearchMetadata)
  : list string :=
  ["<search-metadata>";
   "Query: " ++ DQ ++ query metadata ++ DQ;
   "Region: " ++ region metadata;
   "Results: " ++ showInt count ++ " found";
   "Engines: " ++ showInt (enginesSucceeded metadata) ++ "/"
     ++ showInt ENGINES_COUNT ++ " succeeded";
   "Timestamp: " ++ timestamp metadata;
   "</search-metadata>";
   ""].

Definition guidanceLines (sorted : list AggregatedResult.t) : list string :=
  let highConfidence := highConfidence sorted in
  let highLine :=
    "- High confidence results: #"
      ++ join ", #" (map (fun e => showInt (fst e + 1))
                         (entries 0 highConfidence)) in
  let fetchLine :=
    "- Use " ++ DQ ++ "fetch" ++ DQ ++ " tool on URLs for full page content" in
  ([""; "<search-guidance>";
    "- Results sorted by confidence (engine agreement)"]
   ++ (if 0 <? len highConfidence then [highLine] else [])
   ++ [fetchLine; "</search-guidance>"])%list.

Definition renderSearchOutput (results : list AggregatedResult.t)
    (metadata : SearchMetadata) : string :=
  let lines := metadataLines (len results) metadata in
  if negb (0 <? len results) then
    join NL (lines ++ ["<search-results>"; "No results found.";
                       "</search-results>"])%list
  else
    let sorted := sortedResults results in
    join NL (lines ++ ["<search-results>"; ""]
               ++ flat_map resultLines (entries 0 sorted)
               ++ ["</search-results>"]
               ++ guidanceLines sorted)%list.

Record FetchMetadata : Type := {
  fetchedAt : string;
  contentLength : Z;
  truncated : bool
}.

Definition renderFetchOutput (url title markdown : string)
    (metadata : FetchMetadata) : string :=
  join NL
    ["<page-metadata>";
     "URL: " ++ url;
     "Title: " ++ title;
     "Fetched: " ++ fetchedAt metadata;
     "Content: " ++ showInt (contentLength metadata) ++ " characters"
       ++ (if truncated metadata then " (truncated)" else "");
     "</page-metadata>";
     "";
     "<page-content>";
     "";
     markdown;
     "";
     "</page-content>"].

(** [context] holds the entries of the object in insertion order. *)
Definition renderErrorOutput (toolName error : string)
    (context : list (string * string)) : string :=
  let toolLine := "Tool: " ++ toolName in
  let errorLine := "Error: " ++ error in
  let contextLine := fun kv : string * string => fst kv ++ ": " ++ snd kv in
  join NL
    (["<error>"; toolLine; errorLine]
     ++ map contextLine context
     ++ ["</error>"; "";
         "<error-guidance>";
         "- Check if the query/URL is valid";
         "- Network issues may be temporary - retry may help";
         "- Try alternative search terms or different URL";
         "</error-guidance>"])%list.

(** [markdown.includes('... (truncated)')] *)
Definition isTruncated (markdown : string) : bool :=
  includes "... (truncated)" markdown.

(** What a tool handler returns. *)
Record ToolResult (A : Type) : Type := {
  isError : bool;
  structuredContent : option A;
  content : list string
}.
Arguments isError {A} _.
Arguments structuredContent {A} _.
Arguments content {A} _.

(** [engineErrors.map((e) => `- ${e}`).join('\n')] inside its tag. *)
Definition errorBlock (tag : string) (errors : list string) : string :=
  "<" ++ tag ++ ">" ++ NL ++ join NL (map (fun e => "- " ++ e) errors)
      ++ NL ++ "</" ++ tag ++ ">".

(** [...(errors.length ? { errors } : {})] *)
Definition whenAny (errors : list string) : option (list string) :=
  if 0 <? len errors then Some errors else None.

(** [region?.trim() || 'en-US'] *)
Definition regionCodeOf (region : option string) : string :=
  match region with
  | Some r => if truthy (trim r) then trim r else "en-US"
  | None => "en-US"
  end.

(** [region || 'en-US'] *)
Definition regionOrDefault (region : option string) : string :=
  match region with
  | Some r => if truthy r then r else "en-US"
  | None => "en-US"
  end.

(** ** The [fetch] tool *)

(** The metadata shown with a page: its length and whether it is
    reported as truncated. *)
Definition fetchMetadata (shown now : string) : FetchMetadata :=
  {| fetchedAt := now;
     contentLength := strlen shown;
     truncated := isTruncated shown |}.

Record FetchResponse : Type := { fetchedUrl : string; fetchedMarkdown : string }.

(** The handler of [fetch]; [rendered] is how
    [renderPageToMarkdown(url)] completes and [now] the time stamp. *)
Definition fetchTool (rendered : Completion PageRenderer.PageRenderResult)
    (url now : string) : ToolResult FetchResponse :=
  match rendered with
  | Return page =>
      let truncatedMarkdown :=
        truncateMarkdown (PageRenderer.markdown page) DEFAULT_LIMIT in
      let output :=
        renderFetchOutput url url truncatedMarkdown
          (fetchMetadata truncatedMarkdown now) in
      {| isError := false;
         structuredContent :=
           Some {| fetchedUrl := url; fetchedMarkdown := truncatedMarkdown |};
         content := [output] |}
  | Throw error =>
      {| isError := true;
         structuredContent := None;
         content := [renderErrorOutput "fetch" (messageOf error)
                       [("url", url)]] |}
  end.

(** ** The [search] tool *)

Record SearchResponse : Type := {
  foundResults : list AggregatedResult.t;
  foundErrors : option (list string)
}.

(** The [metadata] object of the [search] and [search_fetch] handlers. *)
Definition searchMetadata (query regionCode : string)
    (engineErrors : list string) (now : string) : SearchMetadata :=
  {| query := query;
     region := regionCode;
     enginesSucceeded := ENGINES_COUNT - len engineErrors;
     timestamp := now |}.

Section WithUrl.
Context {api : UrlApi}.

Definition searchTool (ad : SearchAggregator.Adapters) (query : string)
    (region : option string) (now : string) : ToolResult SearchResponse :=
  let regionCode := regionCodeOf region in
  match SearchAggregator.searchAllEngines ad query (Some regionCode) with
  | Return found =>
      let results := SearchAggregator.results found in
      let engineErrors := SearchAggregator.engineErrors found in
      let metadata := searchMetadata query regionCode engineErrors now in
      let output := renderSearchOutput results metadata in
      {| isError := false;
         structuredContent :=
           Some {| foundResults := results;
                   foundErrors := whenAny engineErrors |};
         content :=
           ([output]
            ++ (if 0 <? len engineErrors
                then [errorBlock "engine-errors" engineErrors] else []))%list |}
  | Throw error =>
      {| isError := true;
         structuredContent := None;
         content := [renderErrorOutput "search" (messageOf error)
                       [("query", query);
                        ("region", regionOrDefault region)]] |}
  end.

End WithUrl.

(** ** [collectRenderedResults] *)

Record Collected : Type := {
  results : list AggregatedResult.t;
  enriched : list Enriched.t;
  engineErrors : list string;
  fetchErrors : list string
}.

(** [{ ...result, markdown: '' }] *)
Definition enrich (result : AggregatedResult.t) : Enriched.t :=
  {| Enriched.title := AggregatedResult.title result;
     Enriched.url := AggregatedResult.url result;
     Enriched.snippet := AggregatedResult.snippet result;
     Enriched.sources := AggregatedResult.sources result;
     Enriched.markdown := "" |}.

(** [item.markdown = value] *)
Definition setMarkdown (item : Enriched.t) (value : string) : Enriched.t :=
  {| Enriched.title := Enriched.title item;
     Enriched.url := Enriched.url item;
     Enriched.snippet := Enriched.snippet item;
     Enriched.sources := Enriched.sources item;
     Enriched.markdown := value |}.

(** The fields an enriched record shares with its result. *)
Definition plain (item : Enriched.t) : AggregatedResult.t :=
  {| AggregatedResult.title := Enriched.title item;
     AggregatedResult.url := Enriched.url item;
     AggregatedResult.snippet := Enriched.snippet item;
     AggregatedResult.sources := Enriched.sources item |}.

(** The renderer as the loop sees it: how the call of
    [renderPageToMarkdown] made for the item at a position completes. *)
Definition Renderer : Type :=
  Z -> string -> Completion PageRenderer.PageRenderResult.

(** One pass of the loop over [enriched.slice(0, fetchLimit)].  The
    items of the slice are the objects of [enriched], so the assignment
    to [item.markdown] is seen in [enriched]: [done] collects the items
    as they are after their pass. *)
Definition renderItem (render : Renderer)
    (state : list Enriched.t * list string) (entry : Z * Enriched.t)
  : list Enriched.t * list string :=
  let (done, fetchErrors) := state in
  let (position, item) := entry in
  match render position (Enriched.url item) with
  | Return page =>
      ((done ++ [setMarkdown item
                   (truncateMarkdown (PageRenderer.markdown page)
                                     DEFAULT_LIMIT)])%list,
       fetchErrors)
  | Throw error =>
      let line := Enriched.url item ++ ": " ++ messageOf error in
      ((done ++ [item])%list, (fetchErrors ++ [line])%list)
  end.

Definition collectRenderedResults
    (search : Completion SearchAggregator.AggregatedSearch)
    (render : Renderer) (fetchLimit : Z) : Completion Collected :=
  found <- search ;;
  let results := SearchAggregator.results found in
  let engineErrors := SearchAggregator.engineErrors found in
  if negb (0 <? len results) then
    Return {| results := results; enriched := [];
              engineErrors := engineErrors; fetchErrors := [] |}
  else
    let enriched := map enrich results in
    let slice := sliceTo enriched fetchLimit in
    let (done, fetchErrors) :=
      fold_left (renderItem render) (entries 0 slice) ([], []) in
    Return {| results := results;
              enriched := (done ++ skipn (List.length slice) enriched)%list;
              engineErrors := engineErrors;
              fetchErrors := fetchErrors |}.

(** [Math.min(Math.max(maxFetch ?? 10, 1), 100)] *)
Definition fetchLimitOf (maxFetch : option Z) : Z :=
  Z.min (Z.max (match maxFetch with Some n => n | None => 10 end) 1) 100.

(** What the loop leaves in [markdown] for the item at [position]. *)
Definition markdownAt (render : Renderer) (fetchLimit position : Z)
    (url : string) : string :=
  if position <? fetchLimit then
    match render position url with
    | Return page =>
        truncateMarkdown (PageRenderer.markdown page) DEFAULT_LIMIT
    | Throw _ => ""
    end
  else "".

(** The error line of the item at [position], if its rendering failed. *)
Definition fetchErrorAt (render : Renderer) (fetchLimit : Z)
    (entry : Z * AggregatedResult.t) : list string :=
  if fst entry <? fetchLimit then
    match render (fst entry) (AggregatedResult.url (snd entry)) with
    | Return _ => []
    | Throw error =>
        [AggregatedResult.url (snd entry) ++ ": " ++ messageOf error]
    end
  else [].

(** A renderer whose pages all time out. *)
Definition pagesDown : Renderer :=
  fun _ _ => Throw (ErrorObj "Navigation timeout").

End IndexMore.

(* ================================================================== *)
(** * PdfParser.ts: extraction, formatting and download                *)
(* ================================================================== *)

Module PdfParserMore.
Import Js JsExtra PdfParser.

Definition NL : string := String LF "".

(** The fields of [info] that are read; a missing field is the empty
    string, which is as falsy as [undefined]. *)
Record Info : Type := { Title : string; Author : string }.

(** What the [try ... finally] of [extractEmbeddedText] reads from
    pdf-parse: [textResult.text], [infoResult.total] and
    [infoResult.info]. *)
Record Parsed : Type := { text : string; total : Z; info : Info }.

Record Embedded : Type := {
  embeddedText : string;
  embeddedPages : Z;
  embeddedInfo : Info
}.

(** [extractEmbeddedText]; [parsed] is how the calls of pdf-parse and
    the final [parser.destroy()] complete; [infoResult.total || 0] is
    [total]. *)
Definition extractEmbeddedText (parsed : Completion Parsed)
  : Completion Embedded :=
  p <- parsed ;;
  Return {| embeddedText := trim (text p);
            embeddedPages := total p;
            embeddedInfo := info p |}.

Record ExtractionResult : Type := {
  textContent : string;
  ocrContent : string;
  mergedContent : string;
  hasEmbeddedText : bool;
  pageCount : Z;
  resultInfo : Info
}.

Definition PAGE_BREAK : string := NL2 ++ "--- Page Break ---" ++ NL2.

(** The [try] block of step 2: [recognized] is how the conversion of the
    pages to images and their recognition complete (the raw text of
    each page); [ocrImage] trims each text, and an empty one is not
    kept.  When anything in the block throws, [ocrContent] keeps its
    initial value. *)
Definition ocrOf (recognized : Completion (list string)) : string :=
  match recognized with
  | Return pages => join PAGE_BREAK (filter truthy (map trim pages))
  | Throw _ => ""
  end.

Definition extractPdfContent (parsed : Completion Parsed)
    (recognized : Completion (list string)) : Completion ExtractionResult :=
  embedded <- extractEmbeddedText parsed ;;
  let textContent := embeddedText embedded in
  let hasEmbeddedText := 100 <? strlen textContent in
  let ocrContent := ocrOf recognized in
  let mergedContent := mergeExtractions textContent ocrContent in
  Return {| textContent := textContent;
            ocrContent := ocrContent;
            mergedContent := mergedContent;
            hasEmbeddedText := hasEmbeddedText;
            pageCount := embeddedPages embedded;
            resultInfo := embeddedInfo embedded |}.

Definition extractionMethod (result : ExtractionResult) : string :=
  if hasEmbeddedText result
  then (if truthy (ocrContent result) then "Text + OCR" else "Text only")
  else "OCR only".

(** [if (x) lines.push(line)] *)
Definition pushIf (condition : bool) (line : string) : list string :=
  if condition then [line] else [].

Definition formatPdfToMarkdown (result : ExtractionResult)
    (sourceUrl : option string) : string :=
  let titleLine := "Title: " ++ Title (resultInfo result) in
  let sourceLine :=
    "Source: " ++ match sourceUrl with Some u => u | None => "" end in
  let authorLine := "Author: " ++ Author (resultInfo result) in
  let pagesLine := "Pages: " ++ showInt (pageCount result) in
  let methodLine := "Extraction: " ++ extractionMethod result in
  join NL
    (["<pdf-metadata>"]
     ++ pushIf (truthy (Title (resultInfo result))) titleLine
     ++ pushIf (match sourceUrl with Some u => truthy u | None => false end)
               sourceLine
     ++ pushIf (truthy (Author (resultInfo result))) authorLine
     ++ pushIf (negb (pageCount result =? 0)) pagesLine
     ++ [methodLine; "</pdf-metadata>"; "";
         "<pdf-content>"; ""; mergedContent result; ""; "</pdf-content>"])%list.

(** The part of the [fetch] response that is read;
    [contentType] is [response.headers.get('content-type')]. *)
Record Response : Type := {
  ok : bool;
  status : Z;
  statusText : string;
  contentType : option string
}.

Definition PARSING_FAILED : string := "PDF parsing failed: ".

(** [parsePdfFromUrl(url)]; [fetched] is how [fetch(url, ...)] completes,
    [body] how [response.arrayBuffer()] does. *)
Definition parsePdfFromUrl (fetched : Completion Response)
    (body : Completion unit) (parsed : Completion Parsed)
    (recognized : Completion (list string)) (url : string)
  : Completion string :=
  tryCatch
    (response <- fetched ;;
     if negb (ok response) then
       Throw (ErrorObj ("Failed to fetch PDF: " ++ showInt (status response)
                          ++ " " ++ statusText response))
     else
       let declared :=
         match contentType response with Some ct => ct | None => "" end in
       if truthy declared && negb (includes "pdf" declared) then
         Throw (ErrorObj ("URL does not return a PDF (Content-Type: "
                            ++ declared ++ ")"))
       else
         _ <- body ;;
         result <- extractPdfContent parsed recognized ;;
         Return (formatPdfToMarkdown result (Some url)))
    (fun error => Throw (ErrorObj (PARSING_FAILED ++ messageOf error))).

(** The response is one that [parsePdfFromUrl] goes on with. *)
Definition acceptable (response : Response) : bool :=
  ok response
  && match contentType response with
     | Some ct => negb (truthy ct) || includes "pdf" ct
     | None => true
     end.

(** The PDF branch of [renderPageToMarkdown] fed by [parsePdfFromUrl]. *)
Definition pdfEnv (download : Completion string) : PageRenderer.Env :=
  {| PageRenderer.isPdf := true;
     PageRenderer.parsePdf :=
       match download with Return md => inr md | Throw e => inl e end;
     PageRenderer.script := PageRendererMore.failing |}.

(** A scanned one-page document: no text layer, one recognized page. *)
Definition scanned : Parsed :=
  {| text := "  "; total := 1; info := {| Title := ""; Author := "" |} |}.

Definition notFound : Response :=
  {| ok := false; status := 404; statusText := "Not Found";
     contentType := Some "text/html" |}.

End PdfParserMore.

(* ================================================================== *)
(** * EngineUtils.ts: the cookie header                                *)
(* ================================================================== *)

Module Cookies.
Import Js JsExtra.

(** [s.split(c)[0]] for a one-character separator: the part of [s]
    before its first [c]. *)
Fixpoint firstPiece (c : ascii) (s : string) : string :=
  match s with
  | EmptyString => EmptyString
  | String d r =>
      if Ascii.eqb d c then EmptyString else String d (firstPiece c r)
  end.

(** [s.indexOf(c)] for a one-character pattern. *)
Fixpoint indexOfChar (c : ascii) (s : string) : Z :=
  match s with
  | EmptyString => -1
  | String d r =>
      if Ascii.eqb d c then 0
      else let i := indexOfChar c r in if i =? -1 then -1 else i + 1
  end.

Definition parseCookiePair (cookie : string) : option (string * string) :=
  let nameValue := firstPiece ";" cookie in
  if negb (truthy nameValue) then None
  else
    let eqIndex := indexOfChar "=" nameValue in
    if eqIndex =? -1 then None
    else
      let name := trim (slice nameValue 0 eqIndex) in
      let value := trim (slice nameValue (eqIndex + 1) (strlen nameValue)) in
      if negb (truthy name) then None else Some (name, value).

(** [Map<string, string>], the entries in insertion order. *)
Definition Jar : Type := list (string * string).

(** [jar.set(name, value)]: a name already present keeps its place. *)
Fixpoint jarSet (jar : Jar) (name value : string) : Jar :=
  match jar with
  | [] => [(name, value)]
  | (n, v) :: rest =>
      if String.eqb n name then (n, value) :: rest
      else (n, v) :: jarSet rest name value
  end.

(** [jar.get(name)] *)
Fixpoint jarGet (jar : Jar) (name : string) : option string :=
  match jar with
  | [] => None
  | (n, v) :: rest => if String.eqb n name then Some v else jarGet rest name
  end.

(** The body of the inner loop. *)
Definition addCookie (jar : Jar) (cookie : string) : Jar :=
  match parseCookiePair cookie with
  | Some parsed => jarSet jar (fst parsed) (snd parsed)
  | None => jar
  end.

(** The body of the outer loop; [None] is an [undefined] list. *)
Definition addCookies (jar : Jar) (cookies : option (list string)) : Jar :=
  match cookies with
  | Some l => fold_left addCookie l jar
  | None => jar
  end.

Definition jarOf (cookieLists : list (option (list string))) : Jar :=
  fold_left addCookies cookieLists [].

Definition cookieLine (entry : string * string) : string :=
  fst entry ++ "=" ++ snd entry.

Definition buildCookieHeader (cookieLists : list (option (list string)))
  : option string :=
  let jar := jarOf cookieLists in
  if negb (0 <? len jar) then None
  else Some (join "; " (map cookieLine jar)).

(** ** Vocabulary of the statements *)

(** The pairs read from the cookies that parse, in the order of the
    arguments. *)
Definition pairsOf (cookieLists : list (option (list string)))
  : list (string * string) :=
  flat_map (fun cookies =>
              match cookies with
              | Some l =>
                  flat_map (fun cookie =>
                              match parseCookiePair cookie with
                              | Some parsed => [parsed]
                              | None => []
                              end) l
              | None => []
              end) cookieLists.

(** The value of the last pair named [name]. *)
Definition lastValue (pairs : list (string * string)) (name : string)
  : option string :=
  option_map snd (find (fun p => String.eqb (fst p) name) (rev pairs)).

(** [c] occurs in [s]. *)
Fixpoint hasChar (c : ascii) (s : string) : bool :=
  match s with
  | EmptyString => false
  | String d r => Ascii.eqb d c || hasChar c r
  end.

End Cookies.

(* ================================================================== *)
(** * engines/Startpage.ts, engines/DuckDuckGo.ts                      *)
(* ================================================================== *)

Module Startpage.
Import Js.

(** What the loop of [extractResults] reads of one [div.w-gl__result]:
    the [href] attribute and the text of its first
    [a.w-gl__result-title] ([None] when the attribute is missing), and
    the text of its first [p.w-gl__description]. *)
Record Element : Type := {
  href : option string;
  titleText : string;
  snippetText : string
}.

(** The callback given to [each]; the state is [results] and [seen]. *)
Definition visit (state : list SearchResult.t * list string)
    (element : Element) : list SearchResult.t * list string :=
  let (results, seen) := state in
  match href element with
  | None => state
  | Some href =>
      if negb (truthy href) || negb (startsWith "http" href) then state
      else if PdfParser.setHas seen href then state
      else
        let title := EngineUtils.normalizeWhitespace (titleText element) in
        if negb (truthy title) then state
        else
          let snippet :=
            EngineUtils.normalizeWhitespace (snippetText element) in
          ((results
              ++ [{| SearchResult.title := title; SearchResult.url := href;
                     SearchResult.snippet := snippet |}])%list,
           (seen ++ [href])%list)
  end.

Definition extractResults (elements : list Element) : list SearchResult.t :=
  fst (fold_left visit elements ([], [])).

(** The element yields a result when its link has not been seen. *)
Definition usable (element : Element) (link : string) : Prop :=
  href element = Some link /\ startsWith "http" link = true /\
  EngineUtils.normalizeWhitespace (titleText element) <> "".

End Startpage.

Module DuckDuckGo.
Import Js.

Definition maxAttempts : Z := 3.

(** The loop of [search] followed by its final [throw]; [perform] is how
    [performSearch] completes at each attempt, [remaining] is
    [maxAttempts - attempt].  The first component lists the delays. *)
Fixpoint searchLoop (perform : Z -> Completion (list SearchResult.t))
    (remaining : nat) (attempt : Z) (lastError : option Thrown)
  : list Z * Completion (list SearchResult.t) :=
  match remaining with
  | O =>
      ([], Throw match lastError with
                 | Some e => e
                 | None => ErrorObj "DuckDuckGo search failed"
                 end)
  | S k =>
      match perform attempt with
      | Return results => ([], Return results)
      | Throw error =>
          (* error instanceof Error ? error : new Error(String(error)) *)
          let lastError := ErrorObj (messageOf error) in
          let backoff :=
            if attempt <? maxAttempts - 1 then [(attempt + 1) * 250] else [] in
          let (delays, out) :=
            searchLoop perform k (attempt + 1) (Some lastError) in
          ((backoff ++ delays)%list, out)
      end
  end.

Definition search (perform : Z -> Completion (list SearchResult.t))
  : list Z * Completion (list SearchResult.t) :=
  searchLoop perform (Z.to_nat maxAttempts) 0 None.

(** [s.replace(c, d)] for one-character strings: the first [c] only. *)
Fixpoint replaceFirst (c d : ascii) (s : string) : string :=
  match s with
  | EmptyString => EmptyString
  | String x r =>
      if Ascii.eqb x c then String d r else String x (replaceFirst c d r)
  end.

(** [toDuckDuckGoLocale(region)]; a missing piece of the destructured
    array is [undefined], as falsy as the empty string. *)
Definition toDuckDuckGoLocale (region : option string) : option string :=
  match region with
  | None => None
  | Some region =>
      if negb (truthy region) then None
      else
        let normalized := replaceFirst "_" "-" region in
        let pieces := Whatwg.splitOn "-" normalized in
        let language := nth 0 pieces "" in
        let country := nth 1 pieces "" in
        if negb (truthy language) || negb (truthy country) then None
        else Some (toLowerCase country ++ "-" ++ toLowerCase language)
  end.

(** [this.toDuckDuckGoLocale(region) ?? 'wt-wt'] *)
Definition market (region : option string) : string :=
  match toDuckDuckGoLocale region with
  | Some locale => locale
  | None => "wt-wt"
  end.

(** A search that fails twice, throwing a value that is not an Error,
    and then answers. *)
Definition blockedTwice (attempt : Z) : Completion (list SearchResult.t) :=
  if attempt <? 2
  then Throw (NonError "DuckDuckGo HTML endpoint responded with a challenge")
  else Return [].

End DuckDuckGo.

(* ================================================================== *)
(** * EngineUtils.ts: the redirect links of Yahoo and AOL              *)
(* ================================================================== *)

Module Redirects.
Import Js JsExtra.

(** [s.indexOf(pattern)] *)
Fixpoint indexOf (pattern s : string) : Z :=
  if String.prefix pattern s then 0
  else match s with
       | EmptyString => -1
       | String _ r =>
           let i := indexOf pattern r in if i =? -1 then -1 else i + 1
       end.

Definition ruMarker : string := "/RU=".

(** [decodeYahooRedirectUrl(url)]; [decodeURIComponent] belongs to the
    platform: it returns the decoded text or throws a [URIError]. *)
Definition decodeYahooRedirectUrl
    (decodeURIComponent : string -> Completion string) (url : string)
  : string :=
  if negb (truthy url) then url
  else
    let ruIndex := indexOf ruMarker url in
    if ruIndex =? -1 then url
    else
      let after := slice url (ruIndex + strlen ruMarker) (strlen url) in
      let endIndex := indexOf "/R" after in
      let encoded :=
        if endIndex =? -1 then after else slice after 0 endIndex in
      match decodeURIComponent encoded with
      | Return decoded => decoded
      | Throw _ => encoded
      end.

(** A decoder that knows one encoded link. *)
Definition sampleDecoder (encoded : string) : Completion string :=
  if String.eqb encoded "https%3a%2f%2fexample.com%2fguide"
  then Return "https://example.com/guide"
  else Throw (ErrorObj "URI malformed").

End Redirects.

(* ================================================================== *)
(** * index.ts: the [search_fetch] tool                                *)
(* ================================================================== *)

Module SearchFetch.
Import Js JsExtra Index IndexMore.

Record SearchFetchResponse : Type := {
  shownResults : list Enriched.t;
  shownEngineErrors : option (list string);
  shownFetchErrors : option (list string)
}.

Definition NOTICE : string :=
  "<search-notice>No page content was captured.</search-notice>".

(** One pass of the loop over [enriched.slice(0, fetchLimit)] of the
    handler; [clock] is the time read in the pass at each position. *)
Definition pageOutput (clock : Z -> string) (entry : Z * Enriched.t)
  : list string :=
  let (position, item) := entry in
  if negb (truthy (Enriched.markdown item)) then []
  else [renderFetchOutput (Enriched.url item) (Enriched.title item)
          (Enriched.markdown item)
          (fetchMetadata (Enriched.markdown item) (clock position))].

Definition pageOutputs (clock : Z -> string) (enriched : list Enriched.t)
    (fetchLimit : Z) : list string :=
  flat_map (pageOutput clock) (entries 0 (sliceTo enriched fetchLimit)).

Section WithUrl.
Context {api : UrlApi}.

(** The handler of [search_fetch]. *)
Definition searchFetchTool (ad : SearchAggregator.Adapters)
    (render : Renderer) (query : string) (region : option string)
    (maxFetch : option Z) (now : string) (clock : Z -> string)
  : ToolResult SearchFetchResponse :=
  let regionCode := regionCodeOf region in
  let fetchLimit := fetchLimitOf maxFetch in
  match collectRenderedResults
          (SearchAggregator.searchAllEngines ad query (Some regionCode))
          render fetchLimit with
  | Return collected =>
      let metadata :=
        searchMetadata query regionCode (engineErrors collected) now in
      let content :=
        (renderSearchOutput (results collected) metadata
           :: pageOutputs clock (enriched collected) fetchLimit)%list in
      let content :=
        if len content =? 1 then (content ++ [NOTICE])%list else content in
      let content :=
        if 0 <? len (engineErrors collected)
        then (content ++ [errorBlock "engine-errors" (engineErrors collected)])%list
        else content in
      let content :=
        if 0 <? len (fetchErrors collected)
        then (content ++ [errorBlock "fetch-errors" (fetchErrors collected)])%list
        else content in
      {| isError := false;
         structuredContent :=
           Some {| shownResults := enriched collected;
                   shownEngineErrors := whenAny (engineErrors collected);
                   shownFetchErrors := whenAny (fetchErrors collected) |};
         content := content |}
  | Throw error =>
      {| isError := true;
         structuredContent := None;
         content := [renderErrorOutput "search_fetch" (messageOf error)
                       [("query", query);
                        ("region", regionOrDefault region)]] |}
  end.

End WithUrl.

(** The positions, among the first [fetchLimit] results, of the pages
    whose rendering gave a non-empty Markdown. *)
Definition captured (render : Renderer) (fetchLimit : Z)
    (results : list AggregatedResult.t) : list (Z * AggregatedResult.t) :=
  filter (fun e => truthy (markdownAt render fetchLimit (fst e)
                             (AggregatedResult.url (snd e))))
         (entries 0 results).

(** The text shown for a captured page. *)
Definition pageOf (render : Renderer) (fetchLimit : Z) (clock : Z -> string)
    (entry : Z * AggregatedResult.t) : string :=
  let markdown :=
    markdownAt render fetchLimit (fst entry)
               (AggregatedResult.url (snd entry)) in
  renderFetchOutput (AggregatedResult.url (snd entry))
    (AggregatedResult.title (snd entry)) markdown
    (fetchMetadata markdown (clock (fst entry))).

(** A renderer whose pages are all empty. *)
Definition emptyPages : Renderer :=
  fun _ _ => Return {| PageRenderer.html := "<html></html>";
                       PageRenderer.markdown := "" |}.

End SearchFetch.

(* ================================================================== *)
(** * Vocabulary for the statements about fragments                    *)
(* ================================================================== *)

Module CanonicalMore.



End CanonicalMore.

(* ================================================================== *)
(** * The model on sample inputs                                       *)
(* ================================================================== *)

Section Examples.
Import Js Samples.

Example split_on_blank_lines :
  splitBlankLines
    ("first" ++ PdfParser.NL2 ++ String LF ("second" ++ String LF "line"))
  = ["first"; "second" ++ String LF "line"].
Proof. reflexivity. Qed.

Example split_on_spaces : splitSpaceCount " two  words " = 4.
Proof. reflexivity. Qed.

Example normalize_paragraph :
  PdfParser.normalizeForComparison "Figure 2: Results (n = 40)"
  = "figure2resultsn40".
Proof. reflexivity. Qed.

Example merge_twice_the_words :
  strlen structured600 = 600 /\ strlen recognized100 = 300 /\
  splitSpaceCount structured600 = 50 /\ splitSpaceCount recognized100 = 100 /\
  PdfParser.mergeExtractions structured600 recognized100
  = structured600 ++ PdfParser.ADDITIONAL_HEADER ++ recognized100.
Proof. repeat split; vm_compute; reflexivity. Qed.

Example merge_some_more_words :
  splitSpaceCount recognized60 = 60 /\
  PdfParser.mergeExtractions structured600 recognized60 = structured600.
Proof. split; vm_compute; reflexivity. Qed.

Example render_third_attempt :
  PageRenderer.renderPageToMarkdown (PageRenderer.flakyEnv 2)
    "https://example.com/" true
  = ([PageRenderer.EvAttempt 0; PageRenderer.EvAcquire; PageRenderer.EvRelease;
      PageRenderer.EvDelay 250;
      PageRenderer.EvAttempt 1; PageRenderer.EvAcquire; PageRenderer.EvRelease;
      PageRenderer.EvDelay 500;
      PageRenderer.EvAttempt 2; PageRenderer.EvAcquire; PageRenderer.EvRelease],
     Return {| PageRenderer.html := "<p>ok</p>";
               PageRenderer.markdown := "ok" |}).
Proof. reflexivity. Qed.

Example pool_reuses_released_browser :
  let w := BrowserPool.run (BrowserPool.create 3 60000)
             [BrowserPool.Call 0 0; BrowserPool.Launched 0 800;
              BrowserPool.Release 0%nat 2000; BrowserPool.Call 1 2500] in
  BrowserPool.launches w = 1%nat /\
  BrowserPool.callers w 1%nat = BrowserPool.Resolved 0%nat /\
  BrowserPool.pool w
  = [{| BrowserPool.browser := 0%nat; BrowserPool.inUse := true;
        BrowserPool.lastUsed := 2500 |}].
Proof. repeat split. Qed.

Example pool_full_caller_waits :
  let w := BrowserPool.run (BrowserPool.create 1 60000)
             [BrowserPool.Call 0 0; BrowserPool.Launched 0 800;
              BrowserPool.Call 1 900; BrowserPool.Tick 1 1000] in
  let w' := BrowserPool.run w
              [BrowserPool.Release 0%nat 1050; BrowserPool.Tick 1 1100] in
  BrowserPool.callers w 1%nat = BrowserPool.Polling /\
  BrowserPool.callers w' 1%nat = BrowserPool.Resolved 0%nat /\
  BrowserPool.size w' = 1.
Proof. repeat split. Qed.

Example sanitize_samples :
  let sanitizeUrl := SearchAggregator.sanitizeUrl (api := Whatwg.api) in
  sanitizeUrl "https://example.com/a/../b/./c/#top"
  = Some {| SearchAggregator.key := "https://example.com/b/c";
            SearchAggregator.href := "https://example.com/b/c" |} /\
  sanitizeUrl " //cdn.example.com/Lib.js "
  = Some {| SearchAggregator.key := "https://cdn.example.com/lib.js";
            SearchAggregator.href := "https://cdn.example.com/Lib.js" |} /\
  sanitizeUrl "https://example.com"
  = Some {| SearchAggregator.key := "https://example.com/";
            SearchAggregator.href := "https://example.com/" |} /\
  sanitizeUrl "https://example.com:443/x y?q=A b"
  = Some {| SearchAggregator.key := "https://example.com/x%20y?q=a%20b";
            SearchAggregator.href := "https://example.com/x%20y?q=A%20b" |} /\
  sanitizeUrl "example.com/page" = None /\
  sanitizeUrl "mailto:someone@example.com" = None /\
  sanitizeUrl "https://exa mple.com/" = None.
Proof. repeat split. Qed.

Example search_sample :
  SearchAggregator.searchAllEngines (api := Whatwg.api) adapters
    "guide" (Some "en-US")
  = Return
      {| SearchAggregator.results :=
           [ {| AggregatedResult.title := "The Guide";
                AggregatedResult.url := "https://example.com/Guide";
                AggregatedResult.snippet := "from brave";
                AggregatedResult.sources := ["Brave"; "Bing"; "Startpage"] |};
             {| AggregatedResult.title := "Other";
                AggregatedResult.url := "https://example.com/other";
                AggregatedResult.snippet := "o";
                AggregatedResult.sources := ["Bing"] |} ];
         SearchAggregator.engineErrors :=
           ["AOL: HTTP 429"; "Yahoo: timeout"] |}.
Proof. reflexivity. Qed.

Example search_all_down :
  SearchAggregator.searchAllEngines (api := Whatwg.api) allDown "guide" None
  = Return
      {| SearchAggregator.results := [];
         SearchAggregator.engineErrors :=
           ["AOL: down"; "Brave: down"; "Bing: down"; "DuckDuckGo: down";
            "Yahoo: down"; "Startpage: down"; "Yandex: down"] |}.
Proof. reflexivity. Qed.

End Examples.
(* ================================================================== *)
(** * Facts about the string primitives                                *)
(* ================================================================== *)

Section JsFacts.
Import Js.


Lemma strlen_nonneg (s : string) : 0 <= strlen s.
Proof. unfold strlen; lia. Qed.

Lemma strlen_append (s t : string) : strlen (s ++ t) = strlen s + strlen t.
Proof.
  unfold strlen.
  induction s as [|c s IH]; simpl String.length; [lia|].
  rewrite !Nat2Z.inj_succ. lia.
Qed.

Lemma length_substring0 (n : nat) (s : string) :
  (n <= String.length s)%nat -> String.length (substring 0 n s) = n.
Proof.
  revert s; induction n as [|n IH]; intros s Hn.
  - destruct s; reflexivity.
  - destruct s as [|c s]; simpl in *; [lia|].
    f_equal. apply IH. lia.
Qed.

Lemma substring0_all (s : string) : substring 0 (String.length s) s = s.
Proof. induction s as [|c s IH]; simpl; [reflexivity | now rewrite IH]. Qed.

Lemma substring0_append (n : nat) (s : string) :
  (n <= String.length s)%nat ->
  exists rest, s = substring 0 n s ++ rest /\
               String.length rest = (String.length s - n)%nat.
Proof.
  revert s; induction n as [|n IH]; intros s Hn.
  - exists s. destruct s; simpl; split; auto.
  - destruct s as [|c s]; simpl in *; [lia|].
    destruct (IH s) as [rest [E L]]; [lia|].
    exists rest. split; [now rewrite <- E | exact L].
Qed.

Lemma isEmpty_true (s : string) : isEmpty s = true <-> s = "".
Proof. destruct s; simpl; split; congruence. Qed.

Lemma truthy_true (s : string) : truthy s = true <-> s <> "".
Proof. unfold truthy; destruct s; simpl; intuition congruence. Qed.




Lemma append_empty_r (s : string) : s ++ "" = s.
Proof. induction s as [|c s IH]; simpl; [reflexivity | now rewrite IH]. Qed.

Lemma append_assoc (s t u : string) : (s ++ t) ++ u = s ++ t ++ u.
Proof. induction s as [|c s IH]; simpl; [reflexivity | now rewrite IH]. Qed.

Lemma append_eq_self (s t : string) : s ++ t = s -> t = "".
Proof.
  induction s as [|c s IH]; simpl; intros H; [exact H|].
  injection H as H. auto.
Qed.


(** *** Splitting on blank lines *)






End JsFacts.

(* ================================================================== *)
(** * index.ts: the output budget                                      *)
(* ================================================================== *)

Section TruncateMarkdown.
Import Js Index.

Lemma slice_prefix (s : string) (n : Z) :
  0 <= n <= strlen s ->
  exists rest, s = slice s 0 n ++ rest /\ strlen (slice s 0 n) = n.
Proof.
  intros Hn. unfold slice.
  assert (E0 : (0 <? 0) = false) by reflexivity. rewrite E0.
  destruct (n <? 0) eqn:En; [apply Z.ltb_lt in En; lia|].
  rewrite (Z.min_l 0) by apply strlen_nonneg.
  rewrite (Z.min_l n) by lia.
  rewrite Z.sub_0_r, Z.max_l by lia. simpl Z.to_nat at 1.
  assert (Hlen : (Z.to_nat n <= String.length s)%nat)
    by (unfold strlen in Hn; lia).
  destruct (substring0_append _ _ Hlen) as [rest [E _]].
  exists rest. split; [exact E|].
  unfold strlen. rewrite length_substring0 by exact Hlen. lia.
Qed.

Lemma truncateMarkdown_short (markdown : string) (limit : Z) :
  strlen markdown <= limit -> truncateMarkdown markdown limit = markdown.
Proof.
  intros H. unfold truncateMarkdown.
  now apply Z.leb_le in H; rewrite H.
Qed.

Lemma truncateMarkdown_long (markdown : string) (limit : Z) :
  0 <= limit < strlen markdown ->
  exists head rest,
    markdown = head ++ rest /\ strlen head = limit /\
    truncateMarkdown markdown limit = head ++ TRUNCATION_MARKER.
Proof.
  intros H. unfold truncateMarkdown.
  destruct (strlen markdown <=? limit) eqn:E; [apply Z.leb_le in E; lia|].
  destruct (slice_prefix markdown limit) as [rest [E1 E2]]; [lia|].
  exists (slice markdown 0 limit), rest. auto.
Qed.

(** C9. A markdown text of at most 40,000 characters is returned
    unchanged; a longer one is cut to exactly its first 40,000 characters,
    followed by the truncation marker. *)
Theorem truncateMarkdown_budget (markdown : string) :
  (strlen markdown <= 40000 ->
     truncateMarkdown markdown DEFAULT_LIMIT = markdown) /\
  (40000 < strlen markdown ->
     exists head rest,
       markdown = head ++ rest /\ strlen head = 40000 /\
       truncateMarkdown markdown DEFAULT_LIMIT = head ++ TRUNCATION_MARKER).
Proof.
  split; intros H.
  - now apply truncateMarkdown_short.
  - apply truncateMarkdown_long. unfold DEFAULT_LIMIT. lia.
Qed.

Lemma truncateMarkdown_budget_witness :
  truncateMarkdown "# short page" DEFAULT_LIMIT = "# short page" /\
  exists head rest,
    Js.repeat (Z.to_nat 40001) "x" = head ++ rest /\
    strlen head = 40000 /\
    truncateMarkdown (Js.repeat (Z.to_nat 40001) "x") DEFAULT_LIMIT
      = head ++ TRUNCATION_MARKER.
Proof.
  split.
  - apply (proj1 (truncateMarkdown_budget "# short page")).
    vm_compute. discriminate.
  - apply (proj2 (truncateMarkdown_budget
                    (Js.repeat (Z.to_nat 40001) "x"))).
    vm_compute. reflexivity.
Defined.

End TruncateMarkdown.

(* ================================================================== *)
(** * PdfParser.ts: deduplication and merge                            *)
(* ================================================================== *)

Section PdfMerge.
Import Js PdfParser.

Lemma setHas_In (seen : list string) (x : string) :
  setHas seen x = true <-> In x seen.
Proof.
  unfold setHas. rewrite existsb_exists. split.
  - intros [y [Hy E]]. apply String.eqb_eq in E. now subst.
  - intros H. exists x. split; [exact H | apply String.eqb_refl].
Qed.



Lemma deduplicateContent_cases (primary secondary : string) :
  (uniqueOcr primary secondary = [] ->
     deduplicateContent primary secondary = primary) /\
  (uniqueOcr primary secondary <> [] ->
     deduplicateContent primary secondary = withAdditional primary secondary).
Proof.
  unfold deduplicateContent, withAdditional.
  destruct (uniqueOcr primary secondary) as [|p ps]; simpl List.length.
  - split; [reflexivity | congruence].
  - split; [discriminate|]. intros _.
    now replace (0 <? Z.of_nat (S (List.length ps))) with true
      by (symmetry; apply Z.ltb_lt; lia).
Qed.

Lemma withAdditional_neq (primary secondary : string) :
  withAdditional primary secondary <> primary.
Proof.
  unfold withAdditional. intros H. apply append_eq_self in H.
  discriminate H.
Qed.




Lemma mergeExtractions_above (text ocr : string) :
  500 < textLength text ->
  mergeExtractions text ocr
    = if ocrHasMore text ocr then deduplicateContent text ocr else text.
Proof.
  unfold textLength, mergeExtractions. intros H.
  apply Z.ltb_lt in H. now rewrite H.
Qed.

(** C2 (as amended). With more than 500 characters of (trimmed)
    structured text: when the recognition has more than 1.5 times the
    words and more than 200 (trimmed) characters, the result is the
    deduplication of structured against recognized text, which appends
    the additional-content section only if some recognized paragraph is
    unique; in every other case the result is the structured text. *)
Theorem mergeExtractions_long (text ocr : string) :
  500 < textLength text ->
  (mergeExtractions text ocr = withAdditional text ocr
     <-> ocrHasMore text ocr = true /\ uniqueOcr text ocr <> []) /\
  (~ (ocrHasMore text ocr = true /\ uniqueOcr text ocr <> []) ->
     mergeExtractions text ocr = text) /\
  (ocrHasMore text ocr = true ->
     mergeExtractions text ocr = deduplicateContent text ocr).
Proof.
  intros H. rewrite (mergeExtractions_above _ _ H).
  destruct (deduplicateContent_cases text ocr) as [H0 H1].
  pose proof (withAdditional_neq text ocr) as Hne.
  assert (Hdec : uniqueOcr text ocr = [] \/ uniqueOcr text ocr <> [])
    by (destruct (uniqueOcr text ocr); [now left | now right]).
  destruct (ocrHasMore text ocr) eqn:Emore.
  - destruct Hdec as [Eu|Eu].
    + rewrite (H0 Eu). split; [|split]; auto.
      split; [intros E; exfalso; apply Hne; now symmetry | tauto].
    + rewrite (H1 Eu). split; [|split]; auto.
      * tauto.
      * intros Hn. exfalso. apply Hn. auto.
  - split; [|split]; auto; [|discriminate].
    split; [intros E; exfalso; apply Hne; now symmetry|].
    intros [E _]. discriminate E.
Qed.

Lemma mergeExtractions_long_witness :
  textLength text600 = 599 /\
  mergeExtractions text600 ocr_twice
    = text600 ++ ADDITIONAL_HEADER ++ ocr_twice /\
  mergeExtractions text600 ocr_fewer = text600.
Proof.
  split; [reflexivity|].
  assert (H : 500 < textLength text600) by (vm_compute; reflexivity).
  split.
  - apply (proj1 (mergeExtractions_long text600 ocr_twice H)).
    split; vm_compute; [reflexivity | discriminate].
  - apply (proj1 (proj2 (mergeExtractions_long text600 ocr_fewer H))).
    intros [E _]. vm_compute in E. discriminate E.
Defined.

(** C2, as worded, fails: the recognition has more than 1.5 times the
    words and more than 200 characters, yet no section is appended
    because its only paragraph normalizes to one of the structured
    text. *)
Lemma mergeLong_counterexample :
  let text := Js.repeat 600 "a" in
  let ocr := text ++ " x y" in
  (textLength text = 600 /\
   ocrHasMore text ocr = true /\
   mergeExtractions text ocr = text /\
   mergeExtractions text ocr <> withAdditional text ocr) /\
  ~ mergeLong_as_stated.
Proof.
  intros text ocr.
  assert (Hm : mergeExtractions text ocr = text)
    by (apply String.eqb_eq; vm_compute; reflexivity).
  assert (Hne : mergeExtractions text ocr <> withAdditional text ocr)
    by (rewrite Hm; intros E; symmetry in E;
        exact (withAdditional_neq _ _ E)).
  assert (Hmore : ocrHasMore text ocr = true) by (vm_compute; reflexivity).
  split.
  - split; [vm_compute; reflexivity|].
    split; [exact Hmore|]. split; [exact Hm | exact Hne].
  - intros Hclaim.
    destruct (Hclaim text ocr) as [[_ Hback] _];
      [vm_compute; reflexivity|].
    exact (Hne (Hback Hmore)).
Qed.

Lemma mergeExtractions_below (text ocr : string) :
  textLength text <= 500 ->
  mergeExtractions text ocr
    = if (0 <? textLength text) && (0 <? textLength ocr) then
        if textLength text * 2 <? textLength ocr
        then deduplicateContent ocr text
        else deduplicateContent text ocr
      else if 0 <? textLength ocr then ocr
      else if 0 <? textLength text then text
      else NO_CONTENT.
Proof.
  unfold textLength, mergeExtractions. intros H.
  destruct (500 <? strlen (trim text)) eqn:E; [|reflexivity].
  apply Z.ltb_lt in E. lia.
Qed.

Lemma textLength_nonneg (s : string) : 0 <= textLength s.
Proof. apply strlen_nonneg. Qed.

(** C5 (as amended). With at most 500 characters of (trimmed)
    structured text: if both texts are non-empty after trimming, the
    recognized text is the primary body only when it is more than twice
    as long as the structured text, and otherwise the structured text is
    the primary body, the other text's unique paragraphs being appended
    by the deduplication; if exactly one is non-empty it is returned
    verbatim; if both are empty the no-content placeholder is returned. *)
Theorem mergeExtractions_short (text ocr : string) :
  textLength text <= 500 ->
  (0 < textLength text -> 0 < textLength ocr ->
     (2 * textLength text < textLength ocr ->
        mergeExtractions text ocr = deduplicateContent ocr text) /\
     (textLength ocr <= 2 * textLength text ->
        mergeExtractions text ocr = deduplicateContent text ocr)) /\
  (textLength text = 0 -> 0 < textLength ocr ->
     mergeExtractions text ocr = ocr) /\
  (0 < textLength text -> textLength ocr = 0 ->
     mergeExtractions text ocr = text) /\
  (textLength text = 0 -> textLength ocr = 0 ->
     mergeExtractions text ocr = NO_CONTENT).
Proof.
  intros H. rewrite (mergeExtractions_below _ _ H).
  pose proof (textLength_nonneg text) as Ht.
  pose proof (textLength_nonneg ocr) as Ho.
  destruct (0 <? textLength text) eqn:E1;
    [apply Z.ltb_lt in E1 | apply Z.ltb_ge in E1];
    (destruct (0 <? textLength ocr) eqn:E2;
      [apply Z.ltb_lt in E2 | apply Z.ltb_ge in E2]);
    simpl andb; cbv iota;
    repeat split; intros; try lia; try reflexivity.
  - destruct (textLength text * 2 <? textLength ocr) eqn:E3;
      [reflexivity | apply Z.ltb_ge in E3; lia].
  - destruct (textLength text * 2 <? textLength ocr) eqn:E3;
      [apply Z.ltb_lt in E3; lia | reflexivity].
Qed.

Lemma mergeExtractions_short_witness :
  mergeExtractions "Fig. 1" "A scanned page with a long caption line"
    = "A scanned page with a long caption line" /\
  mergeExtractions "short text here" "a longer recognised text"
    = "short text here" ++ ADDITIONAL_HEADER ++ "a longer recognised text" /\
  mergeExtractions "  " " only the image had text "
    = " only the image had text " /\
  mergeExtractions "only a text layer" "" = "only a text layer" /\
  mergeExtractions " " "" = NO_CONTENT.
Proof.
  split; [|split; [|split; [|split]]].
  - refine (proj1 (proj1 (mergeExtractions_short
             "Fig. 1" "A scanned page with a long caption line" _) _ _) _);
      vm_compute; (reflexivity || discriminate).
  - refine (proj2 (proj1 (mergeExtractions_short
             "short text here" "a longer recognised text" _) _ _) _);
      vm_compute; (reflexivity || discriminate).
  - refine (proj1 (proj2 (mergeExtractions_short
             "  " " only the image had text " _)) _ _);
      vm_compute; (reflexivity || discriminate).
  - refine (proj1 (proj2 (proj2 (mergeExtractions_short
             "only a text layer" "" _))) _ _);
      vm_compute; (reflexivity || discriminate).
  - refine (proj2 (proj2 (proj2 (mergeExtractions_short " " "" _))) _ _);
      vm_compute; (reflexivity || discriminate).
Defined.

(** C5, as worded, fails: the recognized text is the longer one, but not
    more than twice as long, and the structured text stays the primary
    body. *)
Lemma mergeShort_counterexample :
  let text := "short text here" in
  let ocr := "a longer recognised text" in
  (textLength text = 15 /\ textLength ocr = 24 /\
   mergeExtractions text ocr = deduplicateContent text ocr /\
   mergeExtractions text ocr <> deduplicateContent ocr text) /\
  ~ mergeShort_as_stated.
Proof.
  intros text ocr.
  assert (Hne : mergeExtractions text ocr <> deduplicateContent ocr text)
    by (vm_compute; discriminate).
  split.
  - split; [reflexivity|]. split; [reflexivity|].
    split; [reflexivity | exact Hne].
  - intros Hclaim.
    destruct (Hclaim text ocr) as [Hmore _];
      try (vm_compute; (reflexivity || discriminate)).
    apply Hne, Hmore. vm_compute. reflexivity.
Qed.

End PdfMerge.

(* ================================================================== *)
(** * PageRenderer.ts: attempts and back-off                           *)
(* ================================================================== *)

Section RenderRetry.
Import Js PageRenderer.







End RenderRetry.

(* ================================================================== *)
(** * BrowserPool.ts: the capacity bound                               *)
(* ================================================================== *)

Section PoolBound.
Import BrowserPool.

Lemma takeAvailable_length (now : Z) (p p' : list PooledBrowser) (b : Browser) :
  takeAvailable now p = Some (b, p') -> List.length p' = List.length p.
Proof.
  revert p' b; induction p as [|pb rest IH]; simpl; intros p' b H.
  - discriminate.
  - destruct (negb (inUse pb)).
    + injection H as _ <-. reflexivity.
    + destruct (takeAvailable now rest) as [[b0 r0]|]; [|discriminate].
      injection H as _ <-. simpl. f_equal. now apply (IH r0 b0).
Qed.

Lemma releaseIn_length (b : Browser) (now : Z) (p : list PooledBrowser) :
  List.length (releaseIn b now p) = List.length p.
Proof.
  induction p as [|pb rest IH]; simpl; [reflexivity|].
  destruct (Nat.eqb (browser pb) b); simpl; auto.
Qed.

Lemma setCaller_same (i : nat) (c : Caller) (cs : nat -> Caller) :
  setCaller i c cs i = c.
Proof. unfold setCaller. now rewrite Nat.eqb_refl. Qed.

Lemma setCaller_quiescent (w : World) (i : nat) (c : Caller) :
  quiescent w -> (forall b, c <> Launching b) ->
  forall j b, setCaller i c (callers w) j <> Launching b.
Proof.
  intros Hq Hc j b. unfold setCaller.
  destruct (Nat.eqb j i); [apply Hc | apply Hq].
Qed.

(** An event other than the start of an [acquire()] neither grows the
    pool nor suspends a caller, when no launch is pending. *)
Lemma step_quiet (w : World) (ev : Event) :
  quiescent w -> size w <= maxSize w ->
  (forall i t, ev <> Call i t) ->
  quiescent (step w ev) /\ size (step w ev) <= maxSize (step w ev).
Proof.
  intros Hq Hs Hev. unfold size in *.
  destruct ev as [i t|i t|i|i t|b t|t]; simpl.
  - exfalso. now apply (Hev i t).
  - unfold acquireResume. destruct (callers w i) eqn:E; auto.
    exfalso. now apply (Hq i b).
  - destruct (callers w i) eqn:E; auto.
    split; [|exact Hs]. intros j b'. simpl.
    apply setCaller_quiescent; [exact Hq | discriminate].
  - unfold pollTick. destruct (callers w i) eqn:E; auto.
    destruct (takeAvailable t (pool w)) as [[b p']|] eqn:T; auto.
    split.
    + intros j b'. simpl. unfold setCaller.
      destruct (Nat.eqb j i); [discriminate | apply Hq].
    + simpl. now rewrite (takeAvailable_length _ _ _ _ T).
  - split; [exact Hq|]. simpl. now rewrite releaseIn_length.
  - split; [exact Hq|]. simpl.
    pose proof (filter_length_le
                  (fun pb => negb (negb (inUse pb)
                                   && (idleTimeout w <? t - lastUsed pb)))
                  (pool w)). lia.
Qed.

(** An [acquire()] that is awaited before anything else runs keeps the
    pool within its capacity. *)
Lemma acquire_awaited (w : World) (i : nat) (t : Z) (settle : Event) :
  quiescent w -> size w <= maxSize w ->
  (exists t', settle = Launched i t') \/ settle = LaunchFailed i ->
  quiescent (step (step w (Call i t)) settle) /\
  size (step (step w (Call i t)) settle)
    <= maxSize (step (step w (Call i t)) settle).
Proof.
  intros Hq Hs Hsettle.
  assert (Hnc : forall j u, settle <> Call j u)
    by (intros j u; destruct Hsettle as [[t' ->]| ->]; discriminate).
  simpl step at 2 4 6.
  destruct (callers w i) eqn:Ei;
    try (apply step_quiet; assumption).
  unfold acquireStart.
  destruct (takeAvailable t (pool w)) as [[b p']|] eqn:T.
  - apply step_quiet; [| |exact Hnc].
    + intros j b'. simpl. unfold setCaller.
      destruct (Nat.eqb j i); [discriminate | apply Hq].
    + unfold size in *. simpl.
      now rewrite (takeAvailable_length _ _ _ _ T).
  - destruct (Z.of_nat (List.length (pool w)) <? maxSize w) eqn:Elt.
    + apply Z.ltb_lt in Elt.
      destruct Hsettle as [[t' ->]| ->]; simpl.
      * unfold acquireResume. simpl. rewrite !setCaller_same. split.
        -- intros j b'. simpl. unfold setCaller.
           destruct (Nat.eqb j i); [discriminate | apply Hq].
        -- unfold size. simpl. rewrite length_app. simpl. lia.
      * rewrite !setCaller_same. split; [|exact Hs].
        intros j b'. simpl. unfold setCaller.
        destruct (Nat.eqb j i); [discriminate | apply Hq].
    + apply step_quiet; [| exact Hs | exact Hnc].
      intros j b'. simpl. unfold setCaller.
      destruct (Nat.eqb j i); [discriminate | apply Hq].
Qed.

Lemma maxSize_step (w : World) (ev : Event) : maxSize (step w ev) = maxSize w.
Proof.
  destruct ev as [i t|i t|i|i t|b t|t]; simpl.
  - destruct (callers w i); auto. unfold acquireStart.
    destruct (takeAvailable t (pool w)) as [[b p']|]; auto.
    now destruct (Z.of_nat (List.length (pool w)) <? maxSize w).
  - unfold acquireResume. now destruct (callers w i).
  - now destruct (callers w i).
  - unfold pollTick. destruct (callers w i); auto.
    now destruct (takeAvailable t (pool w)) as [[b p']|].
  - reflexivity.
  - reflexivity.
Qed.

(** The bound of the pool under sequential use. *)
Lemma sequential_bound (evs : list Event) :
  sequential evs ->
  forall w, quiescent w -> size w <= maxSize w ->
  quiescent (run w evs) /\ size (run w evs) <= maxSize (run w evs).
Proof.
  induction 1 as [|i t t' evs _ IH|i t evs _ IH|i t evs _ IH
                  |b t evs _ IH|t evs _ IH]; intros w Hq Hs.
  - auto.
  - apply IH; apply acquire_awaited; eauto.
  - apply IH; apply acquire_awaited; eauto.
  - apply IH; apply step_quiet; auto; discriminate.
  - apply IH; apply step_quiet; auto; discriminate.
  - apply IH; apply step_quiet; auto; discriminate.
Qed.

Lemma run_app (w : World) (xs ys : list Event) :
  run w (xs ++ ys) = run (run w xs) ys.
Proof. unfold run. apply fold_left_app. Qed.

(** Calls made in the same turn on a fresh pool: none of them finds a
    browser, the pool is still empty when each one tests its length,
    and so each one launches. *)
Lemma calls_all_launch (m t : Z) (n : nat) :
  0 < m ->
  let w := run (create m t) (calls n) in
  pool w = [] /\ maxSize w = m /\ launches w = n /\
  (forall i, (i < n)%nat -> callers w i = Launching i) /\
  (forall i, (n <= i)%nat -> callers w i = Idle).
Proof.
  intros Hm. induction n as [|n IH]; cbv zeta.
  - simpl. repeat split; auto. intros i Hi. lia.
  - unfold calls. rewrite seq_S, map_app, run_app. fold (calls n).
    cbv zeta in IH. destruct IH as (Hp & Hmax & Hl & Hbusy & Hidle).
    set (w := run (create m t) (calls n)) in *.
    simpl. rewrite (Hidle n (le_n n)). unfold acquireStart.
    rewrite Hp. simpl. rewrite Hmax.
    replace (0 <? m) with true by (symmetry; now apply Z.ltb_lt).
    simpl. rewrite Hl. repeat split; auto.
    + intros i Hi. unfold setCaller.
      destruct (Nat.eqb i n) eqn:E.
      * apply Nat.eqb_eq in E. now rewrite E.
      * apply Nat.eqb_neq in E. apply Hbusy. lia.
    + intros i Hi. unfold setCaller.
      destruct (Nat.eqb i n) eqn:E.
      * apply Nat.eqb_eq in E. lia.
      * apply Hidle. lia.
Qed.

Lemma launches_all_pooled (w : World) (n : nat) :
  forall k, (k <= n)%nat ->
  (forall i, (i < n)%nat -> callers w i = Launching i) ->
  let w' := run w (launchesDone k) in
  size w' = size w + Z.of_nat k /\
  (forall i, (k <= i < n)%nat -> callers w' i = Launching i).
Proof.
  intros k. induction k as [|k IH]; intros Hk Hbusy; cbv zeta.
  - simpl. split; [lia | intros i Hi; apply Hbusy; lia].
  - unfold launchesDone. rewrite seq_S, map_app, run_app.
    fold (launchesDone k).
    destruct (IH (Nat.le_trans _ _ _ (Nat.le_succ_diag_r k) Hk) Hbusy)
      as [Hsize Hrest].
    set (w' := run w (launchesDone k)) in *.
    simpl. unfold acquireResume. rewrite (Hrest k) by lia.
    unfold size in *. simpl. rewrite length_app. simpl. split; [lia|].
    intros i Hi. unfold setCaller.
    destruct (Nat.eqb i k) eqn:E.
    + apply Nat.eqb_eq in E. lia.
    + apply Hrest. lia.
Qed.

(** The pool grows with the number of calls made in the same turn,
    whatever its capacity. *)
Lemma concurrent_acquires_unbounded (m t : Z) (n : nat) :
  0 < m ->
  size (run (run (create m t) (calls n)) (launchesDone n)) = Z.of_nat n.
Proof.
  intros Hm.
  destruct (calls_all_launch m t n Hm) as (Hp & _ & _ & Hbusy & _).
  destruct (launches_all_pooled _ n n (le_n n) Hbusy) as [Hs _].
  rewrite Hs. unfold size. rewrite Hp. simpl. lia.
Qed.

(** C1 (the code at the input on which it departs from the claim).  On
    a fresh pool with [maxSize = 3], four [acquire()] calls made before
    any launch has completed each see an empty pool: each of them starts
    a launch, none of them waits, and once the launches complete the
    pool holds four browsers; so the size of the pool is not bounded by
    [maxSize] over all schedules. *)
Theorem acquire_four_concurrent :
  let started := run (create 3 60000) fourCalls in
  let settled := run started fourLaunches in
  (launches started = 4%nat /\
   callers started 3%nat = Launching 3%nat /\
   callers started 3%nat <> Polling) /\
  (size settled = 4 /\ maxSize settled = 3 /\
   map browser (pool settled) = [0; 1; 2; 3]%nat /\
   callers settled 3%nat = Resolved 3%nat) /\
  ~ (forall evs : list Event,
        size (run (create 3 60000) evs)
          <= maxSize (run (create 3 60000) evs)).
Proof.
  cbv zeta. split; [|split].
  - split; [reflexivity|]. split; [reflexivity | discriminate].
  - split; [reflexivity|]. split; [reflexivity|].
    split; reflexivity.
  - intros Hbound.
    specialize (Hbound (fourCalls ++ fourLaunches)%list).
    vm_compute in Hbound. now apply Hbound.
Qed.

End PoolBound.

(* ================================================================== *)
(** * SearchAggregator.ts: the accumulator                             *)
(* ================================================================== *)

Section MapFacts.
Import JsMap.

Lemma get_mutate_same (m : t) (k : string) f e :
  get m k = Some e -> get (mutate m k f) k = Some (f e).
Proof.
  induction m as [|[k0 v0] m IH]; simpl; [discriminate|].
  destruct (String.eqb k0 k) eqn:E; simpl; rewrite E.
  - now intros [= ->].
  - exact IH.
Qed.

Lemma get_mutate_other (m : t) (k k' : string) f :
  k' <> k -> get (mutate m k f) k' = get m k'.
Proof.
  intros Hne. induction m as [|[k0 v0] m IH]; simpl; [reflexivity|].
  destruct (String.eqb k0 k) eqn:E; simpl.
  - apply String.eqb_eq in E. subst k0.
    assert (E' : String.eqb k k' = false)
      by (apply String.eqb_neq; congruence).
    now rewrite E'.
  - now rewrite IH.
Qed.

Lemma keys_mutate (m : t) (k : string) f : keys (mutate m k f) = keys m.
Proof.
  unfold keys. induction m as [|[k0 v0] m IH]; simpl; [reflexivity|].
  destruct (String.eqb k0 k); simpl; [reflexivity | now rewrite IH].
Qed.

Lemma get_app (m : t) (k k' : string) (v : AggregatedResult.t) :
  get (m ++ [(k, v)])%list k'
    = match get m k' with
      | Some e => Some e
      | None => if String.eqb k k' then Some v else None
      end.
Proof.
  induction m as [|[k0 v0] m IH]; simpl; [reflexivity|].
  now destruct (String.eqb k0 k').
Qed.

Lemma get_None_keys (m : t) (k : string) :
  get m k = None <-> ~ In k (keys m).
Proof.
  unfold keys. induction m as [|[k0 v0] m IH]; simpl; [tauto|].
  destruct (String.eqb k0 k) eqn:E.
  - apply String.eqb_eq in E. split; [discriminate | tauto].
  - apply String.eqb_neq in E. rewrite IH. tauto.
Qed.

Lemma filter_key_unique (m : t) (k : string) (e : AggregatedResult.t) :
  NoDup (keys m) -> get m k = Some e ->
  filter (fun kv => String.eqb (fst kv) k) m = [(k, e)].
Proof.
  unfold keys. induction m as [|[k0 v0] m IH]; simpl; [discriminate|].
  intros Hnd Hget. inversion Hnd as [|? ? Hnot Hnd']; subst.
  destruct (String.eqb k0 k) eqn:E.
  - apply String.eqb_eq in E. subst k0. injection Hget as ->.
    f_equal. clear IH Hnd Hnd'.
    induction m as [|[k1 v1] m IH]; simpl in *; [reflexivity|].
    destruct (String.eqb k1 k) eqn:E1.
    + apply String.eqb_eq in E1. tauto.
    + apply IH. tauto.
  - now apply IH.
Qed.

End MapFacts.

Section MergeFacts.
Import SearchAggregator Aggregation.
Context {api : UrlApi}.

Lemma includes_In (l : list string) (x : string) :
  includes l x = true <-> In x l.
Proof.
  unfold includes. rewrite existsb_exists. split.
  - intros [y [Hy E]]. apply String.eqb_eq in E. now subst.
  - intros H. exists x. split; [exact H | apply String.eqb_refl].
Qed.

Lemma hasKey_true (k : string) (i : Input) :
  hasKey k i = true <-> keyOf (fst i) = Some k.
Proof.
  unfold hasKey. destruct (keyOf (fst i)) as [k'|].
  - rewrite String.eqb_eq. split; congruence.
  - split; discriminate.
Qed.

(** The effect of one [mergeResult] on the record of a given key. *)
Lemma get_mergeResult (acc : JsMap.t) (i : Input) (k : string) :
  JsMap.get (mergeResult acc (fst i) (snd i)) k
    = entryStep k (JsMap.get acc k) i.
Proof.
  unfold mergeResult, entryStep, hasKey, keyOf, freshRecord.
  destruct (sanitizeUrl (SearchResult.url (fst i))) as [c|]; simpl;
    [|reflexivity].
  destruct (String.eqb (key c) k) eqn:E.
  - apply String.eqb_eq in E. subst k.
    destruct (JsMap.get acc (key c)) as [e|] eqn:G.
    + now rewrite (get_mutate_same _ _ _ _ G).
    + unfold JsMap.set. rewrite G, get_app, G.
      now rewrite String.eqb_refl.
  - apply String.eqb_neq in E.
    destruct (JsMap.get acc (key c)) as [e|] eqn:G.
    + apply get_mutate_other. congruence.
    + unfold JsMap.set. rewrite G, get_app.
      destruct (JsMap.get acc k); [reflexivity|].
      apply String.eqb_neq in E. now rewrite E.
Qed.

Lemma keys_mergeResult (acc : JsMap.t) (r : SearchResult.t) (s : string) :
  NoDup (JsMap.keys acc) -> NoDup (JsMap.keys (mergeResult acc r s)).
Proof.
  intros Hnd. unfold mergeResult.
  destruct (sanitizeUrl (SearchResult.url r)) as [c|]; [|exact Hnd].
  destruct (JsMap.get acc (key c)) as [e|] eqn:G.
  - now rewrite keys_mutate.
  - unfold JsMap.set. rewrite G. unfold JsMap.keys.
    rewrite map_app. simpl. apply NoDup_app.
    + exact Hnd.
    + repeat constructor. simpl. tauto.
    + intros x Hx [<-|[]]. apply get_None_keys in G. contradiction.
Qed.

Lemma keys_mergeAll (inputs : list Input) (acc : JsMap.t) :
  NoDup (JsMap.keys acc) -> NoDup (JsMap.keys (mergeAll acc inputs)).
Proof.
  revert acc. induction inputs as [|i inputs IH]; simpl; intros acc H.
  - exact H.
  - apply IH. now apply keys_mergeResult.
Qed.

Lemma get_mergeAll (inputs : list Input) (acc : JsMap.t) (k : string) :
  JsMap.get (mergeAll acc inputs) k
    = fold_left (entryStep k) inputs (JsMap.get acc k).
Proof.
  revert acc. induction inputs as [|i inputs IH]; simpl; intros acc.
  - reflexivity.
  - now rewrite IH, get_mergeResult.
Qed.

Lemma firstTruthy_unit (v : string) : firstTruthy [v] = v.
Proof. now destruct v. Qed.

Lemma backfill (old new : string) (rest : list string) :
  firstTruthy ((if negb (Js.truthy old) && Js.truthy new then new else old)
                 :: rest)
    = firstTruthy (old :: new :: rest).
Proof.
  simpl. destruct (Js.truthy old) eqn:Eo; simpl; [now rewrite Eo|].
  destruct (Js.truthy new) eqn:En; [now rewrite En | now rewrite Eo].
Qed.

Lemma absorb_mergeInto (e : AggregatedResult.t) (i : Input)
      (later : list Input) :
  absorb (mergeInto e (SearchResult.title (fst i))
                    (SearchResult.snippet (fst i)) (snd i)) later
    = absorb e (i :: later).
Proof.
  unfold absorb, mergeInto. cbn [AggregatedResult.title
    AggregatedResult.snippet AggregatedResult.sources AggregatedResult.url map].
  rewrite !backfill. f_equal.
  unfold addDistinct. simpl.
  now destruct (includes (AggregatedResult.sources e) (snd i)).
Qed.

Lemma fold_entryStep_Some (k : string) (inputs : list Input)
      (e : AggregatedResult.t) :
  fold_left (entryStep k) inputs (Some e)
    = Some (absorb e (filter (hasKey k) inputs)).
Proof.
  revert e. induction inputs as [|i inputs IH]; intros e; simpl.
  - unfold absorb. cbn [filter map]. rewrite !firstTruthy_unit.
    unfold addDistinct. simpl. now destruct e.
  - unfold entryStep at 2. destruct (hasKey k i) eqn:E.
    + now rewrite IH, absorb_mergeInto.
    + apply IH.
Qed.

(** The record of key [k] after an aggregation that started empty. *)
Lemma fold_entryStep_None (k : string) (inputs : list Input) :
  fold_left (entryStep k) inputs None
    = match filter (hasKey k) inputs with
      | [] => None
      | first :: later => Some (absorb (freshRecord first) later)
      end.
Proof.
  induction inputs as [|i inputs IH]; simpl; [reflexivity|].
  unfold entryStep at 2. destruct (hasKey k i) eqn:E.
  - apply fold_entryStep_Some.
  - exact IH.
Qed.

Lemma addDistinct_spec (l seen : list string) :
  NoDup seen ->
  NoDup (addDistinct seen l) /\
  (forall x, In x (addDistinct seen l) <-> In x seen \/ In x l).
Proof.
  unfold addDistinct. revert seen.
  induction l as [|s l IH]; simpl; intros seen Hnd.
  - split; [exact Hnd | tauto].
  - destruct (includes seen s) eqn:E.
    + destruct (IH seen Hnd) as [H1 H2]. split; [exact H1|].
      intros x. rewrite H2. apply includes_In in E.
      split; [tauto|]. intros [H|[<-|H]]; tauto.
    + assert (Hnot : ~ In s seen)
        by (rewrite <- includes_In; congruence).
      assert (Hnd' : NoDup (seen ++ [s])%list).
      { apply NoDup_app; [exact Hnd | repeat constructor; simpl; tauto|].
        intros x Hx [<-|[]]. contradiction. }
      destruct (IH _ Hnd') as [H1 H2]. split; [exact H1|].
      intros x. rewrite H2, in_app_iff. simpl. tauto.
Qed.

Lemma mergeInto_keeps (e : AggregatedResult.t) (t s src : string) :
  (Js.truthy (AggregatedResult.title e) = true ->
   AggregatedResult.title (mergeInto e t s src) = AggregatedResult.title e) /\
  (Js.truthy (AggregatedResult.snippet e) = true ->
   AggregatedResult.snippet (mergeInto e t s src)
     = AggregatedResult.snippet e).
Proof.
  unfold mergeInto; simpl. split; intros ->; reflexivity.
Qed.

End MergeFacts.

Section SameUrl.
Import SearchAggregator Aggregation.
Context {api : UrlApi}.

Lemma sameUrl_record (inputs : list Input) (k : string) (i : Input) :
  In i inputs -> hasKey k i = true ->
  exists first later,
    filter (hasKey k) inputs = first :: later /\
    JsMap.get (mergeAll [] inputs) k
      = Some (absorb (freshRecord first) later).
Proof.
  intros Hin Hk.
  assert (Hf : In i (filter (hasKey k) inputs))
    by (apply filter_In; auto).
  rewrite get_mergeAll. simpl JsMap.get. rewrite fold_entryStep_None.
  destruct (filter (hasKey k) inputs) as [|first later]; [destruct Hf|].
  now exists first, later.
Qed.

Lemma source_once (first : Input) (later : list Input) (i : Input) :
  In i (first :: later) ->
  count_occ string_dec
    (AggregatedResult.sources (absorb (freshRecord first) later)) (snd i)
    = 1%nat.
Proof.
  intros Hin. simpl.
  assert (Hnd : NoDup [snd first]) by (repeat constructor; simpl; tauto).
  destruct (addDistinct_spec (map snd later) [snd first] Hnd) as [H1 H2].
  apply NoDup_count_occ'; [exact H1|].
  apply H2. destruct Hin as [->|Hin]; [left; now left|].
  right. now apply in_map.
Qed.

(** C4. Two results from distinct adapters whose URLs canonicalize to
    the same dedup key end up in exactly one aggregated record; the
    sources of that record contain each of the two adapter names exactly
    once; its title and its snippet are, independently, the first
    non-empty value among the results of that URL in merge order; and a
    later merge never replaces a title or snippet that is non-empty. *)
Theorem mergeResult_same_url
        (before between after : list Input)
        (a b : SearchResult.t) (sa sb k : string) :
  keyOf a = Some k -> keyOf b = Some k -> sa <> sb ->
  let inputs := (before ++ (a, sa) :: between ++ (b, sb) :: after)%list in
  let sameUrl := filter (hasKey k) inputs in
  exists e,
    JsMap.get (mergeAll [] inputs) k = Some e /\
    filter (fun kv => String.eqb (fst kv) k) (mergeAll [] inputs) = [(k, e)] /\
    count_occ string_dec (AggregatedResult.sources e) sa = 1%nat /\
    count_occ string_dec (AggregatedResult.sources e) sb = 1%nat /\
    AggregatedResult.title e
      = firstTruthy (map (fun i => SearchResult.title (fst i)) sameUrl) /\
    AggregatedResult.snippet e
      = firstTruthy (map (fun i => SearchResult.snippet (fst i)) sameUrl) /\
    (before = [] -> between = [] -> after = [] ->
       AggregatedResult.title e
         = (if Js.truthy (SearchResult.title a)
            then SearchResult.title a else SearchResult.title b) /\
       AggregatedResult.snippet e
         = (if Js.truthy (SearchResult.snippet a)
            then SearchResult.snippet a else SearchResult.snippet b) /\
       AggregatedResult.sources e = [sa; sb]) /\
    (forall later src,
       exists e',
         JsMap.get (mergeResult (mergeAll [] inputs) later src) k = Some e' /\
         (Js.truthy (AggregatedResult.title e) = true ->
            AggregatedResult.title e' = AggregatedResult.title e) /\
         (Js.truthy (AggregatedResult.snippet e) = true ->
            AggregatedResult.snippet e' = AggregatedResult.snippet e)).
Proof.
  intros Ha Hb Hne inputs sameUrl.
  assert (Hka : hasKey k (a, sa) = true) by now apply hasKey_true.
  assert (Hkb : hasKey k (b, sb) = true) by now apply hasKey_true.
  assert (Ina : In (a, sa) inputs)
    by (unfold inputs; apply in_or_app; right; now left).
  assert (Inb : In (b, sb) inputs).
  { unfold inputs. apply in_or_app. right. right.
    apply in_or_app. right. now left. }
  destruct (sameUrl_record inputs k (a, sa) Ina Hka)
    as (first & later & Hf & Hget).
  exists (absorb (freshRecord first) later).
  assert (Ia : In (a, sa) (first :: later))
    by (rewrite <- Hf; apply filter_In; auto).
  assert (Ib : In (b, sb) (first :: later))
    by (rewrite <- Hf; apply filter_In; auto).
  split; [exact Hget|].
  split; [apply filter_key_unique;
          [apply keys_mergeAll; constructor | exact Hget]|].
  split; [exact (source_once first later (a, sa) Ia)|].
  split; [exact (source_once first later (b, sb) Ib)|].
  unfold sameUrl. rewrite Hf.
  split; [reflexivity|]. split; [reflexivity|]. split.
  - intros -> -> ->. unfold inputs in Hf. simpl in Hf.
    rewrite Hka, Hkb in Hf. injection Hf as <- <-.
    cbn [absorb freshRecord AggregatedResult.title AggregatedResult.snippet
         AggregatedResult.sources map fst snd firstTruthy].
    split; [|split].
    + destruct (Js.truthy (SearchResult.title a)); [reflexivity|].
      now destruct (SearchResult.title b).
    + destruct (Js.truthy (SearchResult.snippet a)); [reflexivity|].
      now destruct (SearchResult.snippet b).
    + unfold addDistinct. simpl.
      assert (E : String.eqb sb sa = false)
        by (apply String.eqb_neq; congruence).
      now rewrite E.
  - intros r src.
    pose proof (get_mergeResult (mergeAll [] inputs) (r, src) k) as G.
    simpl fst in G; simpl snd in G. rewrite G, Hget.
    unfold entryStep. destruct (hasKey k (r, src)).
    + eexists. split; [reflexivity|]. apply mergeInto_keeps.
    + eexists. split; [reflexivity|]. auto.
Qed.

End SameUrl.

(* ================================================================== *)
(** * SearchAggregator.ts: the fan-out loop                            *)
(* ================================================================== *)

Section FanOut.
Import SearchAggregator Aggregation.
Context {api : UrlApi}.

Lemma mergeResults_mergeAll (acc : JsMap.t) (rs : list SearchResult.t)
      (n : string) :
  mergeResults acc rs n = mergeAll acc (map (fun r => (r, n)) rs).
Proof.
  unfold mergeResults, mergeAll. revert acc.
  induction rs as [|r rs IH]; simpl; intros acc; [reflexivity | apply IH].
Qed.

Lemma mergeAll_app (acc : JsMap.t) (xs ys : list Input) :
  mergeAll acc (xs ++ ys) = mergeAll (mergeAll acc xs) ys.
Proof. unfold mergeAll. apply fold_left_app. Qed.

(** The loop as a whole: the answers are merged in table order, the
    failures are appended in table order, and nothing is raised. *)
Lemma queryEngines_total (query : string) (region : option string)
      (entries : list EngineEntry) (acc : JsMap.t) (errs : list string) :
  queryEngines query region entries (acc, errs)
    = Js.Return (mergeAll acc (answered query region entries),
                 (errs ++ failures query region entries)%list).
Proof.
  revert acc errs.
  induction entries as [|entry rest IH]; intros acc errs; simpl.
  - now rewrite app_nil_r.
  - destruct (search (engine entry) query region) as [rs|e]; simpl.
    + now rewrite IH, mergeAll_app, mergeResults_mergeAll.
    + now rewrite IH, <- app_assoc.
Qed.

Lemma searchAllEngines_value (ad : Adapters) (query : string)
      (region : option string) :
  searchAllEngines ad query region
    = Js.Return
        {| results :=
             JsMap.values (mergeAll [] (answered query region (engines ad)));
           engineErrors := failures query region (engines ad) |}.
Proof.
  unfold searchAllEngines. now rewrite queryEngines_total.
Qed.


Lemma failures_count (query : string) (region : option string)
      (entries : list EngineEntry) :
  List.length (failures query region entries)
    = List.length
        (filter (fun entry =>
                   match search (engine entry) query region with
                   | Js.Throw _ => true
                   | Js.Return _ => false
                   end) entries).
Proof.
  induction entries as [|entry rest IH]; simpl; [reflexivity|].
  destruct (search (engine entry) query region); simpl; auto.
Qed.

Lemma answered_spec (query : string) (region : option string)
      (entries : list EngineEntry) (i : Input) :
  In i (answered query region entries) <->
  exists entry rs,
    In entry entries /\ search (engine entry) query region = Js.Return rs /\
    In (fst i) rs /\ snd i = name entry.
Proof.
  induction entries as [|entry rest IH]; simpl.
  - split; [tauto | intros (? & ? & [] & _)].
  - destruct (search (engine entry) query region) as [rs|e] eqn:E.
    + rewrite in_app_iff, IH, in_map_iff. split.
      * intros [(r & <- & Hr)|(x & rs' & Hin & H)].
        -- exists entry, rs. simpl. tauto.
        -- exists x, rs'. tauto.
      * intros (x & rs' & [<-|Hin] & Hs & Hr & Hn).
        -- left. rewrite E in Hs. injection Hs as <-.
           exists (fst i). split; [|exact Hr].
           destruct i; simpl in *. now subst.
        -- right. exists x, rs'. tauto.
    + rewrite IH. split.
      * intros (x & rs' & Hin & H). exists x, rs'. tauto.
      * intros (x & rs' & [<-|Hin] & Hs & H); [congruence|].
        exists x, rs'. tauto.
Qed.


End FanOut.

Section RegistrationOrder.
Import SearchAggregator Aggregation.
Context {api : UrlApi}.

Lemma engines_names (ad : Adapters) :
  map name (engines ad) = registrationOrder.
Proof. reflexivity. Qed.

(** A run of the loop relation visits the adapters in the order of
    [todo] and computes what [queryEngines] computes. *)
Lemma loopRun_sound (query : string) (region : option string)
      (s : LoopState) (labels : list string) (s' : LoopState) :
  loopRun query region s labels s' ->
  labels = map name (todo s) /\
  todo s' = [] /\
  queryEngines query region (todo s) (aggregated s, errors s)
    = Js.Return (aggregated s', errors s').
Proof.
  induction 1 as [s Hdone|s label s' labels s'' Hstep _ IH].
  - rewrite Hdone. auto.
  - destruct IH as (-> & Hend & Hq).
    destruct Hstep as [entry rest acc errs rs Hs|entry rest acc errs e Hs];
      simpl in *; rewrite Hs; simpl; auto.
Qed.

Lemma loopRun_exists (query : string) (region : option string)
      (entries : list EngineEntry) :
  forall acc errs,
  exists s',
    loopRun query region
      {| todo := entries; aggregated := acc; errors := errs |}
      (map name entries) s'.
Proof.
  induction entries as [|entry rest IH]; intros acc errs.
  - eexists. now constructor.
  - destruct (search (engine entry) query region) as [rs|e] eqn:E.
    + destruct (IH (mergeResults acc rs (name entry)) errs) as [s' Hs'].
      exists s'. simpl. econstructor; [|exact Hs']. now constructor.
    + destruct (IH acc (errs ++ [(name entry ++ ": " ++ Js.messageOf e)%string])%list)
        as [s' Hs'].
      exists s'. simpl. econstructor; [|exact Hs']. now constructor.
Qed.

Lemma loopRun_deterministic (query : string) (region : option string)
      (s : LoopState) (l1 l2 : list string) (s1 s2 : LoopState) :
  loopRun query region s l1 s1 -> loopRun query region s l2 s2 ->
  l1 = l2 /\ s1 = s2.
Proof.
  intros H1 H2.
  apply loopRun_sound in H1. apply loopRun_sound in H2.
  destruct H1 as (-> & E1 & Q1), H2 as (-> & E2 & Q2).
  split; [reflexivity|].
  rewrite Q1 in Q2. injection Q2 as Ha He.
  destruct s1, s2; simpl in *. congruence.
Qed.

(** C10. The adapters are queried one after the other in the
    registration order AOL, Brave, Bing, DuckDuckGo, Yahoo, Startpage,
    Yandex; hence the aggregation is a function of the per-adapter
    outputs: any two runs agree on the whole outcome, and the record
    of every canonical URL takes its title and snippet from the first
    non-empty value, and lists its sources, in that order of adapters
    (and, inside one adapter, in the order of its results). *)
Theorem searchAllEngines_registration_order
        (ad : Adapters) (query : string) (region : option string) :
  map name (engines ad) = registrationOrder /\
  (exists final,
      loopRun query region (initial ad) registrationOrder final) /\
  (forall labels final,
      loopRun query region (initial ad) labels final ->
      labels = registrationOrder /\
      searchAllEngines ad query region = Js.Return (outcome final)) /\
  (forall l1 l2 s1 s2,
      loopRun query region (initial ad) l1 s1 ->
      loopRun query region (initial ad) l2 s2 ->
      l1 = l2 /\ s1 = s2) /\
  (forall ad' : Adapters,
      map (fun entry => search (engine entry) query region) (engines ad')
        = map (fun entry => search (engine entry) query region) (engines ad) ->
      searchAllEngines ad' query region = searchAllEngines ad query region) /\
  (forall k,
      let inOrder := filter (hasKey k) (answered query region (engines ad)) in
      match JsMap.get (mergeAll [] (answered query region (engines ad))) k with
      | Some e =>
          AggregatedResult.title e
            = firstTruthy (map (fun i => SearchResult.title (fst i)) inOrder) /\
          AggregatedResult.snippet e
            = firstTruthy (map (fun i => SearchResult.snippet (fst i)) inOrder) /\
          AggregatedResult.sources e = addDistinct [] (map snd inOrder)
      | None => inOrder = []
      end).
Proof.
  split; [reflexivity|].
  split; [apply (loopRun_exists query region (engines ad) [] [])|].
  split.
  { intros labels final Hrun. apply loopRun_sound in Hrun.
    destruct Hrun as (-> & _ & Hq). split; [reflexivity|].
    rewrite queryEngines_total in Hq. injection Hq as Ha He.
    rewrite searchAllEngines_value. unfold outcome.
    now rewrite <- Ha, <- He. }
  split; [intros l1 l2 s1 s2; apply loopRun_deterministic|].
  split.
  { intros ad' Hsame. rewrite !searchAllEngines_value.
    unfold engines in *. cbn [map engine name] in Hsame.
    injection Hsame as H1 H2 H3 H4 H5 H6 H7.
    cbn [answered failures name engine].
    now rewrite H1, H2, H3, H4, H5, H6, H7. }
  intros k inOrder. rewrite get_mergeAll. simpl JsMap.get.
  rewrite fold_entryStep_None. fold inOrder.
  destruct inOrder as [|first later]; [reflexivity|].
  cbn [absorb freshRecord AggregatedResult.title AggregatedResult.snippet
       AggregatedResult.sources map].
  split; [reflexivity|]. split; reflexivity.
Qed.

End RegistrationOrder.

(* ================================================================== *)
(** * SearchAggregator.ts: canonical URLs                              *)
(* ================================================================== *)

Section SanitizeGeneric.
Import SearchAggregator Canonical.
Context {api : UrlApi}.


Lemma sanitizeUrl_unfold (rawUrl : string) :
  sanitizeUrl rawUrl
    = if Js.truthy rawUrl && Js.truthy (Js.trim rawUrl)
         && hasHttpPrefix (resolved rawUrl)
      then match newURL (resolved rawUrl) with
           | Some parsed =>
               Some {| key := Js.toLowerCase (toString (normalize parsed));
                       href := toString (normalize parsed) |}
           | None => None
           end
      else None.
Proof.
  unfold sanitizeUrl. fold (resolved rawUrl).
  destruct (Js.truthy rawUrl); cbn [negb andb]; [|reflexivity].
  destruct (Js.truthy (Js.trim rawUrl)); cbn [negb andb]; [|reflexivity].
  now destruct (hasHttpPrefix (resolved rawUrl)).
Qed.


Lemma sanitizeUrl_accepts (rawUrl : string) (c : Sanitized) :
  sanitizeUrl rawUrl = Some c ->
  exists parsed,
    newURL (resolved rawUrl) = Some parsed /\
    href c = toString (normalize parsed) /\
    key c = Js.toLowerCase (href c).
Proof.
  rewrite sanitizeUrl_unfold.
  destruct (Js.truthy rawUrl && Js.truthy (Js.trim rawUrl)
            && hasHttpPrefix (resolved rawUrl)); [|discriminate].
  destruct (newURL (resolved rawUrl)) as [parsed|]; [|discriminate].
  intros [= <-]. exists parsed. auto.
Qed.


End SanitizeGeneric.

(* ================================================================== *)
(** * The URL records produced by the parser                           *)
(* ================================================================== *)

Section WhatwgFacts.
Import Whatwg Canonical.




(** *** Facts checked on every code unit *)







(** *** Paths *)

Lemma normalSeg_empty : normalSeg "" = true.
Proof. reflexivity. Qed.






Lemma serializePath_cons (seg : string) (segs : list string) :
  serializePath (seg :: segs) = "/" ++ seg ++ serializePath segs.
Proof.
  unfold serializePath. destruct segs as [|seg' segs']; simpl.
  - now rewrite append_empty_r.
  - reflexivity.
Qed.



(** *** Authority and query *)







End WhatwgFacts.

Section WhatwgParse.
Import Whatwg Canonical SearchAggregator.




(** *** Removing the trailing slashes of a serialized path *)



Lemma serializePath_empty (segs : list string) :
  Js.isEmpty (serializePath segs) = true -> segs = [].
Proof.
  destruct segs; [reflexivity|]. rewrite serializePath_cons. discriminate.
Qed.



(** *** Parsing a serialized path again *)










End WhatwgParse.

Section CanonicalUrl.
Import SearchAggregator Canonical.




End CanonicalUrl.

Section SameUrlWitness.
Import SearchAggregator Aggregation.

Lemma mergeResult_same_url_witness :
  exists e,
    JsMap.get
      (mergeAll (api := Whatwg.api) []
         [({| SearchResult.title := "";
              SearchResult.url := "https://Example.com/page/";
              SearchResult.snippet := "x" |}, "engine1");
          ({| SearchResult.title := "T";
              SearchResult.url := "https://example.com/page#top";
              SearchResult.snippet := "y" |}, "engine2")])
      "https://example.com/page" = Some e /\
    AggregatedResult.title e = "T" /\
    AggregatedResult.snippet e = "x" /\
    AggregatedResult.sources e = ["engine1"; "engine2"].
Proof.
  destruct (mergeResult_same_url (api := Whatwg.api) [] [] []
              {| SearchResult.title := "";
                 SearchResult.url := "https://Example.com/page/";
                 SearchResult.snippet := "x" |}
              {| SearchResult.title := "T";
                 SearchResult.url := "https://example.com/page#top";
                 SearchResult.snippet := "y" |}
              "engine1" "engine2" "https://example.com/page"
              eq_refl eq_refl)
    as (e & Hget & _ & _ & _ & _ & _ & Htwo & _).
  - discriminate.
  - exists e. split; [exact Hget|].
    exact (Htwo eq_refl eq_refl eq_refl).
Defined.

End SameUrlWitness.

(* ================================================================== *)
(** * Trimming and white-space normalization                           *)
(* ================================================================== *)

Section TrimFacts.
Import Js JsExtra.

Lemma headSpace_trimStart (s : string) : headSpace (trimStart s) = false.
Proof.
  induction s as [|c s IH]; simpl; [reflexivity|].
  destruct (isSpace c) eqn:E; [exact IH | simpl; exact E].
Qed.

Lemma trimStart_id (s : string) : headSpace s = false -> trimStart s = s.
Proof. destruct s as [|c s]; simpl; [reflexivity | now intros ->]. Qed.

Lemma trimEnd_cons (c : ascii) (r : string) :
  isSpace c = false -> trimEnd (String c r) = String c (trimEnd r).
Proof. intros E. simpl. now rewrite E. Qed.

Lemma lastSpace_cons (c : ascii) (r : string) :
  lastSpace (String c r) = if isEmpty r then isSpace c else lastSpace r.
Proof. now destruct r. Qed.

Lemma lastSpace_trimEnd (s : string) : lastSpace (trimEnd s) = false.
Proof.
  induction s as [|c s IH]; [reflexivity|].
  cbn [trimEnd]. destruct (isSpace c && isEmpty (trimEnd s)) eqn:E;
    [reflexivity|].
  rewrite lastSpace_cons. destruct (isEmpty (trimEnd s)) eqn:Et; [|exact IH].
  now rewrite andb_true_r in E.
Qed.

Lemma trimEnd_id (s : string) : lastSpace s = false -> trimEnd s = s.
Proof.
  induction s as [|c s IH]; [reflexivity|].
  rewrite lastSpace_cons. cbn [trimEnd]. intros H.
  destruct (isEmpty s) eqn:Es.
  - apply isEmpty_true in Es. subst s. simpl. now rewrite H.
  - rewrite (IH H). destruct s; [discriminate|].
    now rewrite andb_false_r.
Qed.

Lemma headSpace_trimEnd (s : string) :
  headSpace s = false -> headSpace (trimEnd s) = false.
Proof.
  destruct s as [|c s]; [reflexivity|]. simpl. intros E. now rewrite E.
Qed.

Lemma trim_fixed (s : string) :
  headSpace s = false -> lastSpace s = false -> trim s = s.
Proof.
  intros Hh Hl. unfold trim. now rewrite (trimStart_id _ Hh), trimEnd_id.
Qed.

Lemma trim_shape (s : string) :
  headSpace (trim s) = false /\ lastSpace (trim s) = false.
Proof.
  unfold trim. split; [|apply lastSpace_trimEnd].
  apply headSpace_trimEnd, headSpace_trimStart.
Qed.

Lemma trim_idempotent (s : string) : trim (trim s) = trim s.
Proof. destruct (trim_shape s). now apply trim_fixed. Qed.

Lemma headSpace_app (a b : string) :
  a <> "" -> headSpace (a ++ b) = headSpace a.
Proof. destruct a; [congruence | reflexivity]. Qed.

Lemma lastSpace_app (a b : string) :
  b <> "" -> lastSpace (a ++ b) = lastSpace b.
Proof.
  intros Hb. induction a as [|c a IH]; [reflexivity|].
  simpl append. rewrite lastSpace_cons, IH.
  destruct (a ++ b) eqn:E; [|reflexivity].
  destruct a; simpl in E; [congruence | discriminate].
Qed.

End TrimFacts.

Section NormalizeWhitespace.
Import Js JsExtra EngineUtils.

Lemma collapseSpaces_singleSpaced (text : string) (b : bool) :
  singleSpaced b (collapseSpaces b text) = true.
Proof.
  revert b. induction text as [|c r IH]; intros b; [reflexivity|].
  cbn [collapseSpaces]. destruct (isSpace c) eqn:E.
  - destruct b; [apply IH|]. cbn [singleSpaced].
    now rewrite (IH true).
  - cbn [singleSpaced]. rewrite E. apply IH.
Qed.

Lemma singleSpaced_weaken (s : string) (b : bool) :
  singleSpaced b s = true -> singleSpaced false s = true.
Proof.
  destruct s as [|c r]; [reflexivity|]. cbn [singleSpaced].
  destruct (isSpace c); [|auto].
  intros H. apply andb_true_iff in H. destruct H as [H ->].
  apply andb_true_iff in H. destruct H as [-> _]. reflexivity.
Qed.

Lemma singleSpaced_trimStart (s : string) (b : bool) :
  singleSpaced b s = true -> singleSpaced false (trimStart s) = true.
Proof.
  revert b. induction s as [|c r IH]; intros b; [reflexivity|].
  cbn [singleSpaced trimStart]. destruct (isSpace c) eqn:E.
  - intros H. apply andb_true_iff in H. destruct H as [_ H].
    now apply (IH true).
  - intros H. cbn [singleSpaced]. now rewrite E.
Qed.

Lemma singleSpaced_trimEnd (s : string) (b : bool) :
  singleSpaced b s = true -> singleSpaced b (trimEnd s) = true.
Proof.
  revert b. induction s as [|c r IH]; intros b; [reflexivity|].
  cbn [singleSpaced trimEnd].
  destruct (isSpace c && isEmpty (trimEnd r)); [reflexivity|].
  cbn [singleSpaced]. destruct (isSpace c).
  - intros H. apply andb_true_iff in H. destruct H as [H1 H2].
    rewrite H1. now apply IH.
  - apply IH.
Qed.

Lemma collapseSpaces_fixed (s : string) (b : bool) :
  singleSpaced b s = true -> collapseSpaces b s = s.
Proof.
  revert b. induction s as [|c r IH]; intros b; [reflexivity|].
  cbn [singleSpaced collapseSpaces]. destruct (isSpace c).
  - intros H. apply andb_true_iff in H. destruct H as [H Hr].
    apply andb_true_iff in H. destruct H as [Hc Hb].
    apply Ascii.eqb_eq in Hc. apply negb_true_iff in Hb. subst c b.
    now rewrite (IH true Hr).
  - intros Hr. now rewrite (IH false Hr).
Qed.

Lemma visible_collapseSpaces (s : string) (b : bool) :
  visible (collapseSpaces b s) = visible s.
Proof.
  unfold visible. revert b.
  induction s as [|c r IH]; intros b; [reflexivity|].
  cbn [collapseSpaces keepChars]. destruct (isSpace c) eqn:E; cbn [negb].
  - destruct b; [apply IH|]. cbn [keepChars]. apply IH.
  - cbn [keepChars]. rewrite E. cbn [negb]. now rewrite IH.
Qed.

Lemma visible_trimStart (s : string) : visible (trimStart s) = visible s.
Proof.
  unfold visible. induction s as [|c r IH]; [reflexivity|].
  cbn [trimStart keepChars]. destruct (isSpace c) eqn:E; cbn [negb].
  - exact IH.
  - cbn [keepChars]. now rewrite E.
Qed.

Lemma visible_trimEnd (s : string) : visible (trimEnd s) = visible s.
Proof.
  unfold visible. induction s as [|c r IH]; [reflexivity|].
  cbn [trimEnd keepChars].
  destruct (isSpace c) eqn:E; cbn [negb andb].
  - destruct (isEmpty (trimEnd r)) eqn:Et.
    + apply isEmpty_true in Et. rewrite Et in IH. now rewrite <- IH.
    + cbn [keepChars]. rewrite E. exact IH.
  - cbn [keepChars]. rewrite E. cbn [negb]. now rewrite IH.
Qed.

(** X1. [normalizeWhitespace] returns a text without leading or
    trailing white space, in which the only white-space character is
    the space and no two spaces are adjacent; the other characters are
    those of the argument, in order; and a text of that form is returned
    unchanged, so normalizing twice is normalizing once. *)
Theorem normalizeWhitespace_normal (text : string) :
  (headSpace (normalizeWhitespace text) = false /\
   lastSpace (normalizeWhitespace text) = false /\
   singleSpaced false (normalizeWhitespace text) = true) /\
  visible (normalizeWhitespace text) = visible text /\
  (forall s, headSpace s = false -> lastSpace s = false ->
             singleSpaced false s = true -> normalizeWhitespace s = s) /\
  normalizeWhitespace (normalizeWhitespace text) = normalizeWhitespace text.
Proof.
  assert (Hshape : headSpace (normalizeWhitespace text) = false /\
                   lastSpace (normalizeWhitespace text) = false /\
                   singleSpaced false (normalizeWhitespace text) = true).
  { unfold normalizeWhitespace. destruct (trim_shape (collapseSpaces false text)).
    repeat split; auto. unfold trim.
    apply singleSpaced_trimEnd.
    apply (singleSpaced_trimStart _ false), collapseSpaces_singleSpaced. }
  assert (Hfix : forall s, headSpace s = false -> lastSpace s = false ->
                   singleSpaced false s = true -> normalizeWhitespace s = s).
  { intros s Hh Hl Hs. unfold normalizeWhitespace.
    rewrite (collapseSpaces_fixed _ _ Hs). now apply trim_fixed. }
  split; [exact Hshape|]. split; [|split; [exact Hfix|]].
  - unfold normalizeWhitespace, trim.
    now rewrite visible_trimEnd, visible_trimStart, visible_collapseSpaces.
  - destruct Hshape as (Hh & Hl & Hs). now apply Hfix.
Qed.

Lemma normalizeWhitespace_normal_witness :
  normalizeWhitespace ("  Rocq " ++ String LF "  9.3   released ")
    = "Rocq 9.3 released" /\
  normalizeWhitespace "Rocq 9.3 released" = "Rocq 9.3 released".
Proof.
  split; [reflexivity|].
  apply (proj1 (proj2 (proj2 (normalizeWhitespace_normal "")))
           "Rocq 9.3 released"); reflexivity.
Defined.

End NormalizeWhitespace.

(* ================================================================== *)
(** * SearchAggregator.ts: the records of an aggregation               *)
(* ================================================================== *)

Section Records.
Import SearchAggregator Aggregation AggregationMore.
Context {api : UrlApi}.

Lemma In_get (m : JsMap.t) (k : string) (e : AggregatedResult.t) :
  NoDup (JsMap.keys m) -> In (k, e) m -> JsMap.get m k = Some e.
Proof.
  unfold JsMap.keys. induction m as [|[k0 v0] m IH]; simpl; [tauto|].
  intros Hnd [H|H]; inversion Hnd as [|? ? Hnot Hnd']; subst.
  - injection H as -> ->. now rewrite String.eqb_refl.
  - destruct (String.eqb k0 k) eqn:E; [|now apply IH].
    apply String.eqb_eq in E. subst k0. exfalso. apply Hnot.
    change k with (fst (k, e)). now apply in_map.
Qed.

Lemma get_In (m : JsMap.t) (k : string) (e : AggregatedResult.t) :
  JsMap.get m k = Some e -> In (k, e) m.
Proof.
  induction m as [|[k0 v0] m IH]; simpl; [discriminate|].
  destruct (String.eqb k0 k) eqn:E.
  - apply String.eqb_eq in E. intros [= ->]. left. now subst.
  - intros H. right. now apply IH.
Qed.

Lemma keyOf_sanitized (r : SearchResult.t) (k : string) :
  keyOf r = Some k ->
  exists c, sanitizeUrl (SearchResult.url r) = Some c /\ key c = k /\
            k = Js.toLowerCase (href c).
Proof.
  unfold keyOf. destruct (sanitizeUrl (SearchResult.url r)) as [c|] eqn:E;
    [|discriminate].
  intros [= <-]. exists c. split; [reflexivity|]. split; [reflexivity|].
  now destruct (sanitizeUrl_accepts _ _ E) as (_ & _ & _ & H).
Qed.

(** The record stored under [k], read off the inputs. *)
Lemma record_of_key (inputs : list Input) (k : string) (e : AggregatedResult.t) :
  JsMap.get (mergeAll [] inputs) k = Some e ->
  exists first later,
    filter (hasKey k) inputs = first :: later /\
    e = absorb (freshRecord first) later.
Proof.
  rewrite get_mergeAll. simpl JsMap.get. rewrite fold_entryStep_None.
  destruct (filter (hasKey k) inputs) as [|first later]; [discriminate|].
  intros [= <-]. now exists first, later.
Qed.

Lemma sources_of_key (first : Input) (later : list Input) (s : string) :
  In s (AggregatedResult.sources (absorb (freshRecord first) later))
  <-> In s (map snd (first :: later)).
Proof.
  cbn [absorb freshRecord AggregatedResult.sources].
  assert (Hnd : NoDup [snd first]) by (repeat constructor; simpl; tauto).
  destruct (addDistinct_spec (map snd later) [snd first] Hnd) as [_ H].
  rewrite H. simpl. tauto.
Qed.

(** X2. Every record of an aggregation has at least one source and no
    source twice; its sources are exactly the adapters that reported a
    result with its key; its URL is the canonical form of the first
    such result, and its key is that URL in lower case. *)
Theorem aggregated_record_invariant
        (inputs : list Input) (k : string) (e : AggregatedResult.t) :
  In (k, e) (mergeAll [] inputs) ->
  AggregatedResult.sources e <> [] /\
  NoDup (AggregatedResult.sources e) /\
  (forall s, In s (AggregatedResult.sources e)
             <-> exists i, In i inputs /\ reports k s i) /\
  k = Js.toLowerCase (AggregatedResult.url e) /\
  exists first later c,
    filter (hasKey k) inputs = first :: later /\
    sanitizeUrl (SearchResult.url (fst first)) = Some c /\
    AggregatedResult.url e = href c.
Proof.
  intros Hin.
  assert (Hget : JsMap.get (mergeAll [] inputs) k = Some e)
    by (apply In_get; [apply keys_mergeAll; constructor | exact Hin]).
  destruct (record_of_key _ _ _ Hget) as (first & later & Hf & ->).
  assert (Hfirst : hasKey k first = true).
  { assert (H : In first (filter (hasKey k) inputs))
      by (rewrite Hf; now left).
    now apply filter_In in H. }
  apply hasKey_true in Hfirst.
  destruct (keyOf_sanitized _ _ Hfirst) as (c & Hc & Hk & Hlow).
  assert (Hsrc : forall s,
             In s (AggregatedResult.sources (absorb (freshRecord first) later))
             <-> exists i, In i inputs /\ reports k s i).
  { intros s. rewrite sources_of_key, <- Hf, in_map_iff. unfold reports.
    split.
    - intros (i & Hs & Hi). apply filter_In in Hi. destruct Hi as [Hi Hk'].
      exists i. split; [exact Hi|]. split; [now apply hasKey_true | exact Hs].
    - intros (i & Hi & Hk' & Hs). exists i. split; [exact Hs|].
      apply filter_In. split; [exact Hi | now apply hasKey_true]. }
  split; [|split; [|split; [exact Hsrc|split]]].
  - intros Hnil.
    assert (H : In (snd first)
                   (AggregatedResult.sources (absorb (freshRecord first) later)))
      by (apply sources_of_key; now left).
    rewrite Hnil in H. destruct H.
  - cbn [absorb freshRecord AggregatedResult.sources].
    apply addDistinct_spec. repeat constructor. simpl. tauto.
  - cbn [absorb freshRecord AggregatedResult.url]. rewrite Hc. exact Hlow.
  - exists first, later, c. split; [exact Hf|]. split; [exact Hc|].
    cbn [absorb freshRecord AggregatedResult.url]. now rewrite Hc.
Qed.

(** *** Order of the records *)

Lemma keys_app_entry (m : JsMap.t) (k : string) (v : AggregatedResult.t) :
  JsMap.keys (m ++ [(k, v)])%list = (JsMap.keys m ++ [k])%list.
Proof. unfold JsMap.keys. now rewrite map_app. Qed.

Lemma keys_mergeResult_step (acc : JsMap.t) (i : Input) :
  JsMap.keys (mergeResult acc (fst i) (snd i))
    = addDistinct (JsMap.keys acc) (acceptedKeys [i]).
Proof.
  unfold mergeResult, acceptedKeys, keyOf. cbn [flat_map].
  destruct (sanitizeUrl (SearchResult.url (fst i))) as [c|]; cbn [option_map];
    [|reflexivity].
  cbn [app]. unfold addDistinct. cbn [fold_left].
  destruct (JsMap.get acc (key c)) as [e|] eqn:G.
  - rewrite keys_mutate.
    assert (H : includes (JsMap.keys acc) (key c) = true).
    { apply includes_In. destruct (in_dec string_dec (key c) (JsMap.keys acc))
        as [Hin|Hn]; [exact Hin|].
      apply get_None_keys in Hn. congruence. }
    now rewrite H.
  - unfold JsMap.set. rewrite G, keys_app_entry.
    assert (H : includes (JsMap.keys acc) (key c) = false).
    { apply not_true_is_false. rewrite includes_In.
      now apply get_None_keys. }
    now rewrite H.
Qed.

Lemma addDistinct_app (seen xs ys : list string) :
  addDistinct seen (xs ++ ys) = addDistinct (addDistinct seen xs) ys.
Proof. unfold addDistinct. apply fold_left_app. Qed.

Lemma keys_mergeAll_order (inputs : list Input) (acc : JsMap.t) :
  JsMap.keys (mergeAll acc inputs)
    = addDistinct (JsMap.keys acc) (acceptedKeys inputs).
Proof.
  revert acc. induction inputs as [|i inputs IH]; intros acc; [reflexivity|].
  cbn [mergeAll fold_left]. fold (mergeAll (mergeResult acc (fst i) (snd i)) inputs).
  rewrite IH, keys_mergeResult_step.
  replace (acceptedKeys (i :: inputs))
    with (acceptedKeys [i] ++ acceptedKeys inputs)%list
    by (unfold acceptedKeys; cbn [flat_map]; now rewrite app_nil_r).
  now rewrite addDistinct_app.
Qed.

Lemma addDistinct_length (l seen : list string) :
  (List.length (addDistinct seen l) <= List.length seen + List.length l)%nat.
Proof.
  unfold addDistinct. revert seen.
  induction l as [|x l IH]; intros seen; simpl; [lia|].
  destruct (includes seen x).
  - specialize (IH seen). lia.
  - specialize (IH (seen ++ [x])%list). rewrite length_app in IH. simpl in IH.
    lia.
Qed.

Lemma acceptedKeys_length (inputs : list Input) :
  (List.length (acceptedKeys inputs) <= List.length inputs)%nat.
Proof.
  unfold acceptedKeys. induction inputs as [|i inputs IH]; simpl; [lia|].
  rewrite length_app. destruct (keyOf (fst i)); simpl; lia.
Qed.

(** X3. The records of an aggregation come in the order in which their
    canonical URL was first seen among the accepted inputs; a result
    whose URL is rejected adds no record; so there are at most as many
    records as inputs. *)
Theorem aggregated_order (inputs : list Input) :
  JsMap.keys (mergeAll [] inputs) = addDistinct [] (acceptedKeys inputs) /\
  NoDup (JsMap.keys (mergeAll [] inputs)) /\
  (forall k, In k (JsMap.keys (mergeAll [] inputs))
             <-> exists i, In i inputs /\ keyOf (fst i) = Some k) /\
  (List.length (JsMap.values (mergeAll [] inputs)) <= List.length inputs)%nat.
Proof.
  pose proof (keys_mergeAll_order inputs []) as Hk. simpl JsMap.keys in Hk at 2.
  split; [exact Hk|].
  split; [apply keys_mergeAll; constructor|].
  split.
  - intros k. rewrite Hk.
    destruct (addDistinct_spec (acceptedKeys inputs) [] (NoDup_nil _))
      as [_ H].
    rewrite H. unfold acceptedKeys. rewrite in_flat_map. simpl. split.
    + intros [[]|(i & Hi & Hin)]. exists i. split; [exact Hi|].
      destruct (keyOf (fst i)) as [k'|]; [|destruct Hin].
      destruct Hin as [->|[]]. reflexivity.
    + intros (i & Hi & Hkey). right. exists i. split; [exact Hi|].
      rewrite Hkey. now left.
  - unfold JsMap.values. rewrite length_map.
    replace (List.length (mergeAll [] inputs))
      with (List.length (JsMap.keys (mergeAll [] inputs)))
      by (unfold JsMap.keys; apply length_map).
    rewrite Hk. pose proof (addDistinct_length (acceptedKeys inputs) []).
    pose proof (acceptedKeys_length inputs). simpl in *. lia.
Qed.

End Records.

Section RecordsWitness.
Import SearchAggregator Aggregation AggregationMore Samples.

Lemma aggregated_record_invariant_witness :
  let inputs := [(result "" "https://Example.com/Guide/" "from brave", "Brave");
                 (result "The Guide" "https://example.com/guide#intro" "", "Bing");
                 (result "Guide" "//example.com/guide" "", "Brave")] in
  let e := {| AggregatedResult.title := "The Guide";
              AggregatedResult.url := "https://example.com/Guide";
              AggregatedResult.snippet := "from brave";
              AggregatedResult.sources := ["Brave"; "Bing"] |} in
  AggregatedResult.sources e <> [] /\
  NoDup (AggregatedResult.sources e) /\
  (forall s, In s (AggregatedResult.sources e)
             <-> exists i, In i inputs
                           /\ reports (api := Whatwg.api)
                                "https://example.com/guide" s i) /\
  "https://example.com/guide" = Js.toLowerCase (AggregatedResult.url e) /\
  exists first later c,
    filter (hasKey (api := Whatwg.api) "https://example.com/guide") inputs
      = first :: later /\
    sanitizeUrl (api := Whatwg.api) (SearchResult.url (fst first)) = Some c /\
    AggregatedResult.url e = href c.
Proof.
  cbv zeta.
  apply (aggregated_record_invariant (api := Whatwg.api)).
  left. reflexivity.
Defined.

End RecordsWitness.

Section Spelling.
Import SearchAggregator Canonical.
Context {api : UrlApi}.

Lemma resolved_trim (rawUrl : string) :
  resolved (Js.trim rawUrl) = resolved rawUrl.
Proof. unfold resolved. now rewrite trim_idempotent. Qed.

Lemma truthy_trim (rawUrl : string) :
  Js.truthy rawUrl && Js.truthy (Js.trim rawUrl) = Js.truthy (Js.trim rawUrl).
Proof. destruct rawUrl; reflexivity. Qed.

Lemma sanitizeUrl_trim (rawUrl : string) :
  sanitizeUrl (Js.trim rawUrl) = sanitizeUrl rawUrl.
Proof.
  rewrite !sanitizeUrl_unfold, resolved_trim, !truthy_trim.
  now rewrite trim_idempotent.
Qed.

Lemma trim_after_slashes (prefix rest : string) :
  JsExtra.headSpace prefix = false -> prefix <> "" ->
  JsExtra.lastSpace prefix = false ->
  Js.trim (prefix ++ rest) = prefix ++ Js.trimEnd rest.
Proof.
  intros Hh Hne Hl. unfold Js.trim.
  rewrite trimStart_id by (now rewrite headSpace_app).
  clear Hh. induction prefix as [|c p IH]; [congruence|].
  rewrite lastSpace_cons in Hl. simpl append.
  destruct p as [|d p].
  - simpl in Hl. simpl append. now apply trimEnd_cons.
  - simpl Js.isEmpty in Hl. cbn [Js.trimEnd].
    rewrite IH by (congruence || exact Hl).
    simpl. now rewrite andb_false_r.
Qed.

Lemma prefix_empty (t : string) : String.prefix "" t = true.
Proof. now destruct t. Qed.

Lemma startsWith_slashes (t : string) :
  Js.startsWith "//" ("//" ++ t) = true /\
  Js.startsWith "//" ("https://" ++ t) = false.
Proof. unfold Js.startsWith. simpl. now rewrite prefix_empty. Qed.

Lemma trimStart_blank_app (b x : string) :
  Js.trim b = "" -> Js.trimStart (b ++ x) = Js.trimStart x.
Proof.
  unfold Js.trim. induction b as [|c b IH]; [reflexivity|].
  cbn [Js.trimStart append]. destruct (Js.isSpace c) eqn:E; [exact IH|].
  rewrite (trimEnd_cons _ _ E). discriminate.
Qed.

Lemma trimEnd_blank (a : string) : Js.trim a = "" -> Js.trimEnd a = "".
Proof.
  unfold Js.trim. induction a as [|c a IH]; [reflexivity|].
  cbn [Js.trimStart]. destruct (Js.isSpace c) eqn:E.
  - intros H. cbn [Js.trimEnd]. now rewrite E, (IH H).
  - rewrite (trimEnd_cons _ _ E). discriminate.
Qed.

Lemma trimEnd_app_blank (x a : string) :
  Js.trimEnd a = "" -> Js.trimEnd (x ++ a) = Js.trimEnd x.
Proof.
  intros Ha. induction x as [|c x IH]; [exact Ha|].
  cbn [append Js.trimEnd]. now rewrite IH.
Qed.

Lemma trimStart_app (x a : string) :
  Js.trimStart (x ++ a)
    = if Js.isEmpty (Js.trimStart x) then Js.trimStart a
      else Js.trimStart x ++ a.
Proof.
  induction x as [|c x IH]; [reflexivity|].
  cbn [append Js.trimStart]. destruct (Js.isSpace c); [exact IH | reflexivity].
Qed.

Lemma trim_padding (before after s : string) :
  Js.trim before = "" -> Js.trim after = "" ->
  Js.trim (before ++ s ++ after) = Js.trim s.
Proof.
  intros Hb Ha. unfold Js.trim.
  rewrite (trimStart_blank_app _ _ Hb), trimStart_app.
  destruct (Js.isEmpty (Js.trimStart s)) eqn:Es.
  - apply isEmpty_true in Es. rewrite Es. exact Ha.
  - apply trimEnd_app_blank. now apply trimEnd_blank.
Qed.

(** X4. White space around a raw URL does not change its canonical
    form, and a scheme-relative URL has the canonical form of the same
    URL written with [https:]; so results that differ only in these
    ways share one record. *)
Theorem sanitizeUrl_spelling :
  (forall rawUrl, sanitizeUrl (Js.trim rawUrl) = sanitizeUrl rawUrl) /\
  (forall rest, sanitizeUrl ("//" ++ rest) = sanitizeUrl ("https://" ++ rest)) /\
  (forall before after rawUrl,
      Js.trim before = "" -> Js.trim after = "" ->
      sanitizeUrl (before ++ rawUrl ++ after) = sanitizeUrl rawUrl).
Proof.
  split; [exact sanitizeUrl_trim|]. split.
  - intros rest. rewrite !sanitizeUrl_unfold. unfold resolved.
    rewrite (trim_after_slashes "//" rest) by (reflexivity || discriminate).
    rewrite (trim_after_slashes "https://" rest)
      by (reflexivity || discriminate).
    destruct (startsWith_slashes (Js.trimEnd rest)) as [-> ->].
    reflexivity.
  - intros before after rawUrl Hb Ha.
    rewrite <- (sanitizeUrl_trim (before ++ rawUrl ++ after)).
    rewrite <- (sanitizeUrl_trim rawUrl). f_equal.
    apply trim_padding; assumption.
Qed.

End Spelling.

Section SpellingWitness.
Import SearchAggregator.

Lemma sanitizeUrl_spelling_witness :
  Js.trim "  " = "" /\ Js.trim (String Js.LF "") = "" /\
  @sanitizeUrl Whatwg.api ("  " ++ "HTTPS://Example.com/docs/" ++ String Js.LF "")
    = @sanitizeUrl Whatwg.api "HTTPS://Example.com/docs/".
Proof.
  split; [reflexivity|]. split; [reflexivity|].
  apply (proj2 (proj2 (@sanitizeUrl_spelling Whatwg.api))); reflexivity.
Defined.

End SpellingWitness.

(* ================================================================== *)
(** * BrowserPool.ts: who holds a browser                              *)
(* ================================================================== *)

Section PoolUse.
Import BrowserPool BrowserPoolMore.

Lemma takeAvailable_ids (now : Z) (p p' : list PooledBrowser) (b : Browser) :
  takeAvailable now p = Some (b, p') -> map browser p' = map browser p.
Proof.
  revert b p'. induction p as [|pb rest IH]; intros b p' H; simpl in H.
  - discriminate.
  - destruct (negb (inUse pb)).
    + injection H as _ <-. reflexivity.
    + destruct (takeAvailable now rest) as [[b0 r0]|]; [|discriminate].
      injection H as _ <-. simpl. f_equal. exact (IH _ _ eq_refl).
Qed.

Lemma takeAvailable_In (now : Z) (p p' : list PooledBrowser) (b : Browser) :
  takeAvailable now p = Some (b, p') -> In b (map browser p).
Proof.
  revert b p'. induction p as [|pb rest IH]; intros b p' H; simpl in H.
  - discriminate.
  - destruct (negb (inUse pb)).
    + injection H as <- _. now left.
    + destruct (takeAvailable now rest) as [[b0 r0]|]; [|discriminate].
      injection H as <- _. right. exact (IH _ _ eq_refl).
Qed.

Lemma takeAvailable_none (now : Z) (p : list PooledBrowser) :
  forallb inUse p = true -> takeAvailable now p = None.
Proof.
  induction p as [|pb rest IH]; simpl; [reflexivity|].
  intros H. apply andb_true_iff in H. destruct H as [Hu Hr].
  now rewrite Hu, (IH Hr).
Qed.

Lemma releaseIn_ids (b : Browser) (now : Z) (p : list PooledBrowser) :
  map browser (releaseIn b now p) = map browser p.
Proof.
  induction p as [|pb rest IH]; simpl; [reflexivity|].
  destruct (Nat.eqb (browser pb) b); simpl; [reflexivity | now rewrite IH].
Qed.

Lemma busyIn_cons (pb : PooledBrowser) (p : list PooledBrowser) (b : Browser) :
  busyIn (pb :: p) b = (Nat.eqb (browser pb) b && inUse pb) || busyIn p b.
Proof. reflexivity. Qed.

Lemma busyIn_notin (p : list PooledBrowser) (b : Browser) :
  ~ In b (map browser p) -> busyIn p b = false.
Proof.
  induction p as [|pb rest IH]; intros H; [reflexivity|].
  rewrite busyIn_cons. simpl in H.
  destruct (Nat.eqb_spec (browser pb) b) as [E|E].
  - exfalso. apply H. now left.
  - simpl. apply IH. intros Hin. apply H. now right.
Qed.

Lemma busyIn_app (p q : list PooledBrowser) (b : Browser) :
  busyIn (p ++ q) b = busyIn p b || busyIn q b.
Proof. apply existsb_app. Qed.

(** The browser found by [find(pb => !pb.inUse)] was free, and is in
    use after the two assignments. *)
Lemma takeAvailable_grant (now : Z) (p p' : list PooledBrowser) (b : Browser) :
  NoDup (map browser p) -> takeAvailable now p = Some (b, p') ->
  busyIn p b = false /\ busyIn p' b = true.
Proof.
  revert b p'. induction p as [|pb rest IH]; intros b p' Hnd H; simpl in H.
  - discriminate.
  - simpl in Hnd. apply NoDup_cons_iff in Hnd. destruct Hnd as [Hnotin Hnd].
    destruct (inUse pb) eqn:U; simpl in H.
    + destruct (takeAvailable now rest) as [[b0 r0]|] eqn:T; [|discriminate].
      injection H as <- <-.
      destruct (IH _ _ Hnd eq_refl) as [Hb Ha].
      assert (Hne : Nat.eqb (browser pb) b0 = false).
      { apply Nat.eqb_neq. intros E. apply Hnotin. rewrite E.
        exact (takeAvailable_In _ _ _ _ T). }
      rewrite !busyIn_cons, Hne, Hb, Ha. split; reflexivity.
    + injection H as <- <-. rewrite !busyIn_cons. simpl.
      rewrite Nat.eqb_refl, U, (busyIn_notin _ _ Hnotin).
      split; reflexivity.
Qed.

Lemma takeAvailable_keeps (now : Z) (p p' : list PooledBrowser)
    (b0 b : Browser) :
  takeAvailable now p = Some (b0, p') -> busyIn p b = true ->
  busyIn p' b = true.
Proof.
  revert b0 p'. induction p as [|pb rest IH]; intros b0 p' H Hb; simpl in H.
  - discriminate.
  - rewrite busyIn_cons in Hb. destruct (inUse pb) eqn:U; simpl in H.
    + destruct (takeAvailable now rest) as [[b1 r1]|] eqn:T; [|discriminate].
      injection H as _ <-. rewrite busyIn_cons, U.
      apply orb_true_iff in Hb. apply orb_true_iff.
      destruct Hb as [Hb|Hb]; [now left|]. right. exact (IH _ _ eq_refl Hb).
    + injection H as _ <-. rewrite busyIn_cons. simpl.
      rewrite andb_false_r in Hb. simpl in Hb. rewrite Hb.
      apply orb_true_r.
Qed.

Lemma releaseIn_other (b' b : Browser) (now : Z) (p : list PooledBrowser) :
  b' <> b -> busyIn (releaseIn b' now p) b = busyIn p b.
Proof.
  intros Hne. induction p as [|pb rest IH]; [reflexivity|].
  simpl. destruct (Nat.eqb_spec (browser pb) b') as [E|E].
  - rewrite !busyIn_cons. simpl.
    replace (Nat.eqb (browser pb) b) with false; [reflexivity|].
    symmetry. apply Nat.eqb_neq. congruence.
  - rewrite !busyIn_cons. now rewrite IH.
Qed.

Lemma filter_keeps_busy (keep : PooledBrowser -> bool)
    (p : list PooledBrowser) (b : Browser) :
  (forall pb, inUse pb = true -> keep pb = true) ->
  busyIn p b = true -> busyIn (filter keep p) b = true.
Proof.
  intros Hk Hb. unfold busyIn in *. apply existsb_exists in Hb.
  destruct Hb as [pb [Hin Hpb]]. apply existsb_exists. exists pb.
  split; [|exact Hpb]. apply filter_In. split; [exact Hin|].
  apply Hk. apply andb_true_iff in Hpb. tauto.
Qed.

Lemma NoDup_map_filter (keep : PooledBrowser -> bool) (p : list PooledBrowser) :
  NoDup (map browser p) -> NoDup (map browser (filter keep p)).
Proof.
  induction p as [|pb rest IH]; simpl; intros H; [constructor|].
  apply NoDup_cons_iff in H. destruct H as [Hnotin Hnd].
  destruct (keep pb); simpl; [|now apply IH].
  constructor; [|now apply IH].
  intros Hin. apply Hnotin. apply in_map_iff in Hin.
  destruct Hin as [x [Ex Hx]]. apply filter_In in Hx.
  apply in_map_iff. exists x. tauto.
Qed.

Lemma wf_create (m t : Z) : wf (create m t).
Proof.
  unfold wf, ids. simpl. split; [constructor|]. split; [tauto|].
  split; intros; discriminate.
Qed.

(** A change of the pool that neither adds nor repeats a browser. *)
Lemma wf_withPool (w : World) (p : list PooledBrowser) :
  wf w -> NoDup (map browser p) -> incl (map browser p) (ids w) ->
  wf (withPool w p).
Proof.
  intros (Hnd & Hlt & Hl & Hu) Hp Hincl. unfold wf, ids. simpl.
  split; [exact Hp|]. split; [intros b Hb; apply Hlt, Hincl, Hb|].
  split; [|exact Hu]. intros i b Hi. destruct (Hl _ _ Hi) as [H1 H2].
  split; [exact H1|]. intros Hin. apply H2, Hincl, Hin.
Qed.

(** A caller that is settled, or starts to wait. *)
Lemma wf_withCaller (w : World) (i : nat) (c : Caller) :
  wf w -> (forall b, c <> Launching b) -> wf (withCaller w i c).
Proof.
  intros (Hnd & Hlt & Hl & Hu) Hc. unfold wf, ids. simpl.
  split; [exact Hnd|]. split; [exact Hlt|]. split.
  - intros j b. unfold setCaller. destruct (Nat.eqb j i).
    + intros E. now apply Hc in E.
    + apply Hl.
  - intros j k b. unfold setCaller.
    destruct (Nat.eqb j i); [intros E; now apply Hc in E|].
    destruct (Nat.eqb k i); [intros _ E; now apply Hc in E|].
    apply Hu.
Qed.

Lemma wf_step (w : World) (ev : Event) : wf w -> wf (step w ev).
Proof.
  intros Hw. destruct ev as [i t|i t|i|i t|b t|t]; simpl.
  - destruct (callers w i) eqn:Ei; try exact Hw. unfold acquireStart.
    destruct (takeAvailable t (pool w)) as [[b p']|] eqn:T.
    + apply wf_withCaller; [|discriminate].
      destruct Hw as (Hnd & Hrest). unfold ids in Hnd.
      apply wf_withPool; [split; assumption | |];
        rewrite (takeAvailable_ids _ _ _ _ T);
        [exact Hnd | apply incl_refl].
    + destruct (Z.of_nat (List.length (pool w)) <? maxSize w).
      * destruct Hw as (Hnd & Hlt & Hl & Hu). unfold wf, ids. simpl.
        split; [exact Hnd|]. split.
        { intros b Hb. apply Hlt in Hb. lia. }
        split.
        { intros j b. unfold setCaller. destruct (Nat.eqb j i).
          - intros [= <-]. split; [lia|]. intros Hin. apply Hlt in Hin. lia.
          - intros Hj. destruct (Hl _ _ Hj). split; [lia | assumption]. }
        intros j k b. unfold setCaller.
        destruct (Nat.eqb_spec j i) as [->|Hj],
                 (Nat.eqb_spec k i) as [->|Hk].
        -- reflexivity.
        -- intros [= <-] Hk'. apply Hl in Hk'. lia.
        -- intros Hj' [= <-]. apply Hl in Hj'. lia.
        -- apply Hu.
      * apply wf_withCaller; [exact Hw | discriminate].
  - unfold acquireResume. destruct (callers w i) eqn:Ei; try exact Hw.
    destruct Hw as (Hnd & Hlt & Hl & Hu).
    destruct (Hl _ _ Ei) as [Hb Hfresh].
    unfold wf, ids. simpl. rewrite map_app. simpl. split.
    { apply NoDup_app; [exact Hnd | repeat constructor; intros [] |].
      intros a Ha [<-|[]]. now apply Hfresh. }
    split.
    { intros a Ha. apply in_app_or in Ha.
      destruct Ha as [Ha|[<-|[]]]; [now apply Hlt | exact Hb]. }
    split.
    { intros j a. unfold setCaller.
      destruct (Nat.eqb_spec j i) as [->|Hj]; [discriminate|].
      intros Hj'. destruct (Hl _ _ Hj') as [H1 H2]. split; [exact H1|].
      intros Hin. apply in_app_or in Hin.
      destruct Hin as [Hin|[<-|[]]]; [now apply H2|].
      apply Hj. exact (Hu _ _ _ Hj' Ei). }
    intros j k a. unfold setCaller.
    destruct (Nat.eqb j i); [discriminate|].
    destruct (Nat.eqb k i); [discriminate|]. apply Hu.
  - destruct (callers w i); try exact Hw.
    apply wf_withCaller; [exact Hw | discriminate].
  - unfold pollTick. destruct (callers w i) eqn:Ei; try exact Hw.
    destruct (takeAvailable t (pool w)) as [[b p']|] eqn:T; [|exact Hw].
    apply wf_withCaller; [|discriminate].
    destruct Hw as (Hnd & Hrest). unfold ids in Hnd.
    apply wf_withPool; [split; assumption | |];
      rewrite (takeAvailable_ids _ _ _ _ T);
      [exact Hnd | apply incl_refl].
  - unfold release. destruct Hw as (Hnd & Hrest). unfold ids in Hnd.
    apply wf_withPool; [split; assumption | |];
      rewrite releaseIn_ids; [exact Hnd | apply incl_refl].
  - unfold sweep. destruct Hw as (Hnd & Hrest). unfold ids in Hnd.
    apply wf_withPool; [split; assumption | |].
    + now apply NoDup_map_filter.
    + intros a Ha. apply in_map_iff in Ha. destruct Ha as [x [Ex Hx]].
      apply filter_In in Hx. apply in_map_iff. exists x. tauto.
Qed.

Lemma wf_run (evs : list Event) (w : World) : wf w -> wf (run w evs).
Proof.
  revert w. induction evs as [|ev evs IH]; intros w Hw; [exact Hw|].
  simpl. apply IH. now apply wf_step.
Qed.

(** X5. Along every schedule of a pool, concurrent ones included, the
    browsers of the pool are pairwise distinct, and whenever an
    [acquire()] resolves with a browser, that browser was not in use
    just before and is marked in use from then on: no browser is handed
    to a caller while another caller holds it. *)
Theorem acquire_exclusive (m t : Z) (evs : list Event) :
  let w := run (create m t) evs in
  NoDup (ids w) /\
  forall ev i b,
    callers w i <> Resolved b -> callers (step w ev) i = Resolved b ->
    busy w b = false /\ busy (step w ev) b = true.
Proof.
  cbv zeta. set (w := run (create m t) evs).
  assert (Hw : wf w) by (apply wf_run, wf_create).
  split; [apply Hw|]. intros ev i b Hbefore Hafter.
  destruct Hw as (Hnd & Hlt & Hl & Hu). unfold busy.
  destruct ev as [j u|j u|j|j u|b' u|u]; simpl in *.
  - destruct (callers w j) eqn:Ej; try contradiction.
    unfold acquireStart in *.
    destruct (takeAvailable u (pool w)) as [[b0 p']|] eqn:T.
    + simpl in *. unfold setCaller in Hafter.
      destruct (Nat.eqb j i) eqn:E; [|].
      * rewrite Nat.eqb_sym, E in Hafter. injection Hafter as ->.
        exact (takeAvailable_grant _ _ _ _ Hnd T).
      * rewrite Nat.eqb_sym, E in Hafter. contradiction.
    + destruct (Z.of_nat (List.length (pool w)) <? maxSize w);
        simpl in *; unfold setCaller in Hafter;
        destruct (Nat.eqb i j); (discriminate || contradiction).
  - unfold acquireResume in *.
    destruct (callers w j) eqn:Ej; try contradiction.
    simpl in *. unfold setCaller in Hafter.
    destruct (Nat.eqb i j); [|contradiction].
    injection Hafter as ->. destruct (Hl _ _ Ej) as [_ Hfresh].
    split; [now apply busyIn_notin|].
    rewrite busyIn_app, busyIn_cons. simpl. rewrite Nat.eqb_refl.
    apply orb_true_r.
  - destruct (callers w j) eqn:Ej; try contradiction.
    simpl in *. unfold setCaller in Hafter.
    destruct (Nat.eqb i j); (discriminate || contradiction).
  - unfold pollTick in *.
    destruct (callers w j) eqn:Ej; try contradiction.
    destruct (takeAvailable u (pool w)) as [[b0 p']|] eqn:T;
      [|contradiction].
    simpl in *. unfold setCaller in Hafter.
    destruct (Nat.eqb i j); [|contradiction].
    injection Hafter as ->.
    exact (takeAvailable_grant _ _ _ _ Hnd T).
  - contradiction.
  - contradiction.
Qed.

Lemma acquire_exclusive_witness :
  callers (run (create 3 60000) [Call 0 0]) 0%nat <> Resolved 0%nat /\
  busy (run (create 3 60000) [Call 0 0]) 0%nat = false /\
  busy (step (run (create 3 60000) [Call 0 0]) (Launched 0 900)) 0%nat = true.
Proof.
  split; [discriminate|].
  apply (proj2 (acquire_exclusive 3 60000 [Call 0 0]) (Launched 0 900) 0%nat 0%nat);
    [discriminate | reflexivity].
Defined.

(** X6. A browser in use stays in the pool and in use whatever happens
    next, until it is released: no other [acquire()] receives it, no
    [release] of another browser frees it, and the cleanup timer does
    not close it. *)
Theorem held_until_released (w : World) (ev : Event) (b : Browser) :
  busy w b = true -> (forall t, ev <> Release b t) ->
  busy (step w ev) b = true.
Proof.
  unfold busy. intros Hb Hev.
  destruct ev as [j u|j u|j|j u|b' u|u]; simpl.
  - destruct (callers w j); try exact Hb. unfold acquireStart.
    destruct (takeAvailable u (pool w)) as [[b0 p']|] eqn:T.
    + simpl. exact (takeAvailable_keeps _ _ _ _ _ T Hb).
    + now destruct (Z.of_nat (List.length (pool w)) <? maxSize w).
  - unfold acquireResume. destruct (callers w j); try exact Hb.
    simpl. rewrite busyIn_app, Hb. reflexivity.
  - now destruct (callers w j).
  - unfold pollTick. destruct (callers w j); try exact Hb.
    destruct (takeAvailable u (pool w)) as [[b0 p']|] eqn:T; [|exact Hb].
    simpl. exact (takeAvailable_keeps _ _ _ _ _ T Hb).
  - rewrite releaseIn_other; [exact Hb|].
    intros E. apply (Hev u). now rewrite E.
  - apply filter_keeps_busy; [|exact Hb].
    intros pb Hu. now rewrite Hu.
Qed.

Lemma held_until_released_witness :
  busy heldPool 0%nat = true /\
  busy (step heldPool (Sweep 10000000)) 0%nat = true.
Proof.
  split; [reflexivity|].
  apply (held_until_released heldPool (Sweep 10000000) 0%nat);
    [reflexivity | discriminate].
Defined.

Lemma release_then_take (b : Browser) (t1 t2 : Z) (p : list PooledBrowser) :
  forallb inUse p = true -> In b (map browser p) ->
  exists p', takeAvailable t2 (releaseIn b t1 p) = Some (b, p') /\
             busyIn p' b = true /\ List.length p' = List.length p.
Proof.
  induction p as [|pb rest IH]; simpl; intros Hall Hin; [contradiction|].
  apply andb_true_iff in Hall. destruct Hall as [Hu Hall].
  destruct (Nat.eqb_spec (browser pb) b) as [E|E].
  - subst b. simpl. eexists. split; [reflexivity|]. rewrite busyIn_cons.
    simpl. rewrite Nat.eqb_refl. split; reflexivity.
  - destruct Hin as [Hin|Hin]; [contradiction|].
    destruct (IH Hall Hin) as [p' [T [Hb Hlen]]].
    simpl. rewrite Hu, T. simpl. eexists. split; [reflexivity|].
    rewrite busyIn_cons, Hb. simpl. split; [apply orb_true_r | now rewrite Hlen].
Qed.

Lemma ticks_wait (i : nat) (ticks : list Z) (w : World) :
  callers w i = Polling -> forallb inUse (pool w) = true ->
  run w (map (Tick i) ticks) = w.
Proof.
  intros Hc Hall. induction ticks as [|u ticks IH]; [reflexivity|].
  simpl. unfold pollTick. now rewrite Hc, (takeAvailable_none _ _ Hall).
Qed.

(** X7. A caller that finds every browser in use and the pool at its
    capacity launches nothing and waits, through any number of polls,
    as long as nothing is released; once a browser of the pool is
    released, the caller's next poll resolves its [acquire()] with that
    browser, without any launch and without growing the pool. *)
Theorem waiter_served_on_release (w : World) (i : nat) (b : Browser)
    (t t1 t2 : Z) (ticks : list Z) :
  callers w i = Idle -> forallb inUse (pool w) = true ->
  maxSize w <= size w -> In b (ids w) ->
  let waiting := run (step w (Call i t)) (map (Tick i) ticks) in
  let served := run waiting [Release b t1; Tick i t2] in
  (callers waiting i = Polling /\ pool waiting = pool w /\
   launches waiting = launches w) /\
  (callers served i = Resolved b /\ busy served b = true /\
   size served = size w /\ launches served = launches w).
Proof.
  intros Hidle Hall Hfull Hin.
  assert (Hcall : step w (Call i t) = withCaller w i Polling).
  { simpl. rewrite Hidle. unfold acquireStart.
    rewrite (takeAvailable_none _ _ Hall).
    unfold size in Hfull.
    destruct (Z.of_nat (List.length (pool w)) <? maxSize w) eqn:E;
      [apply Z.ltb_lt in E; lia | reflexivity]. }
  cbv zeta. rewrite Hcall.
  rewrite ticks_wait; [|simpl; apply setCaller_same | exact Hall].
  split; [split; [apply setCaller_same | split; reflexivity]|].
  destruct (release_then_take b t1 t2 (pool w) Hall Hin)
    as [p' [T [Hb Hlen]]].
  simpl. unfold pollTick. simpl. rewrite setCaller_same, T. simpl.
  rewrite setCaller_same. unfold busy, size. simpl.
  rewrite Hlen. repeat split; auto.
Qed.

Lemma waiter_served_on_release_witness :
  callers (run (run (step heldPool (Call 1 1000)) (map (Tick 1) [1100; 1200]))
               [Release 0%nat 1250; Tick 1 1300]) 1%nat
    = Resolved 0%nat.
Proof.
  apply (waiter_served_on_release heldPool 1%nat 0%nat 1000 1250 1300
           [1100; 1200]).
  - reflexivity.
  - reflexivity.
  - vm_compute. discriminate.
  - simpl. now left.
Defined.

Lemma maxSize_run (evs : list Event) (w : World) :
  maxSize (run w evs) = maxSize w.
Proof.
  revert w. induction evs as [|ev evs IH]; intros w; [reflexivity|].
  simpl. now rewrite IH, maxSize_step.
Qed.

(** X8. When every [acquire()] is awaited before the next call, release
    or timer runs, a pool created with capacity [m] never holds more
    than [m] browsers. *)
Theorem awaited_acquires_bounded (m t : Z) (evs : list Event) :
  0 <= m -> sequential evs -> size (run (create m t) evs) <= m.
Proof.
  intros Hm Hseq.
  destruct (sequential_bound evs Hseq (create m t)) as [_ Hs].
  - intros i b. discriminate.
  - simpl. exact Hm.
  - now rewrite maxSize_run in Hs.
Qed.

Lemma awaited_acquires_bounded_witness :
  size (run (create 1 60000)
            [Call 0 0; Launched 0 900; Call 1 1000; LaunchFailed 1;
             Tick 1 1100; Release 0%nat 1200; Tick 1 1300; Sweep 30000]) <= 1.
Proof.
  apply awaited_acquires_bounded; [lia|].
  repeat constructor.
Defined.

Lemma sweep_entry (b : Browser) (t now limit : Z) (p : list PooledBrowser) :
  NoDup (map browser p) -> In b (map browser p) ->
  (In b (map browser
           (filter (fun pb => negb (negb (inUse pb)
                                    && (limit <? now - lastUsed pb)))
                   (releaseIn b t p)))
   <-> now - t <= limit).
Proof.
  induction p as [|pb rest IH]; simpl; intros Hnd Hin; [contradiction|].
  apply NoDup_cons_iff in Hnd. destruct Hnd as [Hnotin Hnd].
  destruct (Nat.eqb_spec (browser pb) b) as [E|E].
  - simpl. rewrite E in Hnotin.
    assert (Hrest : forall keep, ~ In b (map browser (filter keep rest))).
    { intros keep Hb. apply Hnotin. apply in_map_iff in Hb.
      destruct Hb as [x [Ex Hx]]. apply filter_In in Hx.
      apply in_map_iff. exists x. tauto. }
    destruct (limit <? now - t) eqn:L; simpl.
    + apply Z.ltb_lt in L. split; [intros Hb; now apply Hrest in Hb | lia].
    + apply Z.ltb_ge in L. split; [intros _; exact L | intros _; now left].
  - destruct Hin as [Hin|Hin]; [contradiction|].
    simpl. destruct (negb _); simpl; [|now apply IH].
    rewrite <- (IH Hnd Hin). split; [intros [F|H]; [contradiction | exact H]|].
    intros H. now right.
Qed.

(** X9. A browser of the pool that is released at time [t] is still in
    the pool after the cleanup timer fires at time [now] exactly when
    it has been idle for at most the idle timeout; the cleanup never
    grows the pool. *)
Theorem released_browser_kept_while_fresh (w : World) (b : Browser)
    (t now : Z) :
  NoDup (ids w) -> In b (ids w) ->
  let w' := run w [Release b t; Sweep now] in
  (In b (ids w') <-> now - t <= idleTimeout w) /\ size w' <= size w.
Proof.
  intros Hnd Hin. cbv zeta. unfold ids, size. simpl. split.
  - now apply sweep_entry.
  - pose proof (filter_length_le
                  (fun pb => negb (negb (inUse pb)
                                   && (idleTimeout w <? now - lastUsed pb)))
                  (releaseIn b t (pool w))) as H.
    rewrite (releaseIn_length b t (pool w)) in H. lia.
Qed.

Lemma released_browser_kept_while_fresh_witness :
  (In 0%nat (ids (run heldPool [Release 0%nat 1000; Sweep 61000]))
   <-> 61000 - 1000 <= idleTimeout heldPool) /\
  size (run heldPool [Release 0%nat 1000; Sweep 61000]) <= size heldPool.
Proof.
  apply (released_browser_kept_while_fresh heldPool 0%nat 1000 61000).
  - repeat constructor. intros [].
  - simpl. now left.
Defined.

End PoolUse.

Section PoolRelease.
Import BrowserPool BrowserPoolMore.

Lemma releaseIn_unknown (b : Browser) (now : Z) (p : list PooledBrowser) :
  ~ In b (map browser p) -> releaseIn b now p = p.
Proof.
  induction p as [|pb rest IH]; simpl; intros H; [reflexivity|].
  destruct (Nat.eqb_spec (browser pb) b) as [E|E].
  - exfalso. apply H. now left.
  - rewrite IH; [reflexivity|]. intros Hin. apply H. now right.
Qed.

Lemma releaseIn_frees (b : Browser) (now : Z) (p : list PooledBrowser) :
  NoDup (map browser p) -> busyIn (releaseIn b now p) b = false.
Proof.
  induction p as [|pb rest IH]; simpl; intros Hnd; [reflexivity|].
  apply NoDup_cons_iff in Hnd. destruct Hnd as [Hnot Hnd].
  destruct (Nat.eqb_spec (browser pb) b) as [E|E].
  - rewrite busyIn_cons. simpl. rewrite andb_false_r. simpl.
    apply busyIn_notin. now rewrite <- E.
  - rewrite busyIn_cons, (IH Hnd).
    replace (Nat.eqb (browser pb) b) with false; [reflexivity|].
    symmetry. now apply Nat.eqb_neq.
Qed.

(** X26. [release] changes nothing but the entry of the released
    browser: the pool keeps its browsers and their order, every other
    browser stays as busy as it was, and in a pool of pairwise distinct
    browsers the released one is free afterwards.  Releasing a browser
    that is not in the pool, in particular any browser after
    [closeAll], leaves the pool exactly as it was. *)
Theorem release_only_frees (w : World) (b : Browser) (t : Z) :
  ids (release w b t) = ids w /\
  launches (release w b t) = launches w /\
  (forall b', b' <> b -> busy (release w b t) b' = busy w b') /\
  (NoDup (ids w) -> busy (release w b t) b = false) /\
  (~ In b (ids w) -> release w b t = w) /\
  (pool (closeAll w) = [] /\ release (closeAll w) b t = closeAll w).
Proof.
  unfold release, closeAll, ids, busy. simpl.
  split; [apply releaseIn_ids|]. split; [reflexivity|].
  split; [intros b' Hb'; apply releaseIn_other; congruence|].
  split; [apply releaseIn_frees|]. split.
  - intros Hnot. rewrite (releaseIn_unknown _ _ _ Hnot). now destruct w.
  - split; reflexivity.
Qed.

Lemma release_only_frees_witness :
  release heldPool 7%nat 5000 = heldPool /\
  busy (release heldPool 0%nat 5000) 0%nat = false.
Proof.
  split.
  - apply (release_only_frees heldPool 7%nat 5000).
    simpl. intros [H|[]]. discriminate H.
  - apply (release_only_frees heldPool 0%nat 5000).
    repeat constructor. intros [].
Defined.

End PoolRelease.

(* ================================================================== *)
(** * PageRenderer.ts: no browser is left behind                       *)
(* ================================================================== *)

Section RenderBrowsers.
Import Js PageRenderer PageRendererMore.

Lemma leakFree_attempt (usePool : bool) (a : Attempt) (rest : list Event) :
  leakFree false (fst (runAttempt usePool a) ++ rest)%list
    = leakFree false rest.
Proof.
  unfold runAttempt.
  destruct usePool, (acquire a), (launch a), (page a), (close a);
    reflexivity.
Qed.

Lemma allowed_attempt (usePool : bool) (a : Attempt) :
  forallb (allowed usePool) (fst (runAttempt usePool a)) = true.
Proof.
  unfold runAttempt.
  destruct usePool, (acquire a), (launch a), (page a), (close a);
    reflexivity.
Qed.

Lemma renderLoop_leakFree (usePool : bool) (url : string)
    (script : Z -> Attempt) (remaining : nat) :
  forall attempt lastError,
    let tr := fst (renderLoop usePool url script remaining attempt lastError) in
    leakFree false tr = true /\ forallb (allowed usePool) tr = true.
Proof.
  induction remaining as [|k IH]; intros attempt lastError; cbv zeta.
  - split; reflexivity.
  - cbn [renderLoop].
    pose proof (leakFree_attempt usePool (script attempt)) as Hl.
    pose proof (allowed_attempt usePool (script attempt)) as Ha.
    destruct (runAttempt usePool (script attempt)) as [evs res].
    cbn [fst] in Hl, Ha.
    destruct res as [e|e|r].
    + cbn [fst leakFree forallb allowed negb andb].
      rewrite <- (app_nil_r evs), Hl. now rewrite app_nil_r, Ha.
    + specialize (IH (attempt + 1) (Some e)). cbv zeta in IH.
      destruct (renderLoop usePool url script k (attempt + 1) (Some e))
        as [rest out].
      cbn [fst] in IH |- *. destruct IH as [IH1 IH2].
      cbn [leakFree forallb allowed negb andb]. rewrite Hl.
      rewrite !forallb_app, Ha, IH2.
      destruct (attempt <? MAX_ATTEMPTS - 1);
        cbn [app leakFree forallb allowed negb andb]; now rewrite IH1.
    + cbn [fst leakFree forallb allowed negb andb].
      rewrite <- (app_nil_r evs), Hl. now rewrite app_nil_r, Ha.
Qed.

(** X10. Whatever the page, the pool and the browser do, a call of
    [renderPageToMarkdown] gives back every browser it obtains: a
    pooled browser is released and a launched one closed within the
    attempt that obtained it, before the back-off delay and before the
    next attempt, so none is held when the call returns or throws; a
    call that uses the pool launches and closes no browser, a call that
    does not use it never touches the pool, and a PDF is served without
    any browser. *)
Theorem renderPageToMarkdown_holds_no_browser (env : Env) (url : string)
    (usePool : bool) :
  let tr := fst (renderPageToMarkdown env url usePool) in
  leakFree false tr = true /\
  forallb (allowed usePool) tr = true /\
  (isPdf env = true -> tr = []).
Proof.
  cbv zeta. unfold renderPageToMarkdown. destruct (isPdf env).
  - destruct (parsePdf env); repeat split; reflexivity.
  - destruct (renderLoop_leakFree usePool url (script env)
                (Z.to_nat MAX_ATTEMPTS) 0 None) as [H1 H2].
    split; [exact H1|]. split; [exact H2 | discriminate].
Qed.

Lemma renderPageToMarkdown_holds_no_browser_witness :
  fst (renderPageToMarkdown
         {| isPdf := true; parsePdf := inr "# Report"; script := failing |}
         "https://example.com/report.pdf" true) = [].
Proof.
  apply (proj2 (proj2 (renderPageToMarkdown_holds_no_browser
                         {| isPdf := true; parsePdf := inr "# Report";
                            script := failing |}
                         "https://example.com/report.pdf" true))).
  reflexivity.
Defined.



End RenderBrowsers.

(* ================================================================== *)
(** * index.ts: ranking of the results                                 *)
(* ================================================================== *)

Section SortFacts.
Import Permutation Sorted JsExtra.
Context {A : Type}.
Variables (key : A -> Z) (compare : A -> A -> Z).
Hypothesis compare_key : forall a b, compare a b = key b - key a.

Lemma insertSorted_perm (x : A) (l : list A) :
  Permutation (insertSorted compare x l) (x :: l).
Proof.
  induction l as [|y rest IH]; simpl; [apply Permutation_refl|].
  destruct (compare x y <=? 0); [apply Permutation_refl|].
  apply Permutation_trans with (y :: x :: rest).
  - now apply perm_skip.
  - apply perm_swap.
Qed.

Lemma sort_perm (l : list A) : Permutation (sort compare l) l.
Proof.
  unfold sort. induction l as [|x l IH]; simpl; [apply Permutation_refl|].
  apply Permutation_trans with (x :: fold_right (insertSorted compare) [] l).
  - apply insertSorted_perm.
  - now apply perm_skip.
Qed.

Lemma insertSorted_sorted (x : A) (l : list A) :
  StronglySorted (fun a b => key b <= key a) l ->
  StronglySorted (fun a b => key b <= key a) (insertSorted compare x l).
Proof.
  induction l as [|y rest IH]; simpl; intros Hs.
  - constructor; constructor.
  - inversion Hs as [|? ? Hrest Hall]; subst.
    destruct (compare x y <=? 0) eqn:E.
    + apply Z.leb_le in E. rewrite compare_key in E.
      constructor; [exact Hs|]. constructor; [lia|].
      eapply Forall_impl; [|exact Hall]. simpl. intros b Hb. lia.
    + apply Z.leb_gt in E. rewrite compare_key in E.
      constructor; [now apply IH|].
      apply (Permutation_Forall (Permutation_sym (insertSorted_perm x rest))).
      constructor; [lia | exact Hall].
Qed.

Lemma sort_sorted (l : list A) :
  StronglySorted (fun a b => key b <= key a) (sort compare l).
Proof.
  unfold sort. induction l as [|x l IH]; simpl; [constructor|].
  now apply insertSorted_sorted.
Qed.

Lemma insertSorted_stable (n : Z) (x : A) (l : list A) :
  filter (fun r => key r =? n) (insertSorted compare x l)
    = filter (fun r => key r =? n) (x :: l).
Proof.
  induction l as [|y rest IH]; [reflexivity|].
  cbn [insertSorted]. destruct (compare x y <=? 0) eqn:E; [reflexivity|].
  apply Z.leb_gt in E. rewrite compare_key in E.
  cbn [filter] in *. rewrite IH.
  destruct (key y =? n) eqn:Ey, (key x =? n) eqn:Ex; try reflexivity.
  apply Z.eqb_eq in Ey, Ex. lia.
Qed.

Lemma sort_stable (n : Z) (l : list A) :
  filter (fun r => key r =? n) (sort compare l)
    = filter (fun r => key r =? n) l.
Proof.
  unfold sort. induction l as [|x l IH]; [reflexivity|].
  cbn [fold_right]. rewrite insertSorted_stable. cbn [filter].
  now rewrite IH.
Qed.

Lemma sorted_below (c : Z) (y : A) (l : list A) :
  key y < c -> Forall (fun b => key b <= key y) l ->
  filter (fun r => c <=? key r) l = [].
Proof.
  intros Hy Hall. induction Hall as [|b l Hb _ IH]; [reflexivity|].
  cbn [filter]. replace (c <=? key b) with false; [exact IH|].
  symmetry. apply Z.leb_gt. lia.
Qed.

(** In a list sorted by decreasing key, the elements with a key of at
    least [c] are the first ones. *)
Lemma sorted_threshold (c : Z) (l : list A) :
  StronglySorted (fun a b => key b <= key a) l ->
  forall j item,
    nth_error l j = Some item ->
    (c <= key item
     <-> (j < List.length (filter (fun r => (c <=? key r)%Z) l))%nat).
Proof.
  induction 1 as [|y rest Hs IH Hall]; intros j item Hj.
  - destruct j; discriminate.
  - cbn [filter]. destruct (c <=? key y) eqn:E.
    + apply Z.leb_le in E. destruct j as [|j]; simpl in Hj.
      * injection Hj as <-. simpl. split; [lia | intros _; exact E].
      * simpl. rewrite (IH _ _ Hj). lia.
    + apply Z.leb_gt in E. rewrite (sorted_below c y rest E Hall).
      simpl. split; [|lia]. intros Hc. exfalso.
      destruct j as [|j]; simpl in Hj.
      * injection Hj as <-. lia.
      * apply nth_error_In in Hj.
        rewrite Forall_forall in Hall. specialize (Hall _ Hj). lia.
Qed.

Lemma sorted_prefix (c : Z) (l : list A) :
  StronglySorted (fun a b => key b <= key a) l ->
  filter (fun r => c <=? key r) l
    = firstn (List.length (filter (fun r => c <=? key r) l)) l.
Proof.
  induction 1 as [|y rest Hs IH Hall]; [reflexivity|].
  cbn [filter]. destruct (c <=? key y) eqn:E.
  - simpl. now rewrite <- IH.
  - apply Z.leb_gt in E. now rewrite (sorted_below c y rest E Hall).
Qed.

End SortFacts.

Section Ranking.
Import Permutation Sorted Js JsExtra Index IndexMore.

Lemma getConfidenceLevel_high (n : Z) :
  getConfidenceLevel n = "High" <-> 3 <= n.
Proof.
  unfold getConfidenceLevel. destruct (3 <=? n) eqn:E3.
  - apply Z.leb_le in E3. tauto.
  - apply Z.leb_gt in E3. destruct (2 <=? n); split; (discriminate || lia).
Qed.

(** X12. The listing of [renderSearchOutput] shows every result once,
    by decreasing number of sources, results with the same number of
    sources in the order of the aggregation; the results with three or
    more sources are exactly the first ones of the listing, so the
    numbers #1, #2, ... of the guidance line are the numbers of the
    headings labelled High. *)
Theorem renderSearchOutput_ranking (results : list AggregatedResult.t) :
  let sorted := sortedResults results in
  let count := fun r => len (AggregatedResult.sources r) in
  let k := List.length (highConfidence sorted) in
  Permutation sorted results /\
  StronglySorted (fun a b => count b <= count a) sorted /\
  (forall n, filter (fun r => count r =? n) sorted
             = filter (fun r => count r =? n) results) /\
  highConfidence sorted = firstn k sorted /\
  (forall j item,
      nth_error sorted j = Some item ->
      (getConfidenceLevel (count item) = "High" <-> (j < k)%nat)).
Proof.
  cbv zeta. unfold sortedResults, highConfidence.
  set (count := fun r => len (AggregatedResult.sources r)).
  assert (Hc : forall a b, bySources a b = count b - count a)
    by reflexivity.
  pose proof (sort_sorted count bySources Hc results) as Hs.
  split; [apply sort_perm|]. split; [exact Hs|].
  split; [intros n; apply (sort_stable count bySources Hc)|].
  split; [apply (sorted_prefix count 3 _ Hs)|].
  intros j item Hj. rewrite getConfidenceLevel_high.
  apply (sorted_threshold count 3 _ Hs _ _ Hj).
Qed.

End Ranking.

(* ================================================================== *)
(** * index.ts: the tool handlers                                      *)
(* ================================================================== *)

Section FetchTool.
Import Js JsExtra Index IndexMore.

Lemma includes_app_r (t a b : string) :
  includes t b = true -> includes t (a ++ b) = true.
Proof.
  intros H. induction a as [|c a IH]; [exact H|].
  cbn [append includes]. rewrite IH. apply orb_true_r.
Qed.

(** X13. When the page is rendered, the [fetch] tool answers, without
    error, with the page cut by [truncateMarkdown]: at most 40,017
    characters.  The page is reported as truncated exactly when the
    rendered Markdown was longer than 40,000 characters or contains the
    words of the truncation marker itself: every cut is reported, and so
    is an uncut page that happens to contain those words. *)
Theorem fetch_truncated_flag (page : PageRenderer.PageRenderResult)
    (url now : string) :
  let markdown := PageRenderer.markdown page in
  let shown := truncateMarkdown markdown DEFAULT_LIMIT in
  let metadata := fetchMetadata shown now in
  let answer := fetchTool (Return page) url now in
  (isError answer = false /\
   structuredContent answer
     = Some {| fetchedUrl := url; fetchedMarkdown := shown |} /\
   content answer = [renderFetchOutput url url shown metadata]) /\
  (truncated metadata = true
   <-> 40000 < strlen markdown \/ isTruncated markdown = true) /\
  contentLength metadata <= 40017 /\
  (strlen markdown <= 40000 -> contentLength metadata = strlen markdown).
Proof.
  cbv zeta. split; [repeat split|].
  set (markdown := PageRenderer.markdown page).
  cbn [fetchMetadata truncated contentLength].
  destruct (Z_le_gt_dec (strlen markdown) 40000) as [Hle|Hgt].
  - rewrite (truncateMarkdown_short markdown DEFAULT_LIMIT Hle).
    split; [|split; [lia | reflexivity]].
    split; [intros H; now right | intros [H|H]; [lia | exact H]].
  - destruct (truncateMarkdown_long markdown DEFAULT_LIMIT)
      as (head & rest & _ & Hlen & ->); [unfold DEFAULT_LIMIT; lia|].
    split; [|split; [|lia]].
    + split; [intros _; left; lia | intros _].
      unfold isTruncated. now apply includes_app_r.
    + rewrite strlen_append, Hlen. unfold DEFAULT_LIMIT.
      vm_compute. discriminate.
Qed.

Lemma fetch_truncated_flag_witness :
  contentLength (fetchMetadata
                   (truncateMarkdown "see ... (truncated) above" DEFAULT_LIMIT)
                   "2025-01-01T00:00:00.000Z")
    = strlen "see ... (truncated) above".
Proof.
  apply (fetch_truncated_flag
           {| PageRenderer.html := "<p>see ... (truncated) above</p>";
              PageRenderer.markdown := "see ... (truncated) above" |}
           "https://example.com/" "2025-01-01T00:00:00.000Z").
  vm_compute. discriminate.
Defined.

End FetchTool.

Section SearchTool.
Import Js JsExtra Index IndexMore SearchAggregator Aggregation.
Context {api : UrlApi}.

Lemma filter_split_length {A : Type} (p : A -> bool) (l : list A) :
  (List.length (filter p l) + List.length (filter (fun x => negb (p x)) l)
   = List.length l)%nat.
Proof.
  induction l as [|x l IH]; simpl; [reflexivity|].
  destruct (p x); simpl; lia.
Qed.

(** X14. The [search] tool never answers with an error: the count shown
    as [Engines: k/7 succeeded] is the number of adapters of the table
    whose search returned, between 0 and 7, and the engine-error block
    is part of the answer exactly when some adapter failed. *)
Theorem searchTool_engines (ad : Adapters) (query : string)
    (region : option string) (now : string) :
  let answer := searchTool ad query region now in
  let regionCode := regionCodeOf region in
  let returned := fun entry =>
    match search (engine entry) query (Some regionCode) with
    | Return _ => true
    | Throw _ => false
    end in
  let succeeded := len (filter returned (engines ad)) in
  exists found,
    searchAllEngines ad query (Some regionCode) = Return found /\
    isError answer = false /\
    0 <= succeeded <= 7 /\
    content answer
      = (renderSearchOutput (results found)
           {| IndexMore.query := query; IndexMore.region := regionCode;
              enginesSucceeded := succeeded; timestamp := now |}
         :: (if succeeded <? 7
             then [errorBlock "engine-errors" (engineErrors found)]
             else []))%list.
Proof.
  cbv zeta. set (regionCode := regionCodeOf region).
  set (returned := fun entry =>
         match search (engine entry) query (Some regionCode) with
         | Return _ => true
         | Throw _ => false
         end).
  eexists. split; [apply searchAllEngines_value|].
  unfold searchTool. fold regionCode. rewrite searchAllEngines_value.
  cbn [results engineErrors isError content searchMetadata].
  pose proof (failures_count query (Some regionCode) (engines ad)) as Hf.
  pose proof (filter_split_length returned (engines ad)) as Hs.
  assert (Hneg : filter (fun x => negb (returned x)) (engines ad)
                 = filter (fun entry =>
                             match search (engine entry) query
                                          (Some regionCode) with
                             | Throw _ => true
                             | Return _ => false
                             end) (engines ad)).
  { apply filter_ext. intros entry. unfold returned.
    now destruct (search (engine entry) query (Some regionCode)). }
  rewrite Hneg, <- Hf in Hs. clear Hneg Hf.
  change (List.length (engines ad)) with 7%nat in Hs.
  assert (E : ENGINES_COUNT
              - len (failures query (Some regionCode) (engines ad))
              = len (filter returned (engines ad)))
    by (unfold ENGINES_COUNT, len; lia).
  unfold searchMetadata. rewrite E.
  split; [reflexivity|]. split; [unfold len; lia|].
  cbn [app]. f_equal.
  destruct (len (filter returned (engines ad)) <? 7) eqn:L.
  - apply Z.ltb_lt in L.
    replace (0 <? len (failures query (Some regionCode) (engines ad)))
      with true; [reflexivity|].
    symmetry. apply Z.ltb_lt. unfold len in *. lia.
  - apply Z.ltb_ge in L.
    replace (0 <? len (failures query (Some regionCode) (engines ad)))
      with false; [reflexivity|].
    symmetry. apply Z.ltb_ge. unfold len in *. lia.
Qed.

End SearchTool.

(* ================================================================== *)
(** * index.ts: rendering of the first results                         *)
(* ================================================================== *)

Section CollectRendered.
Import Js JsExtra Index IndexMore.

Lemma entries_app {A : Type} (index : Z) (xs ys : list A) :
  entries index (xs ++ ys)%list
    = (entries index xs ++ entries (index + len xs) ys)%list.
Proof.
  revert index. induction xs as [|x xs IH]; intros index.
  - simpl. now rewrite Z.add_0_r.
  - cbn [app entries]. rewrite IH. do 3 f_equal. unfold len. simpl length. lia.
Qed.

Lemma entries_length {A : Type} (index : Z) (l : list A) :
  List.length (entries index l) = List.length l.
Proof.
  revert index. induction l as [|x l IH]; intros index; simpl; auto.
Qed.

(** The item at [position] after the loop. *)
Lemma renderLoop_spec (render : Renderer) (fetchLimit : Z)
    (items : list AggregatedResult.t) :
  forall start done errors,
    start + len items <= fetchLimit -> 0 <= start ->
    fold_left (renderItem render) (entries start (map enrich items))
              (done, errors)
      = ((done ++ map (fun e => setMarkdown (enrich (snd e))
                                  (markdownAt render fetchLimit (fst e)
                                     (AggregatedResult.url (snd e))))
                      (entries start items))%list,
         (errors ++ flat_map (fetchErrorAt render fetchLimit)
                             (entries start items))%list).
Proof.
  induction items as [|item items IH]; intros start done errors Hlim Hs.
  - simpl. now rewrite !app_nil_r.
  - unfold len in Hlim. simpl length in Hlim.
    cbn [map entries fold_left flat_map].
    assert (Hpos : (start <? fetchLimit) = true) by (apply Z.ltb_lt; lia).
    unfold renderItem at 2. unfold markdownAt at 1. unfold fetchErrorAt at 1.
    cbn [fst snd enrich Enriched.url]. rewrite Hpos.
    destruct (render start (AggregatedResult.url item)) as [page|error].
    + rewrite IH by (unfold len; lia). now rewrite <- !app_assoc.
    + rewrite IH by (unfold len; lia). now rewrite <- !app_assoc.
Qed.

(** The items from [fetchLimit] on are not rendered. *)
Lemma beyond_limit (render : Renderer) (fetchLimit : Z)
    (items : list AggregatedResult.t) :
  forall start, fetchLimit <= start ->
    map (fun e => setMarkdown (enrich (snd e))
                    (markdownAt render fetchLimit (fst e)
                       (AggregatedResult.url (snd e))))
        (entries start items) = map enrich items /\
    flat_map (fetchErrorAt render fetchLimit) (entries start items) = [].
Proof.
  induction items as [|item items IH]; intros start Hs; [split; reflexivity|].
  cbn [entries map flat_map]. unfold markdownAt at 1, fetchErrorAt at 1.
  cbn [fst snd].
  replace (start <? fetchLimit) with false
    by (symmetry; apply Z.ltb_ge; exact Hs).
  destruct (IH (start + 1)) as [H1 H2]; [lia|].
  rewrite H1, H2. split; reflexivity.
Qed.

Lemma truncateMarkdown_bound (markdown : string) :
  strlen (truncateMarkdown markdown DEFAULT_LIMIT) <= 40017.
Proof.
  destruct (Z_le_gt_dec (strlen markdown) 40000) as [Hle|Hgt].
  - rewrite (truncateMarkdown_short markdown DEFAULT_LIMIT Hle). lia.
  - destruct (truncateMarkdown_long markdown DEFAULT_LIMIT)
      as (head & rest & _ & Hlen & ->); [unfold DEFAULT_LIMIT; lia|].
    rewrite strlen_append, Hlen. vm_compute. discriminate.
Qed.

Lemma split_at_limit (render : Renderer) (fetchLimit : Z)
    (rs : list AggregatedResult.t) :
  0 <= fetchLimit ->
  let n := Z.to_nat fetchLimit in
  let shown := fun e : Z * AggregatedResult.t =>
    setMarkdown (enrich (snd e))
      (markdownAt render fetchLimit (fst e) (AggregatedResult.url (snd e))) in
  map shown (entries 0 rs)
    = (map shown (entries 0 (firstn n rs))
       ++ skipn (List.length (firstn n (map enrich rs))) (map enrich rs))%list
  /\ flat_map (fetchErrorAt render fetchLimit) (entries 0 rs)
     = flat_map (fetchErrorAt render fetchLimit) (entries 0 (firstn n rs)).
Proof.
  intros Hlimit n shown.
  destruct (Nat.le_gt_cases n (List.length rs)) as [Hn|Hn].
  - assert (E : entries 0 rs
                = (entries 0 (firstn n rs)
                   ++ entries (0 + len (firstn n rs)) (skipn n rs))%list)
      by (now rewrite <- entries_app, firstn_skipn).
    rewrite E, map_app, flat_map_app.
    destruct (beyond_limit render fetchLimit (skipn n rs)
                (0 + len (firstn n rs))) as [H1 H2].
    { unfold len. rewrite length_firstn, Nat.min_l by exact Hn.
      unfold n. lia. }
    fold shown in H1. rewrite H1, H2, app_nil_r.
    rewrite length_firstn, length_map, Nat.min_l by exact Hn.
    now rewrite skipn_map.
  - rewrite !firstn_all2 by (rewrite ?length_map; lia).
    rewrite skipn_all2 by lia. now rewrite app_nil_r.
Qed.

Lemma collect_value (found : SearchAggregator.AggregatedSearch)
    (render : Renderer) (fetchLimit : Z) :
  0 <= fetchLimit ->
  collectRenderedResults (Return found) render fetchLimit
    = Return
        {| results := SearchAggregator.results found;
           enriched :=
             map (fun e => setMarkdown (enrich (snd e))
                             (markdownAt render fetchLimit (fst e)
                                (AggregatedResult.url (snd e))))
                 (entries 0 (SearchAggregator.results found));
           engineErrors := SearchAggregator.engineErrors found;
           fetchErrors :=
             flat_map (fetchErrorAt render fetchLimit)
                      (entries 0 (SearchAggregator.results found)) |}.
Proof.
  intros Hlimit. unfold collectRenderedResults. cbn [bind].
  set (rs := SearchAggregator.results found).
  destruct (0 <? len rs) eqn:Hany; cbn [negb].
  - destruct (split_at_limit render fetchLimit rs Hlimit) as [H1 H2].
    rewrite H1, H2. unfold sliceTo.
    replace (fetchLimit <? 0) with false by (symmetry; apply Z.ltb_ge; lia).
    rewrite firstn_map at 1.
    rewrite (renderLoop_spec render fetchLimit
               (firstn (Z.to_nat fetchLimit) rs) 0 [] []); [reflexivity| |lia].
    unfold len. rewrite length_firstn. lia.
  - apply Z.ltb_ge in Hany. unfold len in Hany.
    destruct rs as [|r rs']; [reflexivity | simpl in Hany; lia].
Qed.

Lemma entries_nth {A : Type} (l : list A) :
  forall index j,
    nth_error (entries index l) j
      = option_map (fun x => (index + Z.of_nat j, x)) (nth_error l j).
Proof.
  induction l as [|x l IH]; intros index j.
  - now destruct j.
  - destruct j as [|j]; cbn [entries nth_error option_map].
    + now rewrite Z.add_0_r.
    + rewrite IH. destruct (nth_error l j); cbn [option_map]; [|reflexivity].
      do 2 f_equal. lia.
Qed.

Lemma plain_entries (m : Z * AggregatedResult.t -> string)
    (rs : list AggregatedResult.t) :
  forall index,
    map plain (map (fun e => setMarkdown (enrich (snd e)) (m e))
                   (entries index rs)) = rs.
Proof.
  induction rs as [|r rs IH]; intros index; [reflexivity|].
  cbn [entries map]. rewrite IH. now destruct r.
Qed.

Lemma markdownAt_bound (render : Renderer) (fetchLimit position : Z)
    (url : string) :
  strlen (markdownAt render fetchLimit position url) <= 40017.
Proof.
  unfold markdownAt. destruct (position <? fetchLimit); [|vm_compute; discriminate].
  destruct (render position url); [apply truncateMarkdown_bound|].
  vm_compute. discriminate.
Qed.

Lemma fetchErrors_length (render : Renderer) (fetchLimit : Z)
    (l : list (Z * AggregatedResult.t)) :
  (List.length (flat_map (fetchErrorAt render fetchLimit) l)
   <= List.length l)%nat.
Proof.
  induction l as [|e l IH]; [apply Nat.le_refl|].
  cbn [flat_map]. rewrite length_app. unfold fetchErrorAt at 1.
  destruct (fst e <? fetchLimit); simpl; [|lia].
  destruct (render (fst e) (AggregatedResult.url (snd e))); simpl; lia.
Qed.

(** X15. When the search returns, [collectRenderedResults] returns too,
    whatever the pages do: the enriched list holds the results in their
    order with their fields unchanged; the Markdown of a result is the
    truncated rendering of its page when it is one of the first
    [fetchLimit] and its rendering succeeded, and empty otherwise, so
    it never exceeds 40,017 characters; there is one [url: message]
    line per failed rendering, in the order of the results, and at most
    [fetchLimit] of them. *)
Theorem collectRenderedResults_shape
    (search : Completion SearchAggregator.AggregatedSearch)
    (render : Renderer) (fetchLimit : Z)
    (found : SearchAggregator.AggregatedSearch) :
  search = Return found -> 0 <= fetchLimit ->
  exists collected,
    collectRenderedResults search render fetchLimit = Return collected /\
    results collected = SearchAggregator.results found /\
    engineErrors collected = SearchAggregator.engineErrors found /\
    map plain (enriched collected) = SearchAggregator.results found /\
    (forall j item,
        nth_error (enriched collected) j = Some item ->
        Enriched.markdown item
          = markdownAt render fetchLimit (Z.of_nat j) (Enriched.url item) /\
        strlen (Enriched.markdown item) <= 40017) /\
    fetchErrors collected
      = flat_map (fetchErrorAt render fetchLimit)
                 (entries 0 (SearchAggregator.results found)) /\
    len (fetchErrors collected)
      <= Z.min fetchLimit (len (SearchAggregator.results found)).
Proof.
  intros -> Hlimit. eexists. split; [now apply collect_value|].
  cbn [results engineErrors enriched fetchErrors].
  split; [reflexivity|]. split; [reflexivity|].
  split; [apply plain_entries|]. split; [|split; [reflexivity|]].
  - intros j item Hj. rewrite nth_error_map, entries_nth in Hj.
    destruct (nth_error (SearchAggregator.results found) j) as [r|];
      [|discriminate].
    cbn [option_map] in Hj. injection Hj as <-.
    cbn [fst snd setMarkdown enrich Enriched.markdown Enriched.url].
    split; [reflexivity | apply markdownAt_bound].
  - destruct (split_at_limit render fetchLimit
                (SearchAggregator.results found) Hlimit) as [_ ->].
    pose proof (fetchErrors_length render fetchLimit
                  (entries 0 (firstn (Z.to_nat fetchLimit)
                                     (SearchAggregator.results found)))) as H.
    rewrite entries_length, length_firstn in H. unfold len. lia.
Qed.

End CollectRendered.

Section CollectWitness.
Import Js JsExtra Index IndexMore.

Lemma collectRenderedResults_shape_witness :
  exists collected,
    collectRenderedResults
      (@SearchAggregator.searchAllEngines Whatwg.api Samples.adapters
         "guide" (Some "en-US"))
      pagesDown (fetchLimitOf (Some 1)) = Return collected /\
    List.length (enriched collected) = 2%nat /\
    fetchErrors collected = ["https://example.com/Guide: Navigation timeout"].
Proof.
  destruct (collectRenderedResults_shape
              (@SearchAggregator.searchAllEngines Whatwg.api Samples.adapters
                 "guide" (Some "en-US"))
              pagesDown (fetchLimitOf (Some 1))
              {| SearchAggregator.results :=
                   JsMap.values
                     (Aggregation.mergeAll (api := Whatwg.api) []
                        (Aggregation.answered "guide" (Some "en-US")
                           (SearchAggregator.engines Samples.adapters)));
                 SearchAggregator.engineErrors :=
                   Aggregation.failures "guide" (Some "en-US")
                     (SearchAggregator.engines Samples.adapters) |})
    as (collected & Hc & _ & _ & Hp & _ & He & _).
  - reflexivity.
  - vm_compute. discriminate.
  - exists collected. split; [exact Hc|]. split.
    + rewrite <- (length_map plain), Hp. reflexivity.
    + rewrite He. reflexivity.
Defined.

End CollectWitness.

(* ================================================================== *)
(** * PdfParser.ts: what the merge keeps, and the download             *)
(* ================================================================== *)

Section MergeKeeps.
Import Js JsExtra PdfParser.


Lemma filter_none {A : Type} (f : A -> bool) (l : list A) :
  (forall x, In x l -> f x = false) -> filter f l = [].
Proof.
  induction l as [|x l IH]; intros H; [reflexivity|].
  simpl. rewrite (H x) by now left. apply IH. intros y Hy. apply H. now right.
Qed.




Lemma mergeExtractions_alone (text : string) :
  mergeExtractions text ""
    = if 0 <? textLength text then text else NO_CONTENT.
Proof.
  destruct (Z_le_gt_dec (textLength text) 500) as [H|H].
  - rewrite (mergeExtractions_below _ _ H).
    change (textLength "") with 0. change (0 <? 0) with false.
    now rewrite andb_false_r.
  - rewrite mergeExtractions_above by lia.
    unfold ocrHasMore. change (textLength "") with 0.
    change (200 <? 0) with false. rewrite andb_false_r.
    replace (0 <? textLength text) with true; [reflexivity|].
    symmetry. apply Z.ltb_lt. lia.
Qed.



End MergeKeeps.

Section Extraction.
Import Js JsExtra PdfParser PdfParserMore.

Lemma ocrOf_blank (recognized : Completion (list string)) :
  match recognized with
  | Return pages => forallb (fun t => isEmpty (trim t)) pages = true
  | Throw _ => True
  end ->
  ocrOf recognized = "".
Proof.
  destruct recognized as [pages|e]; [|reflexivity].
  intros H. unfold ocrOf. rewrite filter_none; [reflexivity|].
  intros x Hx. apply in_map_iff in Hx. destruct Hx as [t [<- Ht]].
  rewrite forallb_forall in H. specialize (H t Ht).
  unfold truthy. now rewrite H.
Qed.

Lemma textLength_trim (s : string) : textLength (trim s) = textLength s.
Proof. unfold textLength. now rewrite trim_idempotent. Qed.

(** X17. When the recognition fails, or recognizes nothing but blank
    pages, [extractPdfContent] still returns: the recognized content is
    empty, the merged content is the trimmed text layer, or the
    no-content placeholder when there is none, and the extraction is
    labelled [Text only] only for a text layer of more than 100
    characters; a shorter one is labelled [OCR only] although nothing
    was recognized. *)
Theorem extractPdfContent_without_ocr (parsed : Parsed)
    (recognized : Completion (list string)) :
  match recognized with
  | Return pages => forallb (fun t => isEmpty (trim t)) pages = true
  | Throw _ => True
  end ->
  exists result,
    extractPdfContent (Return parsed) recognized = Return result /\
    textContent result = trim (text parsed) /\
    ocrContent result = "" /\
    mergedContent result
      = (if truthy (trim (text parsed)) then trim (text parsed)
         else NO_CONTENT) /\
    extractionMethod result
      = (if 100 <? strlen (trim (text parsed)) then "Text only"
         else "OCR only").
Proof.
  intros H. apply ocrOf_blank in H.
  eexists. split; [reflexivity|].
  cbn [textContent ocrContent mergedContent embeddedText].
  unfold extractionMethod.
  cbn [hasEmbeddedText ocrContent embeddedText]. rewrite H.
  split; [reflexivity|]. split; [reflexivity|]. split; [|reflexivity].
  rewrite mergeExtractions_alone, textLength_trim. unfold textLength.
  destruct (trim (text parsed)); reflexivity.
Qed.

Lemma extractPdfContent_without_ocr_witness :
  exists result,
    extractPdfContent
      (Return {| text := " Invoice 42 "; total := 1;
                 info := {| Title := ""; Author := "" |} |})
      (Throw (ErrorObj "worker terminated")) = Return result /\
    mergedContent result = "Invoice 42" /\
    extractionMethod result = "OCR only".
Proof.
  destruct (extractPdfContent_without_ocr
              {| text := " Invoice 42 "; total := 1;
                 info := {| Title := ""; Author := "" |} |}
              (Throw (ErrorObj "worker terminated")) I)
    as (result & Hr & _ & _ & Hm & He).
  exists result. split; [exact Hr|]. split; [exact Hm | exact He].
Defined.

(** X18. [parsePdfFromUrl] returns exactly when the download answers
    with an OK status, declares no content type or one that contains
    [pdf], its body can be read and the text layer can be extracted; the
    result is then the formatted extraction.  Every failure is an Error
    whose message starts with [PDF parsing failed: ], and
    [renderPageToMarkdown] passes it on, without any browser, as
    [PDF rendering failed: PDF parsing failed: ...]. *)
Theorem parsePdfFromUrl_outcome (fetched : Completion Response)
    (body : Completion unit) (parsed : Completion Parsed)
    (recognized : Completion (list string)) (url : string) :
  let download := parsePdfFromUrl fetched body parsed recognized url in
  (forall markdown,
      download = Return markdown <->
      exists response document result,
        fetched = Return response /\ acceptable response = true /\
        body = Return tt /\ parsed = Return document /\
        extractPdfContent parsed recognized = Return result /\
        markdown = formatPdfToMarkdown result (Some url)) /\
  (forall thrown,
      download = Throw thrown ->
      exists cause,
        thrown = ErrorObj (PARSING_FAILED ++ cause) /\
        forall usePool,
          PageRenderer.renderPageToMarkdown (pdfEnv download) url usePool
            = ([], Throw (ErrorObj ("PDF rendering failed: "
                                      ++ PARSING_FAILED ++ cause)))).
Proof.
  cbv zeta. unfold parsePdfFromUrl, acceptable. split.
  - intros markdown. split.
    + destruct fetched as [response|e]; cbn [bind tryCatch]; [|discriminate].
      destruct (ok response) eqn:Hok; cbn [negb andb]; [|discriminate].
      destruct (contentType response) as [ct|] eqn:Hct.
      * destruct (truthy ct && negb (includes "pdf" ct)) eqn:E;
          [discriminate|].
        destruct body as [[]|e]; cbn [bind tryCatch]; [|discriminate].
        destruct parsed as [document|e]; cbn [bind tryCatch];
          [|discriminate].
        intros [= <-]. eexists response, document, _.
        split; [reflexivity|]. split; [|repeat split].
        rewrite Hok, Hct. cbn [andb].
        apply andb_false_iff in E. destruct E as [E|E].
        -- now rewrite E.
        -- apply negb_false_iff in E. rewrite E. apply orb_true_r.
      * destruct body as [[]|e]; cbn [bind tryCatch]; [|discriminate].
        destruct parsed as [document|e]; cbn [bind tryCatch];
          [|discriminate].
        intros [= <-]. eexists response, document, _.
        split; [reflexivity|]. split; [|repeat split].
        now rewrite Hok, Hct.
    + intros (response & document & result & -> & Hacc & -> & -> & Hr & ->).
      cbn [bind tryCatch]. apply andb_true_iff in Hacc.
      destruct Hacc as [Hok Hct]. rewrite Hok. cbn [negb].
      replace (truthy match contentType response with
                      | Some ct => ct
                      | None => ""
                      end
               && negb (includes "pdf"
                          match contentType response with
                          | Some ct => ct
                          | None => ""
                          end)) with false.
      * cbn [bind tryCatch]. cbn [bind] in Hr. now injection Hr as <-.
      * destruct (contentType response) as [ct|]; [|reflexivity].
        symmetry. apply orb_true_iff in Hct. destruct Hct as [Hct|Hct].
        -- apply negb_true_iff in Hct. now rewrite Hct.
        -- rewrite Hct. apply andb_false_r.
  - intros thrown H.
    assert (Hc : exists cause, thrown = ErrorObj (PARSING_FAILED ++ cause)).
    { destruct fetched as [response|e]; cbn [bind tryCatch] in H.
      - destruct (negb (ok response)); cbn [tryCatch] in H.
        + injection H as <-. eexists. reflexivity.
        + destruct (truthy _ && negb _); cbn [tryCatch] in H.
          * injection H as <-. eexists. reflexivity.
          * destruct body as [[]|e]; cbn [bind tryCatch] in H.
            -- destruct parsed as [document|e]; cbn [bind tryCatch] in H;
                 [discriminate|].
               injection H as <-. eexists. reflexivity.
            -- injection H as <-. eexists. reflexivity.
      - injection H as <-. eexists. reflexivity. }
    destruct Hc as [cause ->]. exists cause. split; [reflexivity|].
    intros usePool. unfold PageRenderer.renderPageToMarkdown, pdfEnv.
    cbn [PageRenderer.isPdf PageRenderer.parsePdf]. now rewrite H.
Qed.

Lemma parsePdfFromUrl_outcome_witness :
  exists cause,
    ErrorObj "PDF parsing failed: Failed to fetch PDF: 404 Not Found"
      = ErrorObj (PARSING_FAILED ++ cause) /\
    forall usePool,
      PageRenderer.renderPageToMarkdown
        (pdfEnv (parsePdfFromUrl (Return notFound) (Return tt)
                   (Return scanned) (Return []) "https://example.com/a.pdf"))
        "https://example.com/a.pdf" usePool
      = ([], Throw (ErrorObj ("PDF rendering failed: "
                                ++ PARSING_FAILED ++ cause))).
Proof.
  apply (proj2 (parsePdfFromUrl_outcome (Return notFound) (Return tt)
                  (Return scanned) (Return []) "https://example.com/a.pdf")).
  reflexivity.
Defined.

End Extraction.

(* ================================================================== *)
(** * EngineUtils.ts: cookies                                          *)
(* ================================================================== *)

Section CookiePairs.
Import Js JsExtra Cookies.




Lemma substring0_app (a b : string) :
  substring 0 (String.length a) (a ++ b) = a.
Proof.
  induction a as [|d r IH]; simpl; [now destruct b | now rewrite IH].
Qed.

Lemma substring_skip (a s : string) (n m : nat) :
  substring (String.length a + n) m (a ++ s) = substring n m s.
Proof. induction a as [|d r IH]; simpl; [reflexivity | exact IH]. Qed.

Lemma slice_left (a b : string) : slice (a ++ b) 0 (strlen a) = a.
Proof.
  unfold slice. rewrite strlen_append.
  pose proof (strlen_nonneg a) as Ha. pose proof (strlen_nonneg b) as Hb.
  change (0 <? 0) with false.
  replace (strlen a <? 0) with false by (symmetry; apply Z.ltb_ge; lia).
  rewrite (Z.min_l 0) by lia. rewrite (Z.min_l (strlen a)) by lia.
  rewrite Z.sub_0_r, Z.max_l by lia. unfold strlen. rewrite Nat2Z.id.
  apply substring0_app.
Qed.



Lemma hasChar_app (c : ascii) (a b : string) :
  hasChar c (a ++ b) = hasChar c a || hasChar c b.
Proof.
  induction a as [|d r IH]; simpl; [reflexivity|].
  now rewrite IH, orb_assoc.
Qed.



End CookiePairs.

Section CookieJar.
Import Js JsExtra Cookies.

Lemma jarGet_set (jar : Jar) (name value other : string) :
  jarGet (jarSet jar name value) other
    = if String.eqb name other then Some value else jarGet jar other.
Proof.
  induction jar as [|[n v] rest IH]; simpl.
  - reflexivity.
  - destruct (String.eqb n name) eqn:E; simpl.
    + apply String.eqb_eq in E. subst n.
      now destruct (String.eqb name other).
    + rewrite IH. destruct (String.eqb n other) eqn:E2; [|reflexivity].
      apply String.eqb_eq in E2. subst n.
      apply String.eqb_neq in E.
      replace (String.eqb name other) with false; [reflexivity|].
      symmetry. apply String.eqb_neq. congruence.
Qed.

Lemma keys_jarSet (jar : Jar) (name value : string) :
  map fst (jarSet jar name value)
    = if SearchAggregator.includes (map fst jar) name then map fst jar
      else (map fst jar ++ [name])%list.
Proof.
  unfold SearchAggregator.includes.
  induction jar as [|[n v] rest IH]; simpl; [reflexivity|].
  rewrite (String.eqb_sym name n). destruct (String.eqb n name) eqn:E; simpl.
  - apply String.eqb_eq in E. now subst.
  - rewrite IH. now destruct (existsb (String.eqb name) (map fst rest)).
Qed.

Lemma jarOf_pairs (cookieLists : list (option (list string))) :
  forall jar,
    fold_left addCookies cookieLists jar
      = fold_left (fun j p => jarSet j (fst p) (snd p))
                  (pairsOf cookieLists) jar.
Proof.
  induction cookieLists as [|cookies lists IH]; intros jar; [reflexivity|].
  unfold pairsOf in *. cbn [fold_left flat_map]. rewrite fold_left_app, IH.
  f_equal. destruct cookies as [l|]; [|reflexivity]. simpl.
  revert jar. induction l as [|cookie l IHl]; intros jar; [reflexivity|].
  cbn [fold_left flat_map]. rewrite fold_left_app, IHl. f_equal.
  unfold addCookie. now destruct (parseCookiePair cookie).
Qed.

Lemma jar_keys (pairs : list (string * string)) :
  forall jar,
    map fst (fold_left (fun j p => jarSet j (fst p) (snd p)) pairs jar)
      = Aggregation.addDistinct (map fst jar) (map fst pairs).
Proof.
  unfold Aggregation.addDistinct.
  induction pairs as [|p pairs IH]; intros jar; [reflexivity|].
  cbn [fold_left map]. rewrite IH, keys_jarSet. reflexivity.
Qed.

Lemma jar_values (pairs : list (string * string)) (name : string) :
  jarGet (fold_left (fun j p => jarSet j (fst p) (snd p)) pairs []) name
    = lastValue pairs name.
Proof.
  unfold lastValue. induction pairs as [|p pairs IH] using rev_ind;
    [reflexivity|].
  rewrite fold_left_app, rev_app_distr. cbn [fold_left rev app find].
  rewrite jarGet_set, IH. now destruct (String.eqb (fst p) name).
Qed.

Lemma jarGet_In (jar : Jar) (name value : string) :
  NoDup (map fst jar) ->
  (In (name, value) jar <-> jarGet jar name = Some value).
Proof.
  induction jar as [|[n v] rest IH]; simpl; intros Hnd.
  - split; [tauto | discriminate].
  - apply NoDup_cons_iff in Hnd. destruct Hnd as [Hnot Hnd].
    destruct (String.eqb n name) eqn:E.
    + apply String.eqb_eq in E. subst n. split.
      * intros [[= ->]|Hin]; [reflexivity|].
        exfalso. apply Hnot. change name with (fst (name, value)).
        now apply in_map.
      * intros [= ->]. now left.
    + apply String.eqb_neq in E. rewrite <- (IH Hnd). split.
      * intros [[= -> _]|Hin]; [congruence | exact Hin].
      * intros Hin. now right.
Qed.

(** X20. The jar of [buildCookieHeader] holds each cookie name once, in
    the order in which the names first appear among the cookies that
    parse, each with the value of the last cookie of that name
    ([undefined] lists and cookies that do not parse are skipped); the
    function returns [undefined] exactly when no cookie parses, and
    otherwise the [name=value] pairs of the jar joined by [; ]. *)
Theorem buildCookieHeader_jar (cookieLists : list (option (list string))) :
  let pairs := pairsOf cookieLists in
  let jar := jarOf cookieLists in
  map fst jar = Aggregation.addDistinct [] (map fst pairs) /\
  NoDup (map fst jar) /\
  (forall name value,
      In (name, value) jar <-> lastValue pairs name = Some value) /\
  buildCookieHeader cookieLists
    = match pairs with
      | [] => None
      | _ :: _ => Some (join "; " (map cookieLine jar))
      end.
Proof.
  cbv zeta. unfold buildCookieHeader, jarOf. rewrite jarOf_pairs.
  set (pairs := pairsOf cookieLists).
  pose proof (jar_keys pairs []) as Hk. simpl map in Hk at 2.
  assert (Hnd : NoDup (map fst (fold_left
                                  (fun j p => jarSet j (fst p) (snd p))
                                  pairs [])))
    by (rewrite Hk; apply addDistinct_spec; constructor).
  split; [exact Hk|]. split; [exact Hnd|]. split.
  - intros name value. rewrite (jarGet_In _ _ _ Hnd). now rewrite jar_values.
  - destruct pairs as [|p pairs']; [reflexivity|].
    replace (0 <? len (fold_left (fun j p0 => jarSet j (fst p0) (snd p0))
                                 (p :: pairs') []))
      with true; [reflexivity|].
    symmetry. apply Z.ltb_lt. unfold len.
    rewrite <- (length_map fst), Hk.
    assert (Hin : In (fst p)
                     (Aggregation.addDistinct [] (map fst (p :: pairs'))))
      by (apply addDistinct_spec; [constructor | right; now left]).
    destruct (Aggregation.addDistinct [] (map fst (p :: pairs')));
      [destruct Hin | simpl; lia].
Qed.

End CookieJar.

(* ================================================================== *)
(** * engines/Startpage.ts: the results of one page                    *)
(* ================================================================== *)

Section StartpageResults.
Import Js JsExtra EngineUtils Startpage.

Lemma normalizeWhitespace_twice (text : string) :
  normalizeWhitespace (normalizeWhitespace text) = normalizeWhitespace text.
Proof.
  unfold normalizeWhitespace at 1.
  destruct (trim_shape (collapseSpaces false text)) as [Hh Hl].
  assert (Hs : singleSpaced false (normalizeWhitespace text) = true).
  { unfold normalizeWhitespace, trim. apply singleSpaced_trimEnd.
    apply (singleSpaced_trimStart _ false), collapseSpaces_singleSpaced. }
  rewrite (collapseSpaces_fixed _ _ Hs). now apply trim_fixed.
Qed.

(** One pass of the loop: the element is skipped, and then its link,
    if it is usable, has been seen; or its result is added. *)
Lemma visit_cases (results : list SearchResult.t) (seen : list string)
    (element : Element) :
  (visit (results, seen) element = (results, seen) /\
   forall link, usable element link -> In link seen) \/
  (exists link,
      usable element link /\ ~ In link seen /\
      visit (results, seen) element
        = ((results
              ++ [{| SearchResult.title :=
                       normalizeWhitespace (titleText element);
                     SearchResult.url := link;
                     SearchResult.snippet :=
                       normalizeWhitespace (snippetText element) |}])%list,
           (seen ++ [link])%list)).
Proof.
  unfold visit, usable.
  destruct (href element) as [link|] eqn:Eh.
  - destruct (truthy link) eqn:Et, (startsWith "http" link) eqn:Ep;
      cbn [negb orb].
    + destruct (PdfParser.setHas seen link) eqn:Es.
      * left. split; [reflexivity|]. intros l (Hl & _).
        injection Hl as <-. now apply setHas_In.
      * destruct (truthy (normalizeWhitespace (titleText element))) eqn:En;
          cbn [negb].
        -- right. exists link. split; [|split; [|reflexivity]].
           ++ split; [reflexivity|]. split; [exact Ep|].
              now apply truthy_true.
           ++ intros Hin. apply setHas_In in Hin. congruence.
        -- left. split; [reflexivity|]. intros l (_ & _ & Hn).
           exfalso. apply Hn.
           destruct (normalizeWhitespace (titleText element));
             [reflexivity | discriminate En].
    + left. split; [reflexivity|]. intros l (Hl & Hp & _).
      injection Hl as <-. congruence.
    + left. split; [reflexivity|]. intros l (Hl & Hp & _).
      injection Hl as <-. destruct link; discriminate.
    + left. split; [reflexivity|]. intros l (Hl & Hp & _).
      injection Hl as <-. congruence.
  - left. split; [reflexivity|]. intros l (Hl & _). discriminate Hl.
Qed.

Lemma visit_invariant (elements : list Element) :
  forall results seen,
    seen = map SearchResult.url results -> NoDup seen ->
    let final := fold_left visit elements (results, seen) in
    snd final = map SearchResult.url (fst final) /\
    NoDup (snd final) /\
    (forall r, In r (fst final) ->
               In r results \/
               exists element,
                 In element elements /\ usable element (SearchResult.url r) /\
                 SearchResult.title r = normalizeWhitespace (titleText element) /\
                 SearchResult.snippet r
                   = normalizeWhitespace (snippetText element)) /\
    (forall link, In link seen -> In link (snd final)) /\
    (forall element link,
        In element elements -> usable element link -> In link (snd final)).
Proof.
  induction elements as [|element elements IH]; intros results seen Hs Hnd.
  - cbv zeta. simpl. repeat split; auto. intros e l [].
  - cbv zeta. cbn [fold_left].
    destruct (visit_cases results seen element)
      as [[-> Hseen]|(link & Hu & Hnew & ->)].
    + destruct (IH results seen Hs Hnd) as (H1 & H2 & H3 & H4 & H5).
      split; [exact H1|]. split; [exact H2|]. split; [|split; [exact H4|]].
      * intros r Hr. destruct (H3 r Hr) as [H|(e & He & Hue)]; [now left|].
        right. exists e. split; [now right | exact Hue].
      * intros e l [<-|He] Hue; [apply H4, Hseen, Hue | now apply (H5 e)].
    + destruct (IH (results
                      ++ [{| SearchResult.title :=
                               normalizeWhitespace (titleText element);
                             SearchResult.url := link;
                             SearchResult.snippet :=
                               normalizeWhitespace (snippetText element) |}])%list
                   (seen ++ [link])%list)
        as (H1 & H2 & H3 & H4 & H5).
      { rewrite map_app, Hs. reflexivity. }
      { apply NoDup_app; [exact Hnd | repeat constructor; intros []|].
        intros x Hx [<-|[]]. contradiction. }
      split; [exact H1|]. split; [exact H2|]. split; [|split].
      * intros r Hr. destruct (H3 r Hr) as [H|(e & He & Hue)].
        -- apply in_app_or in H. destruct H as [H|[<-|[]]]; [now left|].
           right. exists element. split; [now left|].
           cbn [SearchResult.url SearchResult.title SearchResult.snippet].
           split; [exact Hu | split; reflexivity].
        -- right. exists e. split; [now right | exact Hue].
      * intros l Hl. apply H4, in_or_app. now left.
      * intros e l [<-|He] Hue; [|now apply (H5 e)].
        destruct Hu as (Hl & _), Hue as (Hl' & _). rewrite Hl in Hl'.
        injection Hl' as <-. apply H4, in_or_app. right. now left.
Qed.

(** X21. The results that [extractResults] reads from a Startpage page
    have pairwise distinct URLs, each starting with [http], and
    non-empty titles; title and snippet are white-space normalized;
    every result comes from an element of the page with that link, and
    the link of every element with an [http] link and a non-blank
    title is the URL of a result: only repetitions of a link are
    dropped. *)
Theorem extractResults_distinct (elements : list Element) :
  let results := extractResults elements in
  NoDup (map SearchResult.url results) /\
  (forall r, In r results ->
     startsWith "http" (SearchResult.url r) = true /\
     SearchResult.title r <> "" /\
     normalizeWhitespace (SearchResult.title r) = SearchResult.title r /\
     normalizeWhitespace (SearchResult.snippet r) = SearchResult.snippet r /\
     exists element,
       In element elements /\ href element = Some (SearchResult.url r) /\
       SearchResult.title r = normalizeWhitespace (titleText element) /\
       SearchResult.snippet r = normalizeWhitespace (snippetText element)) /\
  (forall element link,
      In element elements -> usable element link ->
      In link (map SearchResult.url results)).
Proof.
  cbv zeta. unfold extractResults.
  destruct (visit_invariant elements [] [] eq_refl (NoDup_nil _))
    as (H1 & H2 & H3 & _ & H5).
  rewrite <- H1. split; [exact H2|]. split; [|exact H5].
  intros r Hr. destruct (H3 r Hr) as [[]|(e & He & (Hh & Hp & Hn) & Ht & Hs)].
  split; [exact Hp|]. split; [now rewrite Ht|].
  split; [rewrite Ht; apply normalizeWhitespace_twice|].
  split; [rewrite Hs; apply normalizeWhitespace_twice|].
  exists e. auto.
Qed.

Lemma extractResults_distinct_witness :
  In "https://rocq-prover.org/"
     (map SearchResult.url
          (extractResults
             [ {| href := Some "https://rocq-prover.org/";
                  titleText := "  The Rocq   Prover ";
                  snippetText := "" |};
               {| href := Some "https://rocq-prover.org/";
                  titleText := "Rocq"; snippetText := "again" |} ])).
Proof.
  apply (proj2 (proj2 (extractResults_distinct _))
           {| href := Some "https://rocq-prover.org/";
              titleText := "  The Rocq   Prover "; snippetText := "" |}).
  - now left.
  - split; [reflexivity|]. split; [reflexivity|]. vm_compute. discriminate.
Defined.

End StartpageResults.

(* ================================================================== *)
(** * engines/DuckDuckGo.ts: retries and locale                        *)
(* ================================================================== *)

Section DuckDuckGoSearch.
Import Js JsExtra DuckDuckGo.

Lemma search_value (perform : Z -> Completion (list SearchResult.t)) :
  search perform
    = match perform 0 with
      | Return results => ([], Return results)
      | Throw _ =>
          match perform 1 with
          | Return results => ([250], Return results)
          | Throw _ =>
              match perform 2 with
              | Return results => ([250; 500], Return results)
              | Throw e2 => ([250; 500], Throw (ErrorObj (messageOf e2)))
              end
          end
      end.
Proof.
  unfold search. change (Z.to_nat maxAttempts) with 3%nat.
  cbn [searchLoop]. change (0 + 1) with 1. change (1 + 1) with 2.
  destruct (perform 0); [reflexivity|].
  destruct (perform 1); [reflexivity|].
  destruct (perform 2); reflexivity.
Qed.

(** X22. [DuckDuckGo.search] runs [performSearch] at most three times
    and returns the results of the first attempt that succeeds, after
    waiting 250 ms following a first failure and 500 ms following a
    second one; when the three attempts fail it throws the last
    failure.  Whatever was thrown by an attempt, what [search] throws is
    an Error carrying its message, and the waits add up to at most 750
    ms. *)
Theorem search_retries (perform : Z -> Completion (list SearchResult.t)) :
  (forall results, perform 0 = Return results ->
     search perform = ([], Return results)) /\
  (forall e0 results,
     perform 0 = Throw e0 -> perform 1 = Return results ->
     search perform = ([250], Return results)) /\
  (forall e0 e1 results,
     perform 0 = Throw e0 -> perform 1 = Throw e1 ->
     perform 2 = Return results ->
     search perform = ([250; 500], Return results)) /\
  (forall e0 e1 e2,
     perform 0 = Throw e0 -> perform 1 = Throw e1 -> perform 2 = Throw e2 ->
     search perform = ([250; 500], Throw (ErrorObj (messageOf e2)))) /\
  (forall thrown, snd (search perform) = Throw thrown ->
     exists message, thrown = ErrorObj message) /\
  fold_right Z.add 0 (fst (search perform)) <= 750.
Proof.
  rewrite search_value.
  split; [intros results ->; reflexivity|].
  split; [intros e0 results -> ->; reflexivity|].
  split; [intros e0 e1 results -> -> ->; reflexivity|].
  split; [intros e0 e1 e2 -> -> ->; reflexivity|].
  destruct (perform 0) as [r0|e0]; [|destruct (perform 1) as [r1|e1];
    [|destruct (perform 2) as [r2|e2]]];
    (split; [|vm_compute; discriminate]);
    cbn [snd]; intros thrown H; try discriminate H.
  injection H as <-. eexists. reflexivity.
Qed.

Lemma search_retries_witness :
  search blockedTwice = ([250; 500], Return []).
Proof.
  apply (proj1 (proj2 (proj2 (search_retries blockedTwice)))
           (NonError "DuckDuckGo HTML endpoint responded with a challenge")
           (NonError "DuckDuckGo HTML endpoint responded with a challenge"));
    reflexivity.
Defined.

Lemma replaceFirst_plain (c d : ascii) (s : string) :
  Cookies.hasChar c s = false -> replaceFirst c d s = s.
Proof.
  induction s as [|x r IH]; simpl; [reflexivity|].
  destruct (Ascii.eqb x c); simpl; [discriminate|].
  intros H. now rewrite IH.
Qed.

Lemma replaceFirst_app (c d : ascii) (a rest : string) :
  Cookies.hasChar c a = false ->
  replaceFirst c d (a ++ String c rest) = a ++ String d rest.
Proof.
  induction a as [|x r IH]; simpl.
  - now rewrite Ascii.eqb_refl.
  - destruct (Ascii.eqb x c); simpl; [discriminate|].
    intros H. now rewrite IH.
Qed.

Lemma splitOn_plain (c : ascii) (s : string) :
  Cookies.hasChar c s = false -> Whatwg.splitOn c s = [s].
Proof.
  induction s as [|x r IH]; simpl; [reflexivity|].
  destruct (Ascii.eqb x c); simpl; [discriminate|].
  intros H. now rewrite IH.
Qed.

Lemma splitOn_app (c : ascii) (a rest : string) :
  Cookies.hasChar c a = false ->
  Whatwg.splitOn c (a ++ String c rest) = a :: Whatwg.splitOn c rest.
Proof.
  induction a as [|x r IH]; simpl.
  - now rewrite Ascii.eqb_refl.
  - destruct (Ascii.eqb x c); simpl; [discriminate|].
    intros H. now rewrite IH.
Qed.

(** X23. For a language and a country code, both non-empty and free of
    [-] and [_], [toDuckDuckGoLocale] maps [language-country] and
    [language_country] alike to the lower-case [country-language];
    a region that is missing or has no separator gives no locale, and
    the market is then [wt-wt]. *)
Theorem toDuckDuckGoLocale_format (language country : string) :
  language <> "" -> country <> "" ->
  Cookies.hasChar "-" language = false ->
  Cookies.hasChar "_" language = false ->
  Cookies.hasChar "-" country = false ->
  Cookies.hasChar "_" country = false ->
  let locale := toLowerCase country ++ "-" ++ toLowerCase language in
  toDuckDuckGoLocale (Some (language ++ "-" ++ country)) = Some locale /\
  toDuckDuckGoLocale (Some (language ++ "_" ++ country)) = Some locale /\
  market (Some (language ++ "_" ++ country)) = locale /\
  toDuckDuckGoLocale (Some language) = None /\
  market (Some language) = "wt-wt" /\
  market None = "wt-wt".
Proof.
  intros Hl Hc Hd Hu Hcd Hcu locale.
  assert (Hpieces : Whatwg.splitOn "-" (language ++ String "-" country)
                    = [language; country])
    by (now rewrite (splitOn_app _ _ _ Hd), (splitOn_plain _ _ Hcd)).
  assert (Htl : truthy language = true) by now apply truthy_true.
  assert (Htc : truthy country = true) by now apply truthy_true.
  assert (Hdash : toDuckDuckGoLocale (Some (language ++ "-" ++ country))
                  = Some locale).
  { unfold toDuckDuckGoLocale.
    replace (truthy (language ++ "-" ++ country)) with true
      by (now destruct language).
    cbn [negb].
    change (language ++ "-" ++ country)
      with (language ++ String "-" country).
    rewrite replaceFirst_plain
      by (rewrite hasChar_app, Hu; simpl; exact Hcu).
    rewrite Hpieces. cbn [nth]. now rewrite Htl, Htc. }
  assert (Hunder : toDuckDuckGoLocale (Some (language ++ "_" ++ country))
                   = Some locale).
  { unfold toDuckDuckGoLocale.
    replace (truthy (language ++ "_" ++ country)) with true
      by (now destruct language).
    cbn [negb].
    change (language ++ "_" ++ country)
      with (language ++ String "_" country).
    rewrite (replaceFirst_app _ _ _ _ Hu), Hpieces. cbn [nth].
    now rewrite Htl, Htc. }
  assert (Hnone : toDuckDuckGoLocale (Some language) = None).
  { unfold toDuckDuckGoLocale. rewrite Htl. cbn [negb].
    rewrite (replaceFirst_plain _ _ _ Hu), (splitOn_plain _ _ Hd).
    cbn [nth]. now rewrite Htl. }
  split; [exact Hdash|]. split; [exact Hunder|].
  split; [unfold market; now rewrite Hunder|].
  split; [exact Hnone|]. split; [unfold market; now rewrite Hnone|].
  reflexivity.
Qed.

Lemma toDuckDuckGoLocale_format_witness :
  toDuckDuckGoLocale (Some ("en" ++ "_" ++ "US")) = Some "us-en".
Proof.
  apply (toDuckDuckGoLocale_format "en" "US");
    (discriminate || reflexivity).
Defined.

End DuckDuckGoSearch.

(* ================================================================== *)
(** * SearchAggregator.ts and index.ts: the engines behind a result    *)
(* ================================================================== *)

Section SourcesOfResults.
Import Js JsExtra IndexMore SearchAggregator Aggregation.
Context {api : UrlApi}.

Lemma values_In (m : JsMap.t) (e : AggregatedResult.t) :
  In e (JsMap.values m) -> exists k, In (k, e) m.
Proof.
  unfold JsMap.values. rewrite in_map_iff. intros [[k v] [E Hin]].
  simpl in E. subst v. now exists k.
Qed.

(** X24. Every result returned by [searchAllEngines] lists between one
    and seven sources, without repetition, each of them the name of an
    adapter of the table whose search returned: the number of sources
    that [renderSearchOutput] turns into a confidence level counts
    distinct engines out of [ENGINES_COUNT]. *)
Theorem searchAllEngines_sources (ad : Adapters) (query : string)
    (region : option string) (out : AggregatedSearch)
    (e : AggregatedResult.t) :
  searchAllEngines ad query region = Return out ->
  In e (results out) ->
  NoDup (AggregatedResult.sources e) /\
  1 <= len (AggregatedResult.sources e) <= ENGINES_COUNT /\
  (forall s, In s (AggregatedResult.sources e) ->
     In s registrationOrder /\
     exists entry rs,
       In entry (engines ad) /\ name entry = s /\
       search (engine entry) query region = Return rs).
Proof.
  rewrite searchAllEngines_value. intros [= <-]. cbn [results].
  intros He. apply values_In in He. destruct He as [k Hin].
  set (inputs := answered query region (engines ad)) in *.
  assert (Hget : JsMap.get (mergeAll [] inputs) k = Some e)
    by (apply In_get; [apply keys_mergeAll; constructor | exact Hin]).
  destruct (record_of_key _ _ _ Hget) as (first & later & Hf & ->).
  assert (Hnd : NoDup (AggregatedResult.sources
                         (absorb (freshRecord first) later))).
  { cbn [absorb freshRecord AggregatedResult.sources].
    apply addDistinct_spec. repeat constructor. simpl. tauto. }
  assert (Hsrc : forall s,
             In s (AggregatedResult.sources (absorb (freshRecord first) later)) ->
             In s registrationOrder /\
             exists entry rs,
               In entry (engines ad) /\ name entry = s /\
               search (engine entry) query region = Return rs).
  { intros s Hs. apply sources_of_key in Hs. rewrite <- Hf in Hs.
    apply in_map_iff in Hs. destruct Hs as (i & <- & Hi).
    apply filter_In in Hi. destruct Hi as [Hi _].
    apply answered_spec in Hi. destruct Hi as (entry & rs & Hentry & Hr & _ & ->).
    split.
    - rewrite <- (engines_names ad). now apply in_map.
    - now exists entry, rs. }
  split; [exact Hnd|]. split; [|exact Hsrc].
  split.
  - assert (H : In (snd first)
                   (AggregatedResult.sources (absorb (freshRecord first) later)))
      by (apply sources_of_key; now left).
    destruct (AggregatedResult.sources (absorb (freshRecord first) later));
      [destruct H|]. unfold len. simpl length. lia.
  - assert (Hincl : incl (AggregatedResult.sources
                            (absorb (freshRecord first) later))
                         registrationOrder)
      by (intros s Hs; now apply Hsrc).
    pose proof (NoDup_incl_length Hnd Hincl) as Hlen.
    change (List.length registrationOrder) with 7%nat in Hlen.
    unfold len, ENGINES_COUNT. lia.
Qed.

End SourcesOfResults.

Section SourcesWitness.
Import Js JsExtra IndexMore SearchAggregator Aggregation.

Lemma searchAllEngines_sources_witness :
  let e := {| AggregatedResult.title := "The Guide";
              AggregatedResult.url := "https://example.com/Guide";
              AggregatedResult.snippet := "from brave";
              AggregatedResult.sources := ["Brave"; "Bing"; "Startpage"] |} in
  NoDup (AggregatedResult.sources e) /\
  1 <= len (AggregatedResult.sources e) <= ENGINES_COUNT /\
  (forall s, In s (AggregatedResult.sources e) ->
     In s registrationOrder /\
     exists entry rs,
       In entry (engines Samples.adapters) /\ name entry = s /\
       search (engine entry) "guide" None = Return rs).
Proof.
  cbv zeta.
  apply (searchAllEngines_sources (api := Whatwg.api) Samples.adapters
           "guide" None
           {| results :=
                JsMap.values
                  (mergeAll (api := Whatwg.api) []
                     (answered "guide" None (engines Samples.adapters)));
              engineErrors := failures "guide" None (engines Samples.adapters) |}).
  - reflexivity.
  - left. reflexivity.
Defined.

End SourcesWitness.

(* ================================================================== *)
(** * index.ts: the answer of [search_fetch]                           *)
(* ================================================================== *)

Section SearchFetchTool.
Import Js JsExtra Index IndexMore SearchFetch.

Lemma entries_map_entries {B : Type} (f : Z * AggregatedResult.t -> B)
    (rs : list AggregatedResult.t) :
  forall start,
    entries start (map f (entries start rs))
      = map (fun e => (fst e, f e)) (entries start rs).
Proof.
  induction rs as [|r rs IH]; intros start; [reflexivity|].
  cbn [entries map fst]. now rewrite IH.
Qed.

Lemma firstn_entries {A : Type} (n : nat) (l : list A) :
  forall start, firstn n (entries start l) = entries start (firstn n l).
Proof.
  revert l. induction n as [|n IH]; intros l start; [reflexivity|].
  destruct l as [|x l]; [reflexivity|]. cbn [entries firstn]. now rewrite IH.
Qed.

Lemma fetchLimitOf_bounds (maxFetch : option Z) :
  1 <= fetchLimitOf maxFetch <= 100.
Proof. unfold fetchLimitOf. lia. Qed.

Lemma captured_beyond (render : Renderer) (fetchLimit : Z)
    (rs : list AggregatedResult.t) :
  forall start, fetchLimit <= start ->
    filter (fun e => truthy (markdownAt render fetchLimit (fst e)
                               (AggregatedResult.url (snd e))))
           (entries start rs) = [].
Proof.
  induction rs as [|r rs IH]; intros start Hs; [reflexivity|].
  cbn [entries filter fst snd]. unfold markdownAt at 1.
  replace (start <? fetchLimit) with false
    by (symmetry; apply Z.ltb_ge; exact Hs).
  cbn [truthy isEmpty negb]. apply IH. lia.
Qed.

Lemma captured_firstn (render : Renderer) (fetchLimit : Z)
    (rs : list AggregatedResult.t) :
  0 <= fetchLimit ->
  captured render fetchLimit (firstn (Z.to_nat fetchLimit) rs)
    = captured render fetchLimit rs.
Proof.
  intros Hlimit. unfold captured. set (n := Z.to_nat fetchLimit).
  destruct (Nat.le_gt_cases n (List.length rs)) as [Hn|Hn].
  - assert (E : entries 0 rs
                = (entries 0 (firstn n rs)
                   ++ entries (0 + len (firstn n rs)) (skipn n rs))%list)
      by (now rewrite <- entries_app, firstn_skipn).
    rewrite E, filter_app.
    rewrite (captured_beyond render fetchLimit (skipn n rs)
               (0 + len (firstn n rs))); [now rewrite app_nil_r|].
    unfold len. rewrite length_firstn, Nat.min_l by exact Hn. unfold n. lia.
  - now rewrite firstn_all2 by lia.
Qed.

Lemma pageOutputs_captured (render : Renderer) (fetchLimit : Z)
    (clock : Z -> string) (l : list (Z * AggregatedResult.t)) :
  flat_map (pageOutput clock)
           (map (fun e => (fst e,
                           setMarkdown (enrich (snd e))
                             (markdownAt render fetchLimit (fst e)
                                (AggregatedResult.url (snd e))))) l)
    = map (pageOf render fetchLimit clock)
          (filter (fun e => truthy (markdownAt render fetchLimit (fst e)
                                      (AggregatedResult.url (snd e)))) l).
Proof.
  induction l as [|e l IH]; [reflexivity|].
  cbn [map flat_map filter]. rewrite IH. unfold pageOutput at 1.
  cbn [setMarkdown enrich Enriched.markdown Enriched.url Enriched.title].
  now destruct (truthy (markdownAt render fetchLimit (fst e)
                          (AggregatedResult.url (snd e)))).
Qed.

Lemma outcomes_length (render : Renderer) (fetchLimit : Z)
    (l : list (Z * AggregatedResult.t)) :
  (List.length (filter (fun e => truthy (markdownAt render fetchLimit (fst e)
                                           (AggregatedResult.url (snd e)))) l)
   + List.length (flat_map (fetchErrorAt render fetchLimit) l)
   <= List.length l)%nat.
Proof.
  induction l as [|e l IH]; [apply Nat.le_refl|].
  cbn [filter flat_map]. rewrite length_app.
  unfold markdownAt at 1, fetchErrorAt at 1.
  destruct (fst e <? fetchLimit); [|simpl; lia].
  destruct (render (fst e) (AggregatedResult.url (snd e))) as [page|error].
  - destruct (truthy _); simpl; lia.
  - simpl. lia.
Qed.

End SearchFetchTool.

Section SearchFetchAnswer.
Import Js JsExtra Index IndexMore SearchFetch.
Context {api : UrlApi}.

(** X25. The [search_fetch] tool never answers with an error.  Its
    content is the search summary, then one page block for each of the
    first [fetchLimit] results whose rendering gave a non-empty
    Markdown, in order (the notice that no page content was captured
    when there is none), then the engine-error block if an adapter
    failed and the fetch-error block if a rendering failed.
    [fetchLimit] is [maxFetch] brought into 1..100, so at most 100 pages
    are rendered; a page that renders to an empty Markdown is neither
    shown nor reported. *)
Theorem searchFetchTool_content (ad : SearchAggregator.Adapters)
    (render : Renderer) (query : string) (region : option string)
    (maxFetch : option Z) (now : string) (clock : Z -> string) :
  let answer := searchFetchTool ad render query region maxFetch now clock in
  let regionCode := regionCodeOf region in
  let fetchLimit := fetchLimitOf maxFetch in
  exists found,
    SearchAggregator.searchAllEngines ad query (Some regionCode)
      = Return found /\
    isError answer = false /\
    1 <= fetchLimit <= 100 /\
    let rs := SearchAggregator.results found in
    let failed := SearchAggregator.engineErrors found in
    let pages := map (pageOf render fetchLimit clock)
                     (captured render fetchLimit rs) in
    let errors := flat_map (fetchErrorAt render fetchLimit) (entries 0 rs) in
    content answer
      = (renderSearchOutput rs (searchMetadata query regionCode failed now)
         :: match pages with [] => [NOTICE] | _ :: _ => pages end
         ++ (if 0 <? len failed then [errorBlock "engine-errors" failed]
             else [])
         ++ (if 0 <? len errors then [errorBlock "fetch-errors" errors]
             else []))%list /\
    len pages + len errors <= Z.min fetchLimit (len rs).
Proof.
  cbv zeta. pose proof (fetchLimitOf_bounds maxFetch) as Hb.
  set (fetchLimit := fetchLimitOf maxFetch) in *.
  set (regionCode := regionCodeOf region).
  eexists. split; [apply searchAllEngines_value|].
  unfold searchFetchTool. fold regionCode. fold fetchLimit.
  rewrite searchAllEngines_value, collect_value by lia.
  cbn [isError content results enriched engineErrors fetchErrors
       SearchAggregator.results SearchAggregator.engineErrors].
  set (rs := JsMap.values
               (Aggregation.mergeAll []
                  (Aggregation.answered query (Some regionCode)
                     (SearchAggregator.engines ad)))).
  set (failed := Aggregation.failures query (Some regionCode)
                   (SearchAggregator.engines ad)).
  split; [reflexivity|]. split; [exact Hb|].
  assert (Hpages :
            pageOutputs clock
              (map (fun e => setMarkdown (enrich (snd e))
                               (markdownAt render fetchLimit (fst e)
                                  (AggregatedResult.url (snd e))))
                   (entries 0 rs)) fetchLimit
            = map (pageOf render fetchLimit clock)
                  (captured render fetchLimit rs)).
  { unfold pageOutputs, sliceTo.
    replace (fetchLimit <? 0) with false by (symmetry; apply Z.ltb_ge; lia).
    rewrite firstn_map, firstn_entries, entries_map_entries.
    rewrite pageOutputs_captured.
    fold (captured render fetchLimit (firstn (Z.to_nat fetchLimit) rs)).
    now rewrite captured_firstn by lia. }
  rewrite Hpages. split.
  - set (pages := map (pageOf render fetchLimit clock)
                      (captured render fetchLimit rs)).
    set (errors := flat_map (fetchErrorAt render fetchLimit) (entries 0 rs)).
    destruct pages as [|page pages].
    + change (len [renderSearchOutput rs
                     (searchMetadata query regionCode failed now)] =? 1)
        with true. cbv iota.
      destruct (0 <? len failed), (0 <? len errors); reflexivity.
    + replace (len (renderSearchOutput rs
                      (searchMetadata query regionCode failed now)
                    :: page :: pages) =? 1) with false
        by (symmetry; apply Z.eqb_neq; unfold len; simpl length; lia).
      destruct (0 <? len failed), (0 <? len errors); cbn [app];
        rewrite <- ?app_assoc, ?app_nil_r; reflexivity.
  - unfold len. rewrite length_map.
    rewrite <- (captured_firstn render fetchLimit rs) by lia.
    destruct (split_at_limit render fetchLimit rs) as [_ ->]; [lia|].
    pose proof (outcomes_length render fetchLimit
                  (entries 0 (firstn (Z.to_nat fetchLimit) rs))) as H.
    unfold captured. rewrite entries_length, length_firstn in H. lia.
Qed.

End SearchFetchAnswer.

Section SearchFetchWitness.
Import Js JsExtra Index IndexMore SearchFetch.

Lemma searchFetchTool_content_witness :
  isError (searchFetchTool (api := Whatwg.api) Samples.adapters emptyPages
             "guide" None (Some 5) "2025-01-01T00:00:00.000Z"
             (fun _ => "2025-01-01T00:00:01.000Z")) = false.
Proof.
  destruct (searchFetchTool_content (api := Whatwg.api) Samples.adapters
              emptyPages "guide" None (Some 5) "2025-01-01T00:00:00.000Z"
              (fun _ => "2025-01-01T00:00:01.000Z"))
    as (found & _ & H & _).
  exact H.
Defined.

End SearchFetchWitness.

(* ================================================================== *)
(** * SearchAggregator.ts: the fragment does not count                 *)
(* ================================================================== *)

Section ScanFacts.
Import Js Whatwg Canonical CanonicalMore.





















End ScanFacts.

Section FragmentInsensitive.
Import Js SearchAggregator Whatwg Canonical CanonicalMore.











End FragmentInsensitive.

(* ================================================================== *)
(** * EngineUtils.ts: unwrapping a redirect link                       *)
(* ================================================================== *)

Section YahooRedirect.
Import Js JsExtra Redirects.

Lemma indexOf_nonneg_or_absent (pattern s : string) :
  indexOf pattern s = -1 \/ 0 <= indexOf pattern s.
Proof.
  induction s as [|c s IH]; cbn [indexOf].
  - destruct (String.prefix pattern ""); [right; lia | now left].
  - destruct (String.prefix pattern (String c s)); [right; lia|].
    destruct (indexOf pattern s =? -1) eqn:E; [now left|].
    apply Z.eqb_neq in E. right. lia.
Qed.

Lemma indexOf_absent (pattern s : string) :
  includes pattern s = false -> indexOf pattern s = -1.
Proof.
  induction s as [|c s IH]; cbn [includes indexOf]; intros H.
  - apply orb_false_iff in H. destruct H as [-> _]. reflexivity.
  - apply orb_false_iff in H. destruct H as [-> H].
    now rewrite (IH H).
Qed.

(** The pattern is found where it is put, when it does not start
    earlier. *)
Lemma indexOf_found (pattern a rest : string) :
  (forall k b, a = k ++ b -> b <> "" ->
               String.prefix pattern (b ++ pattern ++ rest) = false) ->
  indexOf pattern (a ++ pattern ++ rest) = strlen a.
Proof.
  induction a as [|c a IH]; intros H.
  - cbn [append]. destruct (pattern ++ rest) eqn:E; cbn [indexOf].
    + destruct pattern; [reflexivity | discriminate E].
    + rewrite <- E.
      replace (String.prefix pattern (pattern ++ rest)) with true;
        [reflexivity|].
      symmetry. clear. induction pattern as [|x p IHp]; simpl.
      * now destruct rest.
      * destruct (ascii_dec x x); [exact IHp | contradiction].
  - cbn [append indexOf].
    change (String c (a ++ pattern ++ rest))
      with (String c a ++ pattern ++ rest).
    rewrite (H "" (String c a) eq_refl) by discriminate.
    rewrite IH.
    + pose proof (strlen_nonneg a) as Ha.
      replace (strlen a =? -1) with false
        by (symmetry; apply Z.eqb_neq; lia).
      unfold strlen. simpl String.length. lia.
    + intros k b -> Hb. apply (H (String c k) b); [reflexivity | exact Hb].
Qed.

Lemma prefix_first_char (pattern s : string) (x : ascii) :
  Cookies.hasChar x s = false ->
  forall rest, s <> "" ->
    String.prefix (String x pattern) (s ++ rest) = false.
Proof.
  intros H rest Hs. destruct s as [|c s]; [contradiction|].
  simpl in *. apply orb_false_iff in H. destruct H as [Hc _].
  destruct (ascii_dec x c) as [->|Hne]; [|reflexivity].
  now rewrite Ascii.eqb_refl in Hc.
Qed.

Lemma slice_from (a b : string) :
  slice (a ++ b) (strlen a) (strlen (a ++ b)) = b.
Proof.
  unfold slice. rewrite strlen_append.
  pose proof (strlen_nonneg a) as Ha. pose proof (strlen_nonneg b) as Hb.
  replace (strlen a <? 0) with false by (symmetry; apply Z.ltb_ge; lia).
  replace (strlen a + strlen b <? 0) with false
    by (symmetry; apply Z.ltb_ge; lia).
  rewrite !Z.min_l by lia.
  replace (Z.max (strlen a + strlen b - strlen a) 0) with (strlen b) by lia.
  unfold strlen. rewrite !Nat2Z.id.
  rewrite <- (Nat.add_0_r (String.length a)), substring_skip.
  apply substring0_all.
Qed.

Lemma prefix_cons (x c : ascii) (pattern s : string) :
  String.prefix (String x pattern) (String c s)
    = if ascii_dec x c then String.prefix pattern s else false.
Proof. reflexivity. Qed.

(** No occurrence of [/RU=] starts inside a text without [/RU]. *)
Lemma ruMarker_first (b k rest : string) :
  includes "/RU" (k ++ b) = false -> b <> "" ->
  String.prefix ruMarker (b ++ ruMarker ++ rest) = false.
Proof.
  intros H Hb.
  assert (Hb' : includes "/RU" b = false).
  { clear Hb. induction k as [|c k IH]; [exact H|].
    cbn [append includes] in H. apply orb_false_iff in H. now apply IH. }
  clear H. destruct b as [|c0 b]; [contradiction|].
  cbn [includes] in Hb'. apply orb_false_iff in Hb'. destruct Hb' as [Hp _].
  unfold ruMarker. cbn [append]. rewrite prefix_cons in *.
  destruct (ascii_dec "/" c0); [|reflexivity].
  destruct b as [|c1 b]; [reflexivity|].
  cbn [append]. rewrite prefix_cons in *.
  destruct (ascii_dec "R" c1); [|reflexivity].
  destruct b as [|c2 b]; [reflexivity|].
  cbn [append]. rewrite prefix_cons in *.
  destruct (ascii_dec "U" c2); [|reflexivity].
  now rewrite prefix_empty in Hp.
Qed.

(** X28. [decodeYahooRedirectUrl] returns a link without [/RU=]
    unchanged.  In a link that carries its target after the first
    [/RU=], the target being encoded without any [/], the function
    decodes what stands between that marker and the next [/R] (or the
    end of the link), and returns it undecoded when
    [decodeURIComponent] throws; it never throws itself. *)
Theorem decodeYahooRedirectUrl_target
    (decodeURIComponent : string -> Completion string)
    (before encoded rest : string) :
  includes "/RU" before = false -> Cookies.hasChar "/" encoded = false ->
  let target :=
    match decodeURIComponent encoded with
    | Return decoded => decoded
    | Throw _ => encoded
    end in
  decodeYahooRedirectUrl decodeURIComponent
    (before ++ "/RU=" ++ encoded ++ "/R" ++ rest) = target /\
  decodeYahooRedirectUrl decodeURIComponent (before ++ "/RU=" ++ encoded)
    = target /\
  (forall url, includes "/RU=" url = false ->
     decodeYahooRedirectUrl decodeURIComponent url = url).
Proof.
  intros Hb He target.
  assert (Hru : forall tail,
             indexOf ruMarker (before ++ ruMarker ++ tail) = strlen before).
  { intros tail. apply indexOf_found. intros k b -> Hne.
    now apply (ruMarker_first b k tail). }
  assert (Hslice : forall tail,
             slice (before ++ ruMarker ++ tail)
                   (strlen before + strlen ruMarker)
                   (strlen (before ++ ruMarker ++ tail)) = tail).
  { intros tail. rewrite <- strlen_append, <- append_assoc.
    apply slice_from. }
  assert (Htruthy : forall tail,
             truthy (before ++ ruMarker ++ tail) = true)
    by (intros tail; now destruct before).
  pose proof (strlen_nonneg before) as Hn.
  split; [|split].
  - unfold decodeYahooRedirectUrl.
    change (before ++ "/RU=" ++ encoded ++ "/R" ++ rest)
      with (before ++ ruMarker ++ encoded ++ "/R" ++ rest).
    rewrite Htruthy, Hru. cbn [negb].
    replace (strlen before =? -1) with false
      by (symmetry; apply Z.eqb_neq; lia).
    rewrite Hslice.
    rewrite (indexOf_found "/R" encoded rest).
    + pose proof (strlen_nonneg encoded) as Hen.
      replace (strlen encoded =? -1) with false
        by (symmetry; apply Z.eqb_neq; lia).
      now rewrite slice_left.
    + intros k b -> Hne. apply prefix_first_char; [|exact Hne].
      rewrite hasChar_app in He. apply orb_false_iff in He. tauto.
  - unfold decodeYahooRedirectUrl.
    change (before ++ "/RU=" ++ encoded)
      with (before ++ ruMarker ++ encoded).
    rewrite Htruthy, Hru. cbn [negb].
    replace (strlen before =? -1) with false
      by (symmetry; apply Z.eqb_neq; lia).
    rewrite Hslice.
    rewrite (indexOf_absent "/R" encoded); [reflexivity|].
    clear - He. induction encoded as [|c e IH]; [reflexivity|].
    simpl in He. apply orb_false_iff in He. destruct He as [Hc He].
    cbn [includes]. rewrite (IH He), orb_false_r, prefix_cons.
    destruct (ascii_dec "/" c) as [<-|Hne]; [|reflexivity].
    discriminate Hc.
  - intros url Hu. unfold decodeYahooRedirectUrl.
    destruct (truthy url); [|reflexivity]. cbn [negb].
    now rewrite (indexOf_absent ruMarker url Hu).
Qed.

Lemma decodeYahooRedirectUrl_target_witness :
  decodeYahooRedirectUrl sampleDecoder
    ("https://r.search.yahoo.com/_ylt=Awr/RV=2/RE=17/RO=10" ++ "/RU="
       ++ "https%3a%2f%2fexample.com%2fguide" ++ "/R" ++ "K=2/RS=xyz")
    = "https://example.com/guide".
Proof.
  apply (decodeYahooRedirectUrl_target sampleDecoder
           "https://r.search.yahoo.com/_ylt=Awr/RV=2/RE=17/RO=10"
           "https%3a%2f%2fexample.com%2fguide" "K=2/RS=xyz");
    reflexivity.
Defined.

End YahooRedirect.

(* ================================================================== *)
(** * SearchAggregator.ts: a result merged twice                       *)
(* ================================================================== *)

Section MergedTwice.
Import Js SearchAggregator Aggregation.
Context {api : UrlApi}.

Lemma mutate_fixed (m : JsMap.t) (k : string)
    (f : AggregatedResult.t -> AggregatedResult.t) (e : AggregatedResult.t) :
  JsMap.get m k = Some e -> f e = e -> JsMap.mutate m k f = m.
Proof.
  intros Hget Hf. induction m as [|[k0 v0] m IH]; simpl in *; [reflexivity|].
  destruct (String.eqb k0 k).
  - injection Hget as ->. now rewrite Hf.
  - now rewrite IH.
Qed.

Lemma firstTruthy_falsy (values : list string) (v : string) :
  truthy (firstTruthy values) = false -> In v values -> truthy v = false.
Proof.
  induction values as [|x values IH]; simpl; [tauto|].
  destruct (truthy x) eqn:E.
  - intros H. congruence.
  - intros H [<-|Hin]; [exact E | now apply IH].
Qed.

Lemma mergeInto_fixed (e : AggregatedResult.t) (title snippet source : string) :
  includes (AggregatedResult.sources e) source = true ->
  (truthy (AggregatedResult.snippet e) = false -> truthy snippet = false) ->
  (truthy (AggregatedResult.title e) = false -> truthy title = false) ->
  mergeInto e title snippet source = e.
Proof.
  intros Hsrc Hs Ht. destruct e as [t u s srcs]. unfold mergeInto.
  cbn [AggregatedResult.title AggregatedResult.url AggregatedResult.snippet
       AggregatedResult.sources] in *.
  rewrite Hsrc. cbn [negb].
  destruct (truthy s) eqn:Es, (truthy t) eqn:Et; cbn [negb andb];
    rewrite ?Hs, ?Ht by reflexivity; reflexivity.
Qed.

(** A result that has been merged is absorbed by its record. *)
Lemma mergeResult_absorbed (inputs : list Input) (i : Input) :
  In i inputs ->
  mergeResult (mergeAll [] inputs) (fst i) (snd i) = mergeAll [] inputs.
Proof.
  intros Hin. unfold mergeResult.
  destruct (sanitizeUrl (SearchResult.url (fst i))) as [c|] eqn:Ec;
    [|reflexivity].
  assert (Hkey : hasKey (key c) i = true).
  { apply hasKey_true. unfold keyOf. now rewrite Ec. }
  assert (Hfil : In i (filter (hasKey (key c)) inputs))
    by (apply filter_In; split; assumption).
  pose proof (get_mergeAll inputs [] (key c)) as Hget.
  simpl JsMap.get in Hget at 2. rewrite fold_entryStep_None in Hget.
  destruct (filter (hasKey (key c)) inputs) as [|first later] eqn:Ef;
    [destruct Hfil|].
  rewrite Hget.
  apply (mutate_fixed _ _ _ _ Hget).
  apply mergeInto_fixed.
  - apply includes_In, sources_of_key. now apply in_map.
  - intros H. cbn [absorb AggregatedResult.snippet] in H.
    apply (firstTruthy_falsy _ _ H).
    change (AggregatedResult.snippet (freshRecord first)
              :: map (fun j => SearchResult.snippet (fst j)) later)
      with (map (fun j => SearchResult.snippet (fst j)) (first :: later)).
    now apply (in_map (fun j => SearchResult.snippet (fst j))).
  - intros H. cbn [absorb AggregatedResult.title] in H.
    apply (firstTruthy_falsy _ _ H).
    change (AggregatedResult.title (freshRecord first)
              :: map (fun j => SearchResult.title (fst j)) later)
      with (map (fun j => SearchResult.title (fst j)) (first :: later)).
    now apply (in_map (fun j => SearchResult.title (fst j))).
Qed.

(** X29. Merging again a result that has already been merged, from the
    same adapter, changes nothing: an aggregation in which a result
    occurs a second time, anywhere after its first occurrence, is the
    aggregation without that second occurrence, record for record and
    in the same order. *)
Theorem mergeAll_duplicate (before after : list Input) (i : Input) :
  In i before ->
  mergeAll [] (before ++ i :: after) = mergeAll [] (before ++ after).
Proof.
  intros Hin. rewrite !mergeAll_app.
  unfold mergeAll at 1. cbn [fold_left].
  fold (mergeAll (mergeResult (mergeAll [] before) (fst i) (snd i)) after).
  now rewrite (mergeResult_absorbed before i Hin).
Qed.

End MergedTwice.

Section MergedTwiceWitness.
Import Js SearchAggregator Aggregation Samples.

Lemma mergeAll_duplicate_witness :
  mergeAll (api := Whatwg.api) []
    ([(result "Guide" "https://example.com/guide" "", "Brave");
      (result "Other" "https://example.com/other" "o", "Brave")]
       ++ (result "Guide" "https://example.com/guide" "", "Brave")
       :: [(result "The Guide" "https://example.com/guide/" "g", "Bing")])
  = mergeAll (api := Whatwg.api) []
      ([(result "Guide" "https://example.com/guide" "", "Brave");
        (result "Other" "https://example.com/other" "o", "Brave")]
         ++ [(result "The Guide" "https://example.com/guide/" "g", "Bing")]).
Proof.
  apply (mergeAll_duplicate (api := Whatwg.api)). left. reflexivity.
Defined.

End MergedTwiceWitness.
